(** * AccessTracker: a ring of time buckets of probabilistic counters

    A shallow embedding of [cachelib/common/AccessTracker.h]
    (class template [detail::AccessTrackerBase<CMS>]) and the properties of
    its rotation protocol, queries and move operations.

    Conventions of the embedding.
    - [size_t] and [uint64_t] values are integers in [Z]; every C++
      addition or subtraction that can wrap is written with [wrap64].
    - [std::vector] is a [list]; [operator[]] outside the vector is undefined
      behaviour in C++ and is the fault [IndexOutOfBounds] here, [at()]
      throws and is the fault [OutOfRangeException].
    - Division and remainder by zero are the fault [DivideByZero].
    - The count-min sketch (template parameter [CMS]), [BloomFilter] and
      [folly::hash::SpookyHashV2::Hash64] live outside this header; they are
      parameters of the development, given as operation classes.
    - The tick source ([config_.ticker->getCurrentTick()]) is polled; the
      value it returns at a call is passed to the embedded function as its
      argument [currentTick].  Of the pointer [config_.ticker] only whether
      it is null is kept, in the field [config_ticker] of the tracker: the
      constructor replaces a null pointer by a clock ticker, a move empties
      the pointer of the object moved from, and polling through a null
      pointer is the fault [NullPointerDereference].
    - [double] configuration values are rationals; the estimate a bucket
      returns (a sketch count converted to [double], or [1]/[0]) is an
      integer, the conversion being exact. *)

From Stdlib Require Import ZArith QArith Lia.
From stdpp Require Import base tactics list strings.

Close Scope Q_scope.
Open Scope Z_scope.

(** ** External collaborators *)

(** The interface [AccessTrackerBase] requires of its template parameter. *)
Class CountMinSketchOps (CMS : Type) := {
  (* CMS(errorMargin, errorCertainity, maxWidth, maxDepth) *)
  cms_construct : Q -> Q -> Z -> Z -> CMS;
  (* increment(hashVal) *)
  cms_increment : Z -> CMS -> CMS;
  (* getCount(hashVal) *)
  cms_getCount : CMS -> Z -> Z;
  (* reset() *)
  cms_reset : CMS -> CMS;
  (* getByteSize() *)
  cms_getByteSize : CMS -> Z
}.

(** The part of [BloomFilter] the tracker calls: one object that holds a
    filter per bucket. *)
Class BloomFilterOps (BF : Type) := {
  (* BloomFilter{} *)
  bf_default : BF;
  (* BloomFilter::makeBloomFilter(numFilters, elementCount, fpRate) *)
  makeBloomFilter : Z -> Z -> Q -> BF;
  (* set(idx, hashVal) *)
  bf_set : Z -> Z -> BF -> BF;
  (* couldExist(idx, hashVal) *)
  bf_couldExist : BF -> Z -> Z -> bool;
  (* clear(idx) *)
  bf_clear : Z -> BF -> BF;
  (* getByteSize() *)
  bf_getByteSize : BF -> Z;
  (* the state a filter is left in by std::move *)
  bf_moved_from : BF -> BF
}.

(** [folly::hash::SpookyHashV2::Hash64(data, size, seed)]. *)
Class SpookyHashV2 := Hash64 : string -> Z -> Z.

(** Modelled from the spec: what section 4.6 says of [byteSize()], whose
    source is not part of this header.  A backend's byte size is its
    capacity: it is fixed by construction and unaffected by recording and by
    resets; a filter bank without filters takes no space. *)
Class ByteSizeLaws {CMS BF : Type} `{!CountMinSketchOps CMS, !BloomFilterOps BF} : Prop := {
  cms_getByteSize_nonneg : forall c, 0 <= cms_getByteSize c;
  cms_getByteSize_increment : forall hashVal c,
    cms_getByteSize (cms_increment hashVal c) = cms_getByteSize c;
  cms_getByteSize_reset : forall c, cms_getByteSize (cms_reset c) = cms_getByteSize c;
  bf_getByteSize_nonneg : forall f, 0 <= bf_getByteSize f;
  bf_getByteSize_set : forall idx hashVal f,
    bf_getByteSize (bf_set idx hashVal f) = bf_getByteSize f;
  bf_getByteSize_clear : forall idx f, bf_getByteSize (bf_clear idx f) = bf_getByteSize f;
  bf_getByteSize_default : bf_getByteSize bf_default = 0;
  bf_getByteSize_no_filters : forall elementCount fpRate,
    bf_getByteSize (makeBloomFilter 0 elementCount fpRate) = 0
}.

(** Modelled from the spec: what sections 2, 4.2 and 8 say of the estimates,
    whose source is not part of this header.  A new or reset backend
    estimates zero for every hash; a sketch never under-estimates, so the
    estimate of a hash that has been recorded is at least one (the spec's
    "after recording [n] accesses the estimate is [>= n]" at [n = 1], which
    counters of every width meet; how far an estimate is above the number
    of accesses is not fixed); a hash that was [set] in a filter could exist
    there (no false negatives); [clear] empties one filter and leaves the
    others as they were. *)
Class EstimateLaws {CMS BF : Type} `{!CountMinSketchOps CMS, !BloomFilterOps BF} : Prop := {
  cms_getCount_construct : forall errorMargin certainty maxWidth maxDepth hashVal,
    cms_getCount (cms_construct errorMargin certainty maxWidth maxDepth) hashVal = 0;
  cms_getCount_reset : forall c hashVal, cms_getCount (cms_reset c) hashVal = 0;
  cms_getCount_recorded : forall c hashVal,
    1 <= cms_getCount (cms_increment hashVal c) hashVal;
  bf_couldExist_make : forall numFilters elementCount fpRate idx hashVal,
    bf_couldExist (makeBloomFilter numFilters elementCount fpRate) idx hashVal = false;
  bf_couldExist_set : forall f idx hashVal,
    bf_couldExist (bf_set idx hashVal f) idx hashVal = true;
  bf_couldExist_clear : forall f idx hashVal,
    bf_couldExist (bf_clear idx f) idx hashVal = false;
  bf_couldExist_clear_other : forall f idx other hashVal,
    other <> idx ->
    bf_couldExist (bf_clear idx f) other hashVal = bf_couldExist f other hashVal
}.

(** ** Machine integers, faults *)

Definition wrap64 (z : Z) : Z := z mod 2 ^ 64.

Inductive fault : Set :=
| NullPointerDereference
| DivideByZero
| IndexOutOfBounds
| OutOfRangeException
| SpinForever
| LoopFuelExhausted.

Inductive result (A : Type) : Type :=
| Ok (a : A)
| Fault (f : fault).
Arguments Ok {A} a.
Arguments Fault {A} f.

(** [folly::SpinLock]. *)
Inductive SpinLock : Set := Unlocked | Locked.

(** [std::shared_ptr<Ticker>]: null, or a ticker. *)
Inductive TickerPtr : Set := NullTicker | SomeTicker.

(** ** Data model *)

Record Config : Type := {
  numBuckets : Z;
  numTicksPerBucket : Z;
  useCounts : bool;
  maxNumOpsPerBucket : Z;
  cmsMaxErrorValue : Z;
  cmsErrorCertainity : Q;
  cmsMaxWidth : Z;
  cmsMaxDepth : Z;
  bfFalsePositiveRate : Q
}.

(** The defaults of the member initialisers of [Config]. *)
Definition default_Config : Config := {|
  numBuckets := 0;
  numTicksPerBucket := 3600;
  useCounts := true;
  maxNumOpsPerBucket := 1000000;
  cmsMaxErrorValue := 1;
  cmsErrorCertainity := (99 # 100)%Q;
  cmsMaxWidth := 8000000;
  cmsMaxDepth := 8;
  bfFalsePositiveRate := (2 # 100)%Q
|}.

Definition kRandomSeed : Z := 314159.

Section Tracker.

Context {CMS BF : Type}.
Context `{!CountMinSketchOps CMS, !BloomFilterOps BF, !SpookyHashV2}.

Record AccessTrackerBase : Type := {
  config_ : Config;
  config_ticker : TickerPtr;
  mostRecentAccessedBucket_ : Z;
  filters_ : BF;
  counts_ : list CMS;
  locks_ : list SpinLock;
  itemCounts_ : list Z
}.

Definition with_mostRecent (v : Z) (t : AccessTrackerBase) : AccessTrackerBase :=
  {| config_ := config_ t; config_ticker := config_ticker t; mostRecentAccessedBucket_ := v;
     filters_ := filters_ t; counts_ := counts_ t;
     locks_ := locks_ t; itemCounts_ := itemCounts_ t |}.

Definition with_filters (f : BF) (t : AccessTrackerBase) : AccessTrackerBase :=
  {| config_ := config_ t; config_ticker := config_ticker t;
     mostRecentAccessedBucket_ := mostRecentAccessedBucket_ t;
     filters_ := f; counts_ := counts_ t;
     locks_ := locks_ t; itemCounts_ := itemCounts_ t |}.

Definition with_counts (c : list CMS) (t : AccessTrackerBase) : AccessTrackerBase :=
  {| config_ := config_ t; config_ticker := config_ticker t;
     mostRecentAccessedBucket_ := mostRecentAccessedBucket_ t;
     filters_ := filters_ t; counts_ := c;
     locks_ := locks_ t; itemCounts_ := itemCounts_ t |}.

Definition with_locks (l : list SpinLock) (t : AccessTrackerBase) : AccessTrackerBase :=
  {| config_ := config_ t; config_ticker := config_ticker t;
     mostRecentAccessedBucket_ := mostRecentAccessedBucket_ t;
     filters_ := filters_ t; counts_ := counts_ t;
     locks_ := l; itemCounts_ := itemCounts_ t |}.

Definition with_itemCounts (c : list Z) (t : AccessTrackerBase) : AccessTrackerBase :=
  {| config_ := config_ t; config_ticker := config_ticker t;
     mostRecentAccessedBucket_ := mostRecentAccessedBucket_ t;
     filters_ := filters_ t; counts_ := counts_ t;
     locks_ := locks_ t; itemCounts_ := c |}.

(** ** The state-and-fault monad of member functions *)

Definition M (A : Type) : Type := AccessTrackerBase -> result (A * AccessTrackerBase).

Definition ret {A} (a : A) : M A := fun t => Ok (a, t).

Definition bind {A B} (m : M A) (k : A -> M B) : M B := fun t =>
  match m t with
  | Ok (a, t') => k a t'
  | Fault f => Fault f
  end.

Definition raise {A} (f : fault) : M A := fun _ => Fault f.

Definition gets {A} (proj : AccessTrackerBase -> A) : M A := fun t => Ok (proj t, t).

Definition modify (f : AccessTrackerBase -> AccessTrackerBase) : M unit :=
  fun t => Ok (tt, f t).

Notation "x <- m ;; k" := (bind m (fun x => k))
  (at level 100, m at next level, right associativity).
Notation "m ;;; k" := (bind m (fun _ => k))
  (at level 100, right associativity).

(** [v[idx]] on a vector member: undefined behaviour outside the vector. *)
Definition index {A} (proj : AccessTrackerBase -> list A) (idx : Z) : M A := fun t =>
  match proj t !! Z.to_nat idx with
  | Some x => Ok (x, t)
  | None => Fault IndexOutOfBounds
  end.

(** [v.at(idx)]: throws [std::out_of_range] outside the vector. *)
Definition at_ {A} (proj : AccessTrackerBase -> list A) (idx : Z) : M A := fun t =>
  match proj t !! Z.to_nat idx with
  | Some x => Ok (x, t)
  | None => Fault OutOfRangeException
  end.

(** [LockHolder l(locks_[idx]); body]: the guard is released at the end of the
    scope.  A lock that is already held would be spun on. *)
Definition LockHolder {A} (idx : Z) (body : M A) : M A :=
  l <- index locks_ idx ;;
  match l with
  | Locked => raise SpinForever
  | Unlocked =>
      modify (fun t => with_locks (<[Z.to_nat idx := Locked]> (locks_ t)) t) ;;;
      a <- body ;;
      modify (fun t => with_locks (<[Z.to_nat idx := Unlocked]> (locks_ t)) t) ;;;
      ret a
  end.

(** ** Member functions *)

(* size_t rotatedIdx(size_t bucket) const { return bucket % config_.numBuckets; } *)
Definition rotatedIdx (bucket : Z) : M Z :=
  n <- gets (fun t => numBuckets (config_ t)) ;;
  if n =? 0 then raise DivideByZero else ret (bucket mod n).

(* return rotatedIdx(config_.ticker->getCurrentTick() / config_.numTicksPerBucket); *)
Definition getCurrentBucketIndex (currentTick : Z) : M Z :=
  ticker <- gets config_ticker ;;
  match ticker with
  | NullTicker => raise NullPointerDereference
  | SomeTicker =>
      d <- gets (fun t => numTicksPerBucket (config_ t)) ;;
      if d =? 0 then raise DivideByZero else rotatedIdx (currentTick / d)
  end.

(* config_.useCounts ? counts_.at(idx).getCount(hashVal)
                     : (filters_.couldExist(idx, hashVal)) ? 1 : 0 *)
Definition getBucketAccessCountLocked (idx hashVal : Z) : M Z :=
  uc <- gets (fun t => useCounts (config_ t)) ;;
  if uc then
    c <- at_ counts_ idx ;;
    ret (cms_getCount c hashVal)
  else
    f <- gets filters_ ;;
    ret (if bf_couldExist f idx hashVal then 1 else 0).

(* config_.useCounts ? counts_[idx].increment(hashVal) : filters_.set(idx, hashVal);
   itemCounts_[idx]++; *)
Definition updateBucketLocked (idx hashVal : Z) : M unit :=
  uc <- gets (fun t => useCounts (config_ t)) ;;
  (if uc then
     c <- index counts_ idx ;;
     modify (fun t => with_counts (<[Z.to_nat idx := cms_increment hashVal c]> (counts_ t)) t)
   else
     modify (fun t => with_filters (bf_set idx hashVal (filters_ t)) t)) ;;;
  v <- index itemCounts_ idx ;;
  modify (fun t => with_itemCounts (<[Z.to_nat idx := wrap64 (v + 1)]> (itemCounts_ t)) t).

(* config_.useCounts ? counts_[idx].reset() : filters_.clear(idx);
   itemCounts_[idx] = 0; *)
Definition resetBucketLocked (idx : Z) : M unit :=
  uc <- gets (fun t => useCounts (config_ t)) ;;
  (if uc then
     c <- index counts_ idx ;;
     modify (fun t => with_counts (<[Z.to_nat idx := cms_reset c]> (counts_ t)) t)
   else
     modify (fun t => with_filters (bf_clear idx (filters_ t)) t)) ;;;
  _ <- index itemCounts_ idx ;;
  modify (fun t => with_itemCounts (<[Z.to_nat idx := 0]> (itemCounts_ t)) t).

(* mostRecentAccessedBucket_.compare_exchange_strong(expected, desired) *)
Definition compare_exchange_strong (expected desired : Z) : M bool := fun t =>
  if mostRecentAccessedBucket_ t =? expected
  then Ok (true, with_mostRecent desired t)
  else Ok (false, t).

(* the while (true) loop of updateMostRecentAccessedBucket *)
Fixpoint updateMostRecentAccessedBucket_loop (fuel : nat) (bucketIdx : Z) : M unit :=
  match fuel with
  | O => raise LoopFuelExhausted
  | S fuel' =>
      mostRecent <- gets mostRecentAccessedBucket_ ;;
      onBorder <- (if bucketIdx =? mostRecent then ret true
                   else next <- rotatedIdx (wrap64 (bucketIdx + 1)) ;;
                        ret (next =? mostRecent)) ;;
      if (onBorder : bool) then ret tt
      else
        success <- compare_exchange_strong mostRecent bucketIdx ;;
        if (success : bool) then LockHolder bucketIdx (resetBucketLocked bucketIdx)
        else updateMostRecentAccessedBucket_loop fuel' bucketIdx
  end.

(** One thread alone never fails its compare-and-swap, so a single turn of
    the loop is all a sequential call takes (lemma
    [updateMostRecentAccessedBucket_loop_fuel]). *)
Definition updateMostRecentAccessedBucket (currentTick : Z) : M unit :=
  bucketIdx <- getCurrentBucketIndex currentTick ;;
  updateMostRecentAccessedBucket_loop 1 bucketIdx.

Definition hashOf (key : string) : Z := Hash64 key kRandomSeed.

Definition recordAccess (currentTick : Z) (key : string) : M unit :=
  updateMostRecentAccessedBucket currentTick ;;;
  let hashVal := hashOf key in
  idx <- gets mostRecentAccessedBucket_ ;;
  LockHolder idx (updateBucketLocked idx hashVal).

(* for (size_t i = 0; i < config_.numBuckets; i++) { ... features[i] = ... } ,
   with [todo] iterations left and [i] the loop variable *)
Fixpoint getAccesses_loop (todo : nat) (i : Z) (mostRecentBucketIdx hashVal : Z)
    (features : list Z) : M (list Z) :=
  match todo with
  | O => ret features
  | S todo' =>
      n <- gets (fun t => numBuckets (config_ t)) ;;
      idx <- rotatedIdx (wrap64 (wrap64 (mostRecentBucketIdx + n) - i)) ;;
      v <- LockHolder idx (getBucketAccessCountLocked idx hashVal) ;;
      getAccesses_loop todo' (i + 1) mostRecentBucketIdx hashVal
        (<[Z.to_nat i := v]> features)
  end.

Definition getAccesses (currentTick : Z) (key : string) : M (list Z) :=
  updateMostRecentAccessedBucket currentTick ;;;
  let hashVal := hashOf key in
  mostRecentBucketIdx <- gets mostRecentAccessedBucket_ ;;
  n <- gets (fun t => numBuckets (config_ t)) ;;
  getAccesses_loop (Z.to_nat n) 0 mostRecentBucketIdx hashVal
    (replicate (Z.to_nat n) 0).

(* auto features = getAccesses(key); recordAccess(key); return features;
   the ticker is polled once by each of the two calls *)
Definition recordAndPopulateAccessFeatures (tick1 tick2 : Z) (key : string)
    : M (list Z) :=
  features <- getAccesses tick1 key ;;
  recordAccess tick2 key ;;;
  ret features.

Definition getNumBuckets (t : AccessTrackerBase) : Z := numBuckets (config_ t).

Fixpoint getRotatedAccessCounts_loop (todo : nat) (i : Z) (currentBucketIdx : Z)
    (counts : list Z) : M (list Z) :=
  match todo with
  | O => ret counts
  | S todo' =>
      n <- gets (fun t => numBuckets (config_ t)) ;;
      idx <- rotatedIdx (wrap64 (wrap64 (currentBucketIdx + n) - i)) ;;
      v <- LockHolder idx (index itemCounts_ idx) ;;
      getRotatedAccessCounts_loop todo' (i + 1) currentBucketIdx
        (<[Z.to_nat i := v]> counts)
  end.

Definition getRotatedAccessCounts (currentTick : Z) : M (list Z) :=
  currentBucketIdx <- getCurrentBucketIndex currentTick ;;
  n <- gets (fun t => numBuckets (config_ t)) ;;
  getRotatedAccessCounts_loop (Z.to_nat n) 0 currentBucketIdx
    (replicate (Z.to_nat n) 0).

(* filters_.getByteSize() +
   (counts_.empty() ? 0 : counts_.size() * counts_.at(0).getByteSize()) *)
Definition getByteSize (t : AccessTrackerBase) : Z :=
  wrap64 (bf_getByteSize (filters_ t) +
          match counts_ t with
          | [] => 0
          | c0 :: _ => wrap64 (Z.of_nat (length (counts_ t)) * cms_getByteSize c0)
          end).

(* const double errorMargin =
     config_.cmsMaxErrorValue / static_cast<double>(config_.maxNumOpsPerBucket); *)
Definition errorMargin (config : Config) : Q :=
  (inject_Z (cmsMaxErrorValue config) / inject_Z (maxNumOpsPerBucket config))%Q.

(** The constructor.  [locks_{config_.numBuckets}] and
    [itemCounts_(config_.numBuckets, 0)] have one entry per bucket;
    [counts_] is filled only when [useCounts], [filters_] only otherwise.
    Whatever ticker the given configuration points at, [config_.ticker] is
    not null afterwards: [if (!config_.ticker) config_.ticker = ...]. *)
Definition AccessTrackerBase_ctor (config : Config) : AccessTrackerBase :=
  let n := Z.to_nat (numBuckets config) in
  {| config_ := config;
     config_ticker := SomeTicker;
     mostRecentAccessedBucket_ := 0;
     filters_ :=
       if useCounts config then bf_default
       else makeBloomFilter (numBuckets config) (maxNumOpsPerBucket config)
                            (bfFalsePositiveRate config);
     counts_ :=
       if useCounts config
       then replicate n (cms_construct (errorMargin config)
                           (cmsErrorCertainity config)
                           (cmsMaxWidth config) (cmsMaxDepth config))
       else [];
     locks_ := replicate n Unlocked;
     itemCounts_ := replicate n 0 |}.

(** The move constructor.  Its member initialiser list names [config_],
    [mostRecentAccessedBucket_], [filters_], [counts_] and [locks_]; the
    member [itemCounts_] is not named and is default-initialised (empty) in
    the new object, and stays as it was in [other].  Moving a [Config] copies
    its scalar fields and moves its [ticker] pointer, which is null in
    [other] afterwards.  The result is the new object and [other]
    afterwards. *)
Definition AccessTrackerBase_move (other : AccessTrackerBase)
    : AccessTrackerBase * AccessTrackerBase :=
  ({| config_ := config_ other;
      config_ticker := config_ticker other;
      mostRecentAccessedBucket_ := mostRecentAccessedBucket_ other;
      filters_ := filters_ other;
      counts_ := counts_ other;
      locks_ := locks_ other;
      itemCounts_ := [] |},
   {| config_ := config_ other;
      config_ticker := NullTicker;
      mostRecentAccessedBucket_ := mostRecentAccessedBucket_ other;
      filters_ := bf_moved_from (filters_ other);
      counts_ := [];
      locks_ := [];
      itemCounts_ := itemCounts_ other |}).

(** Move assignment: when [this != &other] the target is destroyed and
    move-constructed in place from [other]; self-assignment does nothing.
    The two objects are given with a flag telling whether they are the same
    object. *)
Definition AccessTrackerBase_move_assign (same_object : bool)
    (this other : AccessTrackerBase) : AccessTrackerBase * AccessTrackerBase :=
  if same_object then (this, other) else AccessTrackerBase_move other.

(** ** Sequences of public calls

    A call is a public member function together with the tick the ticker
    shows while it runs. *)

Inductive op : Type :=
| OpRecordAccess (key : string)
| OpGetAccesses (key : string)
| OpRecordAndPopulateAccessFeatures (key : string)
| OpGetRotatedAccessCounts.

Definition run_op (call : Z * op) : M unit :=
  match call with
  | (tick, OpRecordAccess key) => recordAccess tick key
  | (tick, OpGetAccesses key) => getAccesses tick key ;;; ret tt
  | (tick, OpRecordAndPopulateAccessFeatures key) =>
      recordAndPopulateAccessFeatures tick tick key ;;; ret tt
  | (tick, OpGetRotatedAccessCounts) => getRotatedAccessCounts tick ;;; ret tt
  end.

Fixpoint run (calls : list (Z * op)) : M unit :=
  match calls with
  | [] => ret tt
  | call :: rest => run_op call ;;; run rest
  end.

(** ** Threads inside the rotation check

    [updateMostRecentAccessedBucket] cut at its accesses to shared memory:
    the atomic load (with the thread-local border test that follows it), the
    compare-and-swap, the acquisition of the bucket lock, the reset made
    under the lock, and the release. *)

Inductive pc : Type :=
| AtEntry (currentTick : Z)
| AtLoad (bucketIdx : Z)
| AtCas (bucketIdx mostRecent : Z)
| AtLock (bucketIdx : Z)
| AtReset (bucketIdx : Z)
| AtUnlock (bucketIdx : Z)
| Returned.

Inductive event : Type :=
| EvSilent
| EvCasSuccess (bucketIdx : Z)
| EvCasFailure
| EvReset (bucketIdx : Z).

Definition thread_step (p : pc) (t : AccessTrackerBase)
    : result (pc * event * AccessTrackerBase) :=
  match p with
  | AtEntry currentTick =>
      match getCurrentBucketIndex currentTick t with
      | Ok (bucketIdx, t') => Ok (AtLoad bucketIdx, EvSilent, t')
      | Fault f => Fault f
      end
  | AtLoad bucketIdx =>
      let mostRecent := mostRecentAccessedBucket_ t in
      if bucketIdx =? mostRecent then Ok (Returned, EvSilent, t)
      else
        match rotatedIdx (wrap64 (bucketIdx + 1)) t with
        | Ok (next, t') =>
            if next =? mostRecent then Ok (Returned, EvSilent, t')
            else Ok (AtCas bucketIdx mostRecent, EvSilent, t')
        | Fault f => Fault f
        end
  | AtCas bucketIdx mostRecent =>
      match compare_exchange_strong mostRecent bucketIdx t with
      | Ok (true, t') => Ok (AtLock bucketIdx, EvCasSuccess bucketIdx, t')
      | Ok (false, t') => Ok (AtLoad bucketIdx, EvCasFailure, t')
      | Fault f => Fault f
      end
  | AtLock bucketIdx =>
      match index locks_ bucketIdx t with
      | Ok (Unlocked, t') =>
          Ok (AtReset bucketIdx, EvSilent,
              with_locks (<[Z.to_nat bucketIdx := Locked]> (locks_ t')) t')
      | Ok (Locked, t') => Ok (AtLock bucketIdx, EvSilent, t')
      | Fault f => Fault f
      end
  | AtReset bucketIdx =>
      match resetBucketLocked bucketIdx t with
      | Ok (_, t') => Ok (AtUnlock bucketIdx, EvReset bucketIdx, t')
      | Fault f => Fault f
      end
  | AtUnlock bucketIdx =>
      Ok (Returned, EvSilent,
          with_locks (<[Z.to_nat bucketIdx := Unlocked]> (locks_ t)) t)
  | Returned => Ok (Returned, EvSilent, t)
  end.

(** The shared tracker and the program point of every thread. *)
Record system : Type := {
  shared : AccessTrackerBase;
  threads : list pc
}.

(** Thread [tid] makes one step; a thread id without a thread makes none. *)
Definition sys_step (tid : nat) (s : system) : result (system * list (nat * event)) :=
  match threads s !! tid with
  | None => Ok (s, [])
  | Some p =>
      match thread_step p (shared s) with
      | Ok (p', e, t') =>
          Ok ({| shared := t'; threads := <[tid := p']> (threads s) |}, [(tid, e)])
      | Fault f => Fault f
      end
  end.

(** An interleaving is the list of thread ids in the order they step. *)
Fixpoint sys_run (schedule : list nat) (s : system)
    : result (system * list (nat * event)) :=
  match schedule with
  | [] => Ok (s, [])
  | tid :: rest =>
      match sys_step tid s with
      | Ok (s', es) =>
          match sys_run rest s' with
          | Ok (s'', es') => Ok (s'', es ++ es')
          | Fault f => Fault f
          end
      | Fault f => Fault f
      end
  end.

Definition is_cas_success (e : event) : bool :=
  match e with EvCasSuccess _ => true | _ => false end.

Definition is_reset (e : event) : bool :=
  match e with EvReset _ => true | _ => false end.

(** The events that matter to the protocol: who won a compare-and-swap, who
    reset a bucket. *)
Definition significant (e : event) : bool := is_cas_success e || is_reset e.

Definition significant_events (trace : list (nat * event)) : list (nat * event) :=
  filter (fun x => significant (snd x) = true) trace.

(** The significant events of one thread, in order. *)
Definition thread_events (tid : nat) (trace : list (nat * event)) : list event :=
  snd <$> filter (fun x => fst x = tid) (significant_events trace).

End Tracker.

Arguments AccessTrackerBase : clear implicits.
Arguments system : clear implicits.
Arguments M : clear implicits.

(** ** Well-formed trackers and the effect of a rotation, stated directly *)

Section Descriptions.

Context {CMS BF : Type}.
Context `{!CountMinSketchOps CMS, !BloomFilterOps BF, !SpookyHashV2}.

Local Abbreviation Tracker := (AccessTrackerBase CMS BF).

(** What the constructor establishes and every member function keeps: at
    least one bucket and one tick per bucket, one lock and one raw counter per
    bucket, one sketch per bucket when sketches are in use, a shared index
    that names a bucket, and a ticker.  [numBuckets] is a [size_t]. *)
Record wf (t : Tracker) : Prop := {
  wf_numBuckets : 1 <= numBuckets (config_ t) < 2 ^ 64;
  wf_numTicks : 1 <= numTicksPerBucket (config_ t);
  wf_mostRecent : 0 <= mostRecentAccessedBucket_ t < numBuckets (config_ t);
  wf_locks : Z.of_nat (length (locks_ t)) = numBuckets (config_ t);
  wf_itemCounts : Z.of_nat (length (itemCounts_ t)) = numBuckets (config_ t);
  wf_counts : useCounts (config_ t) = true ->
              Z.of_nat (length (counts_ t)) = numBuckets (config_ t);
  wf_ticker : config_ticker t = SomeTicker
}.

(** No member function is running: every bucket lock is free. *)
Definition quiescent (t : Tracker) : Prop :=
  forall i l, locks_ t !! i = Some l -> l = Unlocked.

(** The configuration the constructor is meant for. *)
Definition wf_config (config : Config) : Prop :=
  1 <= numBuckets config < 2 ^ 64 /\ 1 <= numTicksPerBucket config.

(** Bucket lock [idx] taken, and released. *)
Definition lock_bucket (idx : Z) (t : Tracker) : Tracker :=
  with_locks (<[Z.to_nat idx := Locked]> (locks_ t)) t.

Definition unlock_bucket (idx : Z) (t : Tracker) : Tracker :=
  with_locks (<[Z.to_nat idx := Unlocked]> (locks_ t)) t.

(** The bucket the tick source points at. *)
Definition targetBucket (currentTick : Z) (t : Tracker) : Z :=
  (currentTick / numTicksPerBucket (config_ t)) mod numBuckets (config_ t).

(** Bucket [idx] with its backend reset and its raw counter at zero. *)
Definition reset_bucket (idx : Z) (t : Tracker) : Tracker :=
  with_itemCounts (<[Z.to_nat idx := 0]> (itemCounts_ t))
    (if useCounts (config_ t)
     then with_counts (alter cms_reset (Z.to_nat idx) (counts_ t)) t
     else with_filters (bf_clear idx (filters_ t)) t).

(** Bucket [idx] after one more access to [hashVal]. *)
Definition bump_bucket (idx hashVal : Z) (t : Tracker) : Tracker :=
  with_itemCounts (alter (fun v => wrap64 (v + 1)) (Z.to_nat idx) (itemCounts_ t))
    (if useCounts (config_ t)
     then with_counts (alter (cms_increment hashVal) (Z.to_nat idx) (counts_ t)) t
     else with_filters (bf_set idx hashVal (filters_ t)) t).

(** The border test of the rotation check. *)
Definition on_border (target : Z) (t : Tracker) : bool :=
  (target =? mostRecentAccessedBucket_ t) ||
  ((target + 1) mod numBuckets (config_ t) =? mostRecentAccessedBucket_ t).

(** The state a rotation check leaves. *)
Definition rotate (currentTick : Z) (t : Tracker) : Tracker :=
  let target := targetBucket currentTick t in
  if on_border target t then t
  else reset_bucket target (with_mostRecent target t).

(** The estimate bucket [idx] gives for [hashVal]. *)
Definition bucketEstimate (t : Tracker) (idx hashVal : Z) : option Z :=
  if useCounts (config_ t)
  then c ← counts_ t !! Z.to_nat idx; Some (cms_getCount c hashVal)
  else Some (if bf_couldExist (filters_ t) idx hashVal then 1 else 0).

(** The index the most-recent-first traversal visits at position [i], as the
    loops compute it: [rotatedIdx(start + config_.numBuckets - i)]. *)
Definition ringIndex (start : Z) (i : Z) (t : Tracker) : Z :=
  wrap64 (wrap64 (start + numBuckets (config_ t)) - i) mod numBuckets (config_ t).

(** A ring small enough for [start + numBuckets] not to wrap.  A tracker of
    more buckets cannot be built: its vector of 64-bit raw counters alone
    would take more than the 64-bit address space. *)
Definition ring_fits (t : Tracker) : Prop := numBuckets (config_ t) <= 2 ^ 63.

Definition sumZ (l : list Z) : Z := foldr Z.add 0 l.

(** The ticks of the [recordAccess] calls of a sequence of calls
    ([recordAndPopulateAccessFeatures] records once). *)
Definition recordTicks (calls : list (Z * op)) : list Z :=
  omap (fun call : Z * op =>
          match call.2 with
          | OpRecordAccess _ | OpRecordAndPopulateAccessFeatures _ => Some call.1
          | _ => None
          end) calls.

(** The state a public call leaves. *)
Definition effect_of (call : Z * op) (t : Tracker) : Tracker :=
  match call with
  | (tick, OpRecordAccess key) =>
      let t1 := rotate tick t in
      bump_bucket (mostRecentAccessedBucket_ t1) (hashOf key) t1
  | (tick, OpGetAccesses _) => rotate tick t
  | (tick, OpRecordAndPopulateAccessFeatures key) =>
      let t1 := rotate tick (rotate tick t) in
      bump_bucket (mostRecentAccessedBucket_ t1) (hashOf key) t1
  | (_, OpGetRotatedAccessCounts) => t
  end.

(** The bucket index a thread holds lies in the ring. *)
Definition pc_in_range (n : Z) (p : pc) : Prop :=
  match p with
  | AtEntry _ | Returned => True
  | AtLoad b | AtCas b _ | AtLock b | AtReset b | AtUnlock b => 0 <= b < n
  end.

(** What a thread at program point [p] has done so far: nothing before its
    compare-and-swap succeeds, the swap alone until it has reset the bucket,
    the swap and then the reset afterwards; a thread that has returned has
    done both or neither. *)
Definition thread_history_ok (p : pc) (history : list event) : Prop :=
  match p with
  | AtEntry _ | AtLoad _ | AtCas _ _ => history = []
  | AtLock b | AtReset b => history = [EvCasSuccess b]
  | AtUnlock b => history = [EvCasSuccess b; EvReset b]
  | Returned => history = [] \/ exists b, history = [EvCasSuccess b; EvReset b]
  end.

(** The progress of the one rotation that threads with the same target
    [b] can make from the state [t]: nobody has swapped yet, or thread
    [winner] has and is at the given point of its reset. *)
Inductive stage : Type :=
| NobodyYet
| Winner (winner : nat) (point : pc).

Definition stage_shared (b : Z) (t : Tracker) (st : stage) : Tracker :=
  match st with
  | NobodyYet => t
  | Winner _ (AtLock _) => with_mostRecent b t
  | Winner _ (AtReset _) => lock_bucket b (with_mostRecent b t)
  | Winner _ (AtUnlock _) => reset_bucket b (lock_bucket b (with_mostRecent b t))
  | Winner _ _ => reset_bucket b (with_mostRecent b t)
  end.

Definition stage_events (b : Z) (st : stage) : list (nat * event) :=
  match st with
  | NobodyYet => []
  | Winner w (AtLock _) | Winner w (AtReset _) => [(w, EvCasSuccess b)]
  | Winner w _ => [(w, EvCasSuccess b); (w, EvReset b)]
  end.

Definition stage_pc_ok (b : Z) (st : stage) : Prop :=
  match st with
  | NobodyYet => True
  | Winner _ p => p = AtLock b \/ p = AtReset b \/ p = AtUnlock b \/ p = Returned
  end.

(** A thread that is not the winner: it holds the common target, it is at
    the compare-and-swap only with the shared index it read before anybody
    swapped, and it has returned only if no rotation was needed or somebody
    has swapped. *)
Definition bystander_ok (b : Z) (t : Tracker) (st : stage) (p : pc) : Prop :=
  match p with
  | AtEntry tick => targetBucket tick t = b
  | AtLoad b' => b' = b
  | AtCas b' m => b' = b /\ m = mostRecentAccessedBucket_ t /\ on_border b t = false
  | Returned => on_border b t = true \/ st <> NobodyYet
  | _ => False
  end.

Definition thread_ok (b : Z) (t : Tracker) (st : stage) (tid : nat) (p : pc) : Prop :=
  match st with
  | Winner w pw => if decide (tid = w) then p = pw else bystander_ok b t st p
  | NobodyYet => bystander_ok b t st p
  end.

(** The sum of the byte sizes of the backends: the filter bank and every
    sketch. *)
Definition backendBytes (t : Tracker) : Z :=
  bf_getByteSize (filters_ t) + sumZ (cms_getByteSize <$> counts_ t).

(** What [getByteSize] depends on. *)
Definition sizes (t : Tracker) : Z * list Z :=
  (bf_getByteSize (filters_ t), cms_getByteSize <$> counts_ t).

(** No bucket has an estimate other than zero for [hashVal]. *)
Definition zero_for (hashVal : Z) (t : Tracker) : Prop :=
  forall idx v, bucketEstimate t idx hashVal = Some v -> v = 0.

(** The keys of the [recordAccess] calls of a sequence of calls. *)
Definition recordedKeys (calls : list (Z * op)) : list string :=
  omap (fun call : Z * op =>
          match call.2 with
          | OpRecordAccess key | OpRecordAndPopulateAccessFeatures key => Some key
          | _ => None
          end) calls.

(** The sketches and the filter banks a tracker built from [config] can
    hold: those the constructor makes, and what recording and resets make
    of them. *)
Inductive sketch_of (config : Config) : CMS -> Prop :=
| sketch_new :
    sketch_of config (cms_construct (errorMargin config) (cmsErrorCertainity config)
                        (cmsMaxWidth config) (cmsMaxDepth config))
| sketch_increment hashVal c :
    sketch_of config c -> sketch_of config (cms_increment hashVal c)
| sketch_reset c : sketch_of config c -> sketch_of config (cms_reset c).

Inductive filters_of (config : Config) : BF -> Prop :=
| filters_new :
    filters_of config (makeBloomFilter (numBuckets config) (maxNumOpsPerBucket config)
                         (bfFalsePositiveRate config))
| filters_set idx hashVal f :
    filters_of config f -> filters_of config (bf_set idx hashVal f)
| filters_clear idx f : filters_of config f -> filters_of config (bf_clear idx f).

Definition backends_of (config : Config) (t : Tracker) : Prop :=
  Forall (sketch_of config) (counts_ t) /\
  (useCounts config = false -> filters_of config (filters_ t)).

(** Recording [other] changes no estimate of [hashVal] in the backends of
    such a tracker: the two hashes share no counter and no bit there. *)
Definition apart (config : Config) (other hashVal : Z) : Prop :=
  (forall c, sketch_of config c ->
     cms_getCount (cms_increment other c) hashVal = cms_getCount c hashVal) /\
  (forall f idx j, filters_of config f ->
     bf_couldExist (bf_set idx other f) j hashVal = bf_couldExist f j hashVal).

Definition effects (calls : list (Z * op)) (t : Tracker) : Tracker :=
  foldl (fun t call => effect_of call t) t calls.

(** The calls that run the rotation check. *)
Definition checksRotation (o : op) : bool :=
  match o with
  | OpGetRotatedAccessCounts => false
  | _ => true
  end.

(** The calls that run the rotation check come span after span: the first
    of them is not in a span of the last bucket of the ring (where it would
    be taken for a thread on the border of the initial index [0]), and each
    later one is in the span of the one before or in the next.  [cur] is the
    span of the last such call so far, if any. *)
Fixpoint dense (d n : Z) (cur : option Z) (calls : list (Z * op)) : Prop :=
  match calls with
  | [] => True
  | (tick, o) :: rest =>
      if checksRotation o
      then match cur with
           | None => (tick / d + 1) mod n <> 0
           | Some c => tick / d = c \/ tick / d = c + 1
           end /\ dense d n (Some (tick / d)) rest
      else dense d n cur rest
  end.

(** The span of the last call that ran the rotation check, if any. *)
Fixpoint lastSpan (d : Z) (cur : option Z) (calls : list (Z * op)) : option Z :=
  match calls with
  | [] => cur
  | (tick, o) :: rest =>
      if checksRotation o then lastSpan d (Some (tick / d)) rest
      else lastSpan d cur rest
  end.

(** The records made in the spans after span [from], and those of them that
    fall into bucket [j] of a ring of [n] buckets. *)
Definition recordsAfter (d from : Z) (records : list Z) : list Z :=
  filter (fun r => from < r / d) records.

Definition recordsInBucket (d n from j : Z) (records : list Z) : list Z :=
  filter (fun r => from < r / d /\ (r / d) mod n = j) records.

(** The tracker is at span [cur], and each raw counter holds the number of
    records of the last [numBuckets] spans that fell into its bucket. *)
Definition span_invariant (cfg : Config) (t : Tracker) (cur : Z) (records : list Z)
    : Prop :=
  wf t /\ quiescent t /\ config_ t = cfg /\
  mostRecentAccessedBucket_ t = cur mod numBuckets cfg /\
  (forall r, r ∈ records -> r / numTicksPerBucket cfg <= cur) /\
  forall j, 0 <= j < numBuckets cfg ->
    itemCounts_ t !! Z.to_nat j =
    Some (Z.of_nat (length (recordsInBucket (numTicksPerBucket cfg) (numBuckets cfg)
                              (cur - numBuckets cfg) j records))).

(** No call has run the rotation check yet: the shared index and every raw
    counter are as the constructor left them. *)
Definition untouched (cfg : Config) (t : Tracker) : Prop :=
  wf t /\ quiescent t /\ config_ t = cfg /\
  mostRecentAccessedBucket_ t = 0 /\
  forall j, 0 <= j < numBuckets cfg -> itemCounts_ t !! Z.to_nat j = Some 0.

Definition span_state (cfg : Config) (t : Tracker) (cur : option Z)
    (records : list Z) : Prop :=
  match cur with
  | Some c => span_invariant cfg t c records
  | None => untouched cfg t /\ records = []
  end.

(** The records made in the last [window] ticks before [now], [now]
    included. *)
Definition recordsWithin (window now : Z) (records : list Z) : list Z :=
  filter (fun r => now - window < r <= now) records.

End Descriptions.

(** ** Threads inside [recordAccess]

    [recordAccess] cut at its accesses to shared memory: the rotation check
    it starts with (at the points of [pc]), the atomic load of the shared
    index, the acquisition of the lock of that bucket, [updateBucketLocked]
    under the lock, and the release at the end of the scope.  Interleavings
    are sequentially consistent. *)

Section RecordThreads.

Context {CMS BF : Type}.
Context `{!CountMinSketchOps CMS, !BloomFilterOps BF, !SpookyHashV2}.

Local Abbreviation Tracker := (AccessTrackerBase CMS BF).

Inductive record_pc : Type :=
| InCheck (p : pc) (key : string)
| AtLoadIdx (key : string)
| AtLockIdx (idx hashVal : Z)
| AtUpdate (idx hashVal : Z)
| AtUnlockIdx (idx : Z)
| Finished.

(** Where a thread is once the rotation check is at point [p]: past the
    check when it has returned. *)
Definition after_check (p : pc) (key : string) : record_pc :=
  match p with
  | Returned => AtLoadIdx key
  | _ => InCheck p key
  end.

Definition record_step (p : record_pc) (t : Tracker) : result (record_pc * Tracker) :=
  match p with
  | InCheck p key =>
      match thread_step p t with
      | Ok (p', _, t') => Ok (after_check p' key, t')
      | Fault f => Fault f
      end
  | AtLoadIdx key =>
      Ok (AtLockIdx (mostRecentAccessedBucket_ t) (hashOf key), t)
  | AtLockIdx idx hashVal =>
      match index locks_ idx t with
      | Ok (Unlocked, t') =>
          Ok (AtUpdate idx hashVal,
              with_locks (<[Z.to_nat idx := Locked]> (locks_ t')) t')
      | Ok (Locked, t') => Ok (AtLockIdx idx hashVal, t')
      | Fault f => Fault f
      end
  | AtUpdate idx hashVal =>
      match updateBucketLocked idx hashVal t with
      | Ok (_, t') => Ok (AtUnlockIdx idx, t')
      | Fault f => Fault f
      end
  | AtUnlockIdx idx =>
      Ok (Finished, with_locks (<[Z.to_nat idx := Unlocked]> (locks_ t)) t)
  | Finished => Ok (Finished, t)
  end.

(** The shared tracker and the program point of every thread that is in
    [recordAccess]. *)
Record record_system : Type := {
  rshared : Tracker;
  rthreads : list record_pc
}.

Definition record_sys_step (tid : nat) (s : record_system) : result record_system :=
  match rthreads s !! tid with
  | None => Ok s
  | Some p =>
      match record_step p (rshared s) with
      | Ok (p', t') => Ok {| rshared := t'; rthreads := <[tid := p']> (rthreads s) |}
      | Fault f => Fault f
      end
  end.

Fixpoint record_sys_run (schedule : list nat) (s : record_system) : result record_system :=
  match schedule with
  | [] => Ok s
  | tid :: rest =>
      match record_sys_step tid s with
      | Ok s' => record_sys_run rest s'
      | Fault f => Fault f
      end
  end.

(** Threads that enter [recordAccess], one per call, each with the tick the
    ticker shows it. *)
Definition record_threads (calls : list (Z * string)) : list record_pc :=
  (fun call : Z * string => InCheck (AtEntry call.1) call.2) <$> calls.

(** The bucket whose lock a thread holds, if any: between the acquisition
    and the release of a [LockHolder]. *)
Definition held (p : record_pc) : option Z :=
  match p with
  | InCheck (AtReset b) _ | InCheck (AtUnlock b) _ => Some b
  | AtUpdate idx _ | AtUnlockIdx idx => Some idx
  | _ => None
  end.

Definition holding (j : Z) (p : record_pc) : Z :=
  if decide (held p = Some j) then 1 else 0.

Definition lock_value (l : SpinLock) : Z :=
  match l with Locked => 1 | Unlocked => 0 end.

Definition record_pc_in_range (n : Z) (p : record_pc) : Prop :=
  match p with
  | InCheck p _ => pc_in_range n p
  | AtLockIdx idx _ | AtUpdate idx _ | AtUnlockIdx idx => 0 <= idx < n
  | AtLoadIdx _ | Finished => True
  end.

(** Every bucket lock is held by as many threads as its value says: one when
    it is taken, none when it is free. *)
Definition locks_accounted (cfg : Config) (s : record_system) : Prop :=
  wf (rshared s) /\ config_ (rshared s) = cfg /\
  (forall tid p, rthreads s !! tid = Some p -> record_pc_in_range (numBuckets cfg) p) /\
  forall j, 0 <= j < numBuckets cfg ->
    exists l, locks_ (rshared s) !! Z.to_nat j = Some l /\
              sumZ (holding j <$> rthreads s) = lock_value l.

(** A thread has made its record once [updateBucketLocked] has run. *)
Definition recorded (p : record_pc) : Z :=
  match p with
  | AtUnlockIdx _ | Finished => 1
  | _ => 0
  end.

(** A thread whose tick is on the border of the shared index of [t]: it is
    never at the compare-and-swap or at the reset, and it records in the
    bucket the shared index of [t] names. *)
Definition calm (t : Tracker) (p : record_pc) : Prop :=
  match p with
  | InCheck (AtEntry tick) _ => on_border (targetBucket tick t) t = true
  | InCheck (AtLoad b) _ => on_border b t = true
  | InCheck _ _ => False
  | AtLoadIdx _ | Finished => True
  | AtLockIdx idx _ | AtUpdate idx _ | AtUnlockIdx idx =>
      idx = mostRecentAccessedBucket_ t
  end.

(** No rotation is under way, and the raw counter of the bucket of the
    shared index has been incremented once by every thread that has made its
    record; [old] is what it held before. *)
Definition all_counted (t : Tracker) (old : Z) (s : record_system) : Prop :=
  locks_accounted (config_ t) s /\
  mostRecentAccessedBucket_ (rshared s) = mostRecentAccessedBucket_ t /\
  (forall tid p, rthreads s !! tid = Some p -> calm t p) /\
  itemCounts_ (rshared s) =
    <[Z.to_nat (mostRecentAccessedBucket_ t) :=
        wrap64 (old + sumZ (recorded <$> rthreads s))]> (itemCounts_ t).

End RecordThreads.

Arguments record_system : clear implicits.

(** ** Model backends

    Small executable backends for running the tracker on concrete inputs. *)

Module Model.

(** Modelled from the spec: the frequency-estimating sketch of section 4.2,
    whose source is not part of this header.  It is a count-min sketch with a
    single row of [sk_width] counters, the counter of a hash being the one at
    its remainder: it never under-estimates and over-estimates when two
    hashes share a counter. *)
Record Sketch : Type := { sk_width : Z; sk_cells : Z -> N }.

Definition sk_slot (s : Sketch) (hashVal : Z) : Z := hashVal mod sk_width s.

#[export] Instance sketch_ops : CountMinSketchOps Sketch := {|
  cms_construct _ _ maxWidth _ :=
    {| sk_width := Z.max 1 maxWidth; sk_cells := fun _ => 0%N |};
  cms_increment hashVal s :=
    {| sk_width := sk_width s;
       sk_cells := fun k => if k =? sk_slot s hashVal
                            then N.succ (sk_cells s k) else sk_cells s k |};
  cms_getCount s hashVal := Z.of_N (sk_cells s (sk_slot s hashVal));
  cms_reset s := {| sk_width := sk_width s; sk_cells := fun _ => 0%N |};
  cms_getByteSize s := 4 * Z.max 1 (sk_width s)
|}.

(** Modelled from the spec: the set-membership filter of section 4.2, whose
    source is not part of this header.  One array of [bl_width] bits per
    bucket and one bit per element, at the remainder of its hash: no false
    negatives, a false positive when two hashes share a bit. *)
Record Bloom : Type := {
  bl_numFilters : Z;
  bl_width : Z;
  bl_bits : Z -> Z -> bool
}.

Definition bl_slot (b : Bloom) (hashVal : Z) : Z := hashVal mod bl_width b.

#[export] Instance bloom_ops : BloomFilterOps Bloom := {|
  bf_default := {| bl_numFilters := 0; bl_width := 1; bl_bits := fun _ _ => false |};
  makeBloomFilter numFilters elementCount _ :=
    {| bl_numFilters := Z.max 0 numFilters; bl_width := Z.max 1 elementCount;
       bl_bits := fun _ _ => false |};
  bf_set idx hashVal b :=
    {| bl_numFilters := bl_numFilters b; bl_width := bl_width b;
       bl_bits := fun i k => if (i =? idx) && (k =? bl_slot b hashVal)
                             then true else bl_bits b i k |};
  bf_couldExist b idx hashVal := bl_bits b idx (bl_slot b hashVal);
  bf_clear idx b :=
    {| bl_numFilters := bl_numFilters b; bl_width := bl_width b;
       bl_bits := fun i k => if i =? idx then false else bl_bits b i k |};
  bf_getByteSize b := Z.max 0 (bl_numFilters b) * Z.max 1 (bl_width b);
  bf_moved_from _ :=
    {| bl_numFilters := 0; bl_width := 1; bl_bits := fun _ _ => false |}
|}.

(** Modelled from the spec: the key-hashing function, whose source is not
    part of this header; a polynomial hash on 64 bits stands in for it. *)
Fixpoint poly_hash (key : string) (acc : Z) : Z :=
  match key with
  | EmptyString => acc
  | String a rest => poly_hash rest (wrap64 (acc * 31 + Z.of_N (Ascii.N_of_ascii a)))
  end.

#[export] Instance hash_model : SpookyHashV2 := fun key seed => poly_hash key seed.

Definition Tracker : Type := AccessTrackerBase Sketch Bloom.

(** A configuration with [n] buckets of [ticks] ticks, sketches of [width]
    counters. *)
Definition config (n ticks width : Z) (counts : bool) : Config := {|
  numBuckets := n;
  numTicksPerBucket := ticks;
  useCounts := counts;
  maxNumOpsPerBucket := width;
  cmsMaxErrorValue := 1;
  cmsErrorCertainity := (99 # 100)%Q;
  cmsMaxWidth := width;
  cmsMaxDepth := 1;
  bfFalsePositiveRate := (2 # 100)%Q
|}.

Definition fresh (n ticks width : Z) (counts : bool) : Tracker :=
  AccessTrackerBase_ctor (config n ticks width counts).

(** The defaults of [Config] with three buckets of one tick and sketches
    limited to one counter a row ([cmsMaxWidth = 1]). *)
Definition one_counter_config : Config := {|
  numBuckets := 3;
  numTicksPerBucket := 1;
  useCounts := true;
  maxNumOpsPerBucket := 1000000;
  cmsMaxErrorValue := 1;
  cmsErrorCertainity := (99 # 100)%Q;
  cmsMaxWidth := 1;
  cmsMaxDepth := 8;
  bfFalsePositiveRate := (2 # 100)%Q
|}.

(** The state after a sequence of calls, when none faults. *)
Definition after (calls : list (Z * op)) (t : Tracker) : option Tracker :=
  match run calls t with
  | Ok (_, t') => Some t'
  | Fault _ => None
  end.

(** The value a call returns, when it does not fault. *)
Definition value {A} (r : result (A * Tracker)) : option A :=
  match r with
  | Ok (a, _) => Some a
  | Fault _ => None
  end.

End Model.

(** * Properties *)

Section Properties.

Context {CMS BF : Type}.
Context `{!CountMinSketchOps CMS, !BloomFilterOps BF, !SpookyHashV2}.

Local Abbreviation Tracker := (AccessTrackerBase CMS BF).
Implicit Types t : Tracker.

Local Ltac unfold_monad :=
  unfold bind, ret, gets, modify, raise, index, at_ in *.

(** ** Arithmetic of the ring *)

Lemma wrap64_small z : 0 <= z < 2 ^ 64 -> wrap64 z = z.
Proof. intros Hz. unfold wrap64. apply Z.mod_small. exact Hz. Qed.

Lemma ring_index_no_wrap n start i :
  1 <= n <= 2 ^ 63 -> 0 <= start < n -> 0 <= i < n ->
  wrap64 (wrap64 (start + n) - i) = start + n - i.
Proof.
  intros Hn Hs Hi.
  assert (H63 : 2 ^ 64 = 2 * 2 ^ 63) by reflexivity.
  rewrite (wrap64_small (start + n)) by lia.
  apply wrap64_small. lia.
Qed.

Lemma succ_no_wrap n b : 1 <= n < 2 ^ 64 -> 0 <= b < n -> wrap64 (b + 1) = b + 1.
Proof. intros Hn Hb. apply wrap64_small. lia. Qed.

Lemma targetBucket_range currentTick t :
  1 <= numBuckets (config_ t) ->
  0 <= targetBucket currentTick t < numBuckets (config_ t).
Proof. intros Hn. unfold targetBucket. apply Z.mod_pos_bound. lia. Qed.

Lemma ringIndex_range start i t :
  1 <= numBuckets (config_ t) -> 0 <= ringIndex start i t < numBuckets (config_ t).
Proof. intros Hn. unfold ringIndex. apply Z.mod_pos_bound. lia. Qed.

Lemma ringIndex_no_wrap start i t :
  1 <= numBuckets (config_ t) -> ring_fits t ->
  0 <= start < numBuckets (config_ t) -> 0 <= i < numBuckets (config_ t) ->
  ringIndex start i t =
  (start + numBuckets (config_ t) - i) mod numBuckets (config_ t).
Proof.
  intros Hn Hf Hs Hi. unfold ringIndex.
  by rewrite (ring_index_no_wrap (numBuckets (config_ t))).
Qed.

(** ** Lists as vectors *)

Lemma insert_as_alter {A} (f : A -> A) (l : list A) (i : nat) (x : A) :
  l !! i = Some x -> <[i := f x]> l = alter f i l.
Proof.
  revert i. induction l as [|y l IH]; intros [|i] Hl; simpl in *; try done.
  - by inversion Hl.
  - f_equal. by apply IH.
Qed.

Lemma lookup_in_range {A} (l : list A) (n idx : Z) :
  Z.of_nat (length l) = n -> 0 <= idx < n -> is_Some (l !! Z.to_nat idx).
Proof. intros Hl Hi. apply lookup_lt_is_Some. lia. Qed.

(** ** The index computation *)

Lemma rotatedIdx_ok bucket t :
  numBuckets (config_ t) <> 0 ->
  rotatedIdx bucket t = Ok (bucket mod numBuckets (config_ t), t).
Proof.
  intros Hn. unfold rotatedIdx. unfold_monad.
  destruct (numBuckets (config_ t) =? 0) eqn:E; [lia | done].
Qed.

Lemma rotatedIdx_zero bucket t :
  numBuckets (config_ t) = 0 -> rotatedIdx bucket t = Fault DivideByZero.
Proof. intros Hn. unfold rotatedIdx. unfold_monad. by rewrite Hn. Qed.

Lemma getCurrentBucketIndex_ok currentTick t :
  config_ticker t = SomeTicker ->
  numBuckets (config_ t) <> 0 -> numTicksPerBucket (config_ t) <> 0 ->
  getCurrentBucketIndex currentTick t = Ok (targetBucket currentTick t, t).
Proof.
  intros Htk Hn Hd. unfold getCurrentBucketIndex. unfold_monad. rewrite Htk.
  destruct (numTicksPerBucket (config_ t) =? 0) eqn:E; [lia |].
  by rewrite rotatedIdx_ok.
Qed.

Lemma getCurrentBucketIndex_zero currentTick t :
  config_ticker t = SomeTicker ->
  numBuckets (config_ t) = 0 \/ numTicksPerBucket (config_ t) = 0 ->
  getCurrentBucketIndex currentTick t = Fault DivideByZero.
Proof.
  intros Htk Hz. unfold getCurrentBucketIndex. unfold_monad. rewrite Htk.
  destruct (numTicksPerBucket (config_ t) =? 0) eqn:E; [done |].
  apply rotatedIdx_zero. lia.
Qed.

(** ** Locks *)

Lemma LockHolder_run {A} idx (body : M CMS BF A) t :
  locks_ t !! Z.to_nat idx = Some Unlocked ->
  LockHolder idx body t =
  match body (lock_bucket idx t) with
  | Ok (a, t') => Ok (a, unlock_bucket idx t')
  | Fault f => Fault f
  end.
Proof.
  intros Hl. unfold LockHolder. unfold_monad. rewrite Hl.
  fold (lock_bucket idx t).
  destruct (body (lock_bucket idx t)) as [[a t']|f]; done.
Qed.

Lemma unlock_lock idx t :
  locks_ t !! Z.to_nat idx = Some Unlocked -> unlock_bucket idx (lock_bucket idx t) = t.
Proof.
  intros Hl. destruct t. unfold unlock_bucket, lock_bucket, with_locks; simpl in *.
  f_equal. rewrite list_insert_insert_eq. by apply list_insert_id.
Qed.

Lemma quiescent_lookup idx n t :
  quiescent t -> Z.of_nat (length (locks_ t)) = n -> 0 <= idx < n ->
  locks_ t !! Z.to_nat idx = Some Unlocked.
Proof.
  intros Hq Hl Hi.
  destruct (lookup_in_range (locks_ t) n idx Hl Hi) as [l El].
  by rewrite El, (Hq _ _ El).
Qed.

(** ** Reset and update of one bucket *)

Lemma resetBucketLocked_ok idx t :
  0 <= idx < numBuckets (config_ t) ->
  Z.of_nat (length (itemCounts_ t)) = numBuckets (config_ t) ->
  (useCounts (config_ t) = true ->
   Z.of_nat (length (counts_ t)) = numBuckets (config_ t)) ->
  resetBucketLocked idx t = Ok (tt, reset_bucket idx t).
Proof.
  intros Hi Hic Hc. unfold resetBucketLocked, reset_bucket. unfold_monad.
  destruct (lookup_in_range _ _ idx Hic Hi) as [v Ev].
  destruct (useCounts (config_ t)) eqn:Euc.
  - destruct (lookup_in_range _ _ idx (Hc eq_refl) Hi) as [c Ec].
    rewrite Ec. simpl. rewrite Ev.
    by rewrite (insert_as_alter cms_reset _ _ _ Ec).
  - simpl. by rewrite Ev.
Qed.

Lemma updateBucketLocked_ok idx hashVal t :
  0 <= idx < numBuckets (config_ t) ->
  Z.of_nat (length (itemCounts_ t)) = numBuckets (config_ t) ->
  (useCounts (config_ t) = true ->
   Z.of_nat (length (counts_ t)) = numBuckets (config_ t)) ->
  updateBucketLocked idx hashVal t = Ok (tt, bump_bucket idx hashVal t).
Proof.
  intros Hi Hic Hc. unfold updateBucketLocked, bump_bucket. unfold_monad.
  destruct (lookup_in_range _ _ idx Hic Hi) as [v Ev].
  destruct (useCounts (config_ t)) eqn:Euc.
  - destruct (lookup_in_range _ _ idx (Hc eq_refl) Hi) as [c Ec].
    rewrite Ec. simpl. rewrite Ev.
    rewrite (insert_as_alter (cms_increment hashVal) _ _ _ Ec). simpl.
    by rewrite (insert_as_alter (fun v => wrap64 (v + 1)) _ _ _ Ev).
  - simpl. rewrite Ev. simpl.
    by rewrite (insert_as_alter (fun v => wrap64 (v + 1)) _ _ _ Ev).
Qed.

Lemma getBucketAccessCountLocked_ok idx hashVal t :
  0 <= idx < numBuckets (config_ t) ->
  (useCounts (config_ t) = true ->
   Z.of_nat (length (counts_ t)) = numBuckets (config_ t)) ->
  exists v, bucketEstimate t idx hashVal = Some v /\
            getBucketAccessCountLocked idx hashVal t = Ok (v, t).
Proof.
  intros Hi Hc. unfold getBucketAccessCountLocked, bucketEstimate. unfold_monad.
  destruct (useCounts (config_ t)) eqn:Euc.
  - destruct (lookup_in_range _ _ idx (Hc eq_refl) Hi) as [c Ec].
    rewrite Ec. simpl. eauto.
  - eauto.
Qed.

(** ** The rotation check, one thread at a time *)

Lemma unlock_reset_lock idx j t :
  locks_ t !! Z.to_nat idx = Some Unlocked ->
  unlock_bucket idx (reset_bucket j (lock_bucket idx t)) = reset_bucket j t.
Proof.
  intros Hl. destruct t as [cfg tk mr f c l ic].
  unfold unlock_bucket, reset_bucket, lock_bucket, with_locks, with_itemCounts,
    with_counts, with_filters; simpl in *.
  destruct (useCounts cfg); simpl;
    (f_equal; rewrite list_insert_insert_eq; by apply list_insert_id).
Qed.

Lemma unlock_bump_lock idx j hashVal t :
  locks_ t !! Z.to_nat idx = Some Unlocked ->
  unlock_bucket idx (bump_bucket j hashVal (lock_bucket idx t)) = bump_bucket j hashVal t.
Proof.
  intros Hl. destruct t as [cfg tk mr f c l ic].
  unfold unlock_bucket, bump_bucket, lock_bucket, with_locks, with_itemCounts,
    with_counts, with_filters; simpl in *.
  destruct (useCounts cfg); simpl;
    (f_equal; rewrite list_insert_insert_eq; by apply list_insert_id).
Qed.

Lemma wf_with_mostRecent b t :
  wf t -> 0 <= b < numBuckets (config_ t) -> wf (with_mostRecent b t).
Proof. intros [] Hb. by constructor. Qed.

Lemma wf_reset_bucket idx t : wf t -> wf (reset_bucket idx t).
Proof.
  intros []. unfold reset_bucket.
  destruct (useCounts (config_ t)) eqn:E; constructor; simpl;
    rewrite ?E, ?length_insert, ?length_alter; auto; congruence.
Qed.

Lemma wf_bump_bucket idx hashVal t : wf t -> wf (bump_bucket idx hashVal t).
Proof.
  intros []. unfold bump_bucket.
  destruct (useCounts (config_ t)) eqn:E; constructor; simpl;
    rewrite ?E, ?length_insert, ?length_alter; auto; congruence.
Qed.

Lemma quiescent_reset_bucket idx t : quiescent t -> quiescent (reset_bucket idx t).
Proof. unfold quiescent, reset_bucket. by destruct (useCounts (config_ t)). Qed.

Lemma quiescent_bump_bucket idx hashVal t :
  quiescent t -> quiescent (bump_bucket idx hashVal t).
Proof. unfold quiescent, bump_bucket. by destruct (useCounts (config_ t)). Qed.

Lemma wf_rotate currentTick t : wf t -> wf (rotate currentTick t).
Proof.
  intros Hwf. unfold rotate. destruct (on_border _ t); [done |].
  apply wf_reset_bucket, wf_with_mostRecent; [done |].
  apply targetBucket_range. by destruct Hwf as [[? ?]].
Qed.

Lemma quiescent_rotate currentTick t : quiescent t -> quiescent (rotate currentTick t).
Proof.
  intros Hq. unfold rotate. destruct (on_border _ t); [done |].
  by apply quiescent_reset_bucket.
Qed.

Lemma config_rotate currentTick t : config_ (rotate currentTick t) = config_ t.
Proof.
  unfold rotate. destruct (on_border _ t); [done |].
  unfold reset_bucket. by destruct (useCounts _).
Qed.

Lemma updateMostRecentAccessedBucket_loop_ok fuel b t :
  wf t -> quiescent t -> 0 <= b < numBuckets (config_ t) ->
  updateMostRecentAccessedBucket_loop (S fuel) b t =
  Ok (tt, if on_border b t then t else reset_bucket b (with_mostRecent b t)).
Proof.
  intros Hwf Hq Hb. destruct Hwf as [Hn Hd Hmr Hl Hic Hc Htk].
  unfold on_border. simpl. unfold_monad.
  destruct (b =? mostRecentAccessedBucket_ t) eqn:E1; [done |].
  rewrite rotatedIdx_ok by lia.
  rewrite (succ_no_wrap _ _ Hn Hb). simpl.
  destruct ((b + 1) mod numBuckets (config_ t) =? mostRecentAccessedBucket_ t)
    eqn:E2; [done |].
  unfold compare_exchange_strong. rewrite Z.eqb_refl.
  assert (Hlk : locks_ (with_mostRecent b t) !! Z.to_nat b = Some Unlocked)
    by (by apply (quiescent_lookup b (numBuckets (config_ t)))).
  rewrite (LockHolder_run _ _ _ Hlk).
  rewrite resetBucketLocked_ok by done.
  by rewrite unlock_reset_lock.
Qed.

(** A sequential call never comes back to the top of the loop: any fuel
    above zero gives the result of one turn. *)
Lemma updateMostRecentAccessedBucket_loop_fuel fuel b t :
  updateMostRecentAccessedBucket_loop (S fuel) b t =
  updateMostRecentAccessedBucket_loop 1 b t.
Proof.
  simpl. unfold_monad.
  destruct (b =? mostRecentAccessedBucket_ t) eqn:E1; [done |].
  destruct (rotatedIdx (wrap64 (b + 1)) t) as [[next t']|f] eqn:Er; [| done].
  assert (t' = t) as ->.
  { unfold rotatedIdx in Er. unfold_monad.
    destruct (numBuckets (config_ t) =? 0); by inversion Er. }
  destruct (next =? mostRecentAccessedBucket_ t) eqn:E2; [done |].
  unfold compare_exchange_strong. by rewrite Z.eqb_refl.
Qed.

Lemma updateMostRecentAccessedBucket_ok currentTick t :
  wf t -> quiescent t ->
  updateMostRecentAccessedBucket currentTick t = Ok (tt, rotate currentTick t).
Proof.
  intros Hwf Hq. pose proof Hwf as [Hn Hd Hmr Hl Hic Hc Htk].
  unfold updateMostRecentAccessedBucket. unfold_monad.
  rewrite getCurrentBucketIndex_ok by first [done | lia].
  rewrite updateMostRecentAccessedBucket_loop_ok; try done.
  apply targetBucket_range. lia.
Qed.

(** ** The most-recent-first traversals *)

Lemma LockHolder_read {A} idx (body : M CMS BF A) (v : A) t :
  locks_ t !! Z.to_nat idx = Some Unlocked ->
  body (lock_bucket idx t) = Ok (v, lock_bucket idx t) ->
  LockHolder idx body t = Ok (v, t).
Proof.
  intros Hl Hb. rewrite (LockHolder_run _ _ _ Hl), Hb. by rewrite unlock_lock.
Qed.

Lemma getAccesses_loop_ok hashVal start t :
  wf t -> quiescent t ->
  forall (todo : nat) (i : Z) (features : list Z),
    0 <= i -> i + Z.of_nat todo = numBuckets (config_ t) ->
    Z.of_nat (length features) = numBuckets (config_ t) ->
    exists result,
      getAccesses_loop todo i start hashVal features t = Ok (result, t) /\
      Z.of_nat (length result) = numBuckets (config_ t) /\
      (forall k : nat, Z.of_nat k < i -> result !! k = features !! k) /\
      (forall k : nat, i <= Z.of_nat k < numBuckets (config_ t) ->
         result !! k = bucketEstimate t (ringIndex start (Z.of_nat k) t) hashVal).
Proof.
  intros Hwf Hq. pose proof Hwf as [Hn Hd Hmr Hl Hic Hc Htk].
  induction todo as [|todo IH]; intros i features Hi Hsum Hlen.
  - exists features. simpl. unfold_monad. repeat split; try done. intros k Hk. lia.
  - simpl. unfold_monad.
    rewrite rotatedIdx_ok by lia.
    fold (ringIndex start i t).
    pose proof (ringIndex_range start i t ltac:(lia)) as Hr.
    destruct (getBucketAccessCountLocked_ok (ringIndex start i t) hashVal
                (lock_bucket (ringIndex start i t) t) Hr Hc) as (v & Hv & Hrun).
    rewrite (LockHolder_read _ _ v); [| by eapply quiescent_lookup | done].
    destruct (IH (i + 1) (<[Z.to_nat i := v]> features)) as (result & Hres & Hlr & Hlow & Hhigh);
      [lia | lia | by rewrite length_insert |].
    exists result. repeat split; try done.
    + intros k Hk. rewrite Hlow by lia. apply list_lookup_insert_ne. lia.
    + intros k Hk. destruct (decide (Z.of_nat k = i)) as [<- | Hne].
      * rewrite Hlow by lia. rewrite Nat2Z.id.
        rewrite list_lookup_insert_eq by lia. by rewrite <- Hv.
      * apply Hhigh. lia.
Qed.

Lemma getRotatedAccessCounts_loop_ok start t :
  wf t -> quiescent t ->
  forall (todo : nat) (i : Z) (counts : list Z),
    0 <= i -> i + Z.of_nat todo = numBuckets (config_ t) ->
    Z.of_nat (length counts) = numBuckets (config_ t) ->
    exists result,
      getRotatedAccessCounts_loop todo i start counts t = Ok (result, t) /\
      Z.of_nat (length result) = numBuckets (config_ t) /\
      (forall k : nat, Z.of_nat k < i -> result !! k = counts !! k) /\
      (forall k : nat, i <= Z.of_nat k < numBuckets (config_ t) ->
         result !! k = itemCounts_ t !! Z.to_nat (ringIndex start (Z.of_nat k) t)).
Proof.
  intros Hwf Hq. pose proof Hwf as [Hn Hd Hmr Hl Hic Hc Htk].
  induction todo as [|todo IH]; intros i counts Hi Hsum Hlen.
  - exists counts. simpl. unfold_monad. repeat split; try done. intros k Hk. lia.
  - simpl. unfold_monad.
    rewrite rotatedIdx_ok by lia.
    fold (ringIndex start i t).
    pose proof (ringIndex_range start i t ltac:(lia)) as Hr.
    destruct (lookup_in_range _ _ _ Hic Hr) as [v Ev].
    rewrite (LockHolder_read _ _ v); [| by eapply quiescent_lookup |].
    2: { unfold index. simpl. by rewrite Ev. }
    destruct (IH (i + 1) (<[Z.to_nat i := v]> counts)) as (result & Hres & Hlr & Hlow & Hhigh);
      [lia | lia | by rewrite length_insert |].
    exists result. repeat split; try done.
    + intros k Hk. rewrite Hlow by lia. apply list_lookup_insert_ne. lia.
    + intros k Hk. destruct (decide (Z.of_nat k = i)) as [<- | Hne].
      * rewrite Hlow by lia. rewrite Nat2Z.id.
        rewrite list_lookup_insert_eq by lia. by rewrite Ev.
      * apply Hhigh. lia.
Qed.

Lemma getAccesses_ok currentTick key t :
  wf t -> quiescent t ->
  exists features,
    getAccesses currentTick key t = Ok (features, rotate currentTick t) /\
    Z.of_nat (length features) = numBuckets (config_ t) /\
    forall k : nat, Z.of_nat k < numBuckets (config_ t) ->
      features !! k =
      bucketEstimate (rotate currentTick t)
        (ringIndex (mostRecentAccessedBucket_ (rotate currentTick t)) (Z.of_nat k)
           (rotate currentTick t))
        (hashOf key).
Proof.
  intros Hwf Hq.
  pose proof (wf_rotate currentTick t Hwf) as Hwf'.
  pose proof (quiescent_rotate currentTick t Hq) as Hq'.
  pose proof Hwf' as [Hn Hd Hmr Hl Hic Hc Htk].
  unfold getAccesses. unfold_monad.
  rewrite updateMostRecentAccessedBucket_ok by done.
  destruct (getAccesses_loop_ok (hashOf key)
              (mostRecentAccessedBucket_ (rotate currentTick t)) _ Hwf' Hq'
              (Z.to_nat (numBuckets (config_ (rotate currentTick t)))) 0
              (replicate (Z.to_nat (numBuckets (config_ (rotate currentTick t)))) 0))
    as (features & Hrun & Hlen & _ & Hpos); [lia | lia | rewrite length_replicate; lia |].
  exists features. rewrite Hrun. rewrite <- (config_rotate currentTick t).
  repeat split; [done |]. intros k Hk. apply Hpos. lia.
Qed.

Lemma getRotatedAccessCounts_ok currentTick t :
  wf t -> quiescent t ->
  exists counts,
    getRotatedAccessCounts currentTick t = Ok (counts, t) /\
    Z.of_nat (length counts) = numBuckets (config_ t) /\
    forall k : nat, Z.of_nat k < numBuckets (config_ t) ->
      counts !! k =
      itemCounts_ t !! Z.to_nat (ringIndex (targetBucket currentTick t) (Z.of_nat k) t).
Proof.
  intros Hwf Hq. pose proof Hwf as [Hn Hd Hmr Hl Hic Hc Htk].
  unfold getRotatedAccessCounts. unfold_monad.
  rewrite getCurrentBucketIndex_ok by first [done | lia].
  destruct (getRotatedAccessCounts_loop_ok (targetBucket currentTick t) t Hwf Hq
              (Z.to_nat (numBuckets (config_ t))) 0
              (replicate (Z.to_nat (numBuckets (config_ t))) 0))
    as (counts & Hrun & Hlen & _ & Hpos); [lia | lia | rewrite length_replicate; lia |].
  exists counts. rewrite Hrun. repeat split; [done |].
  intros k Hk. apply Hpos. lia.
Qed.

Lemma recordAccess_ok currentTick key t :
  wf t -> quiescent t ->
  recordAccess currentTick key t =
  Ok (tt, bump_bucket (mostRecentAccessedBucket_ (rotate currentTick t)) (hashOf key)
            (rotate currentTick t)).
Proof.
  intros Hwf Hq.
  pose proof (wf_rotate currentTick t Hwf) as Hwf'.
  pose proof (quiescent_rotate currentTick t Hq) as Hq'.
  pose proof Hwf' as [Hn Hd Hmr Hl Hic Hc Htk].
  unfold recordAccess. unfold_monad.
  rewrite updateMostRecentAccessedBucket_ok by done.
  rewrite LockHolder_run by (by eapply quiescent_lookup).
  rewrite updateBucketLocked_ok by done.
  rewrite unlock_bump_lock; [done |]. by eapply quiescent_lookup.
Qed.

Lemma recordAndPopulateAccessFeatures_ok tick1 tick2 key t :
  wf t -> quiescent t ->
  exists features,
    getAccesses tick1 key t = Ok (features, rotate tick1 t) /\
    recordAccess tick2 key (rotate tick1 t) =
      Ok (tt, effect_of (tick2, OpRecordAccess key) (rotate tick1 t)) /\
    recordAndPopulateAccessFeatures tick1 tick2 key t =
      Ok (features, effect_of (tick2, OpRecordAccess key) (rotate tick1 t)).
Proof.
  intros Hwf Hq.
  destruct (getAccesses_ok tick1 key t Hwf Hq) as (features & Hget & _).
  pose proof (recordAccess_ok tick2 key (rotate tick1 t)
                (wf_rotate _ _ Hwf) (quiescent_rotate _ _ Hq)) as Hrec.
  exists features. repeat split; try done.
  unfold recordAndPopulateAccessFeatures. unfold_monad.
  by rewrite Hget, Hrec.
Qed.

(** ** Construction and sequences of calls *)

Lemma wf_ctor config : wf_config config -> wf (AccessTrackerBase_ctor config).
Proof.
  intros [Hn Hd]. constructor; simpl; try done; try lia.
  - rewrite length_replicate. lia.
  - rewrite length_replicate. lia.
  - intros ->. rewrite length_replicate. lia.
Qed.

Lemma quiescent_ctor config : quiescent (AccessTrackerBase_ctor config).
Proof. intros i l Hl. simpl in Hl. by apply lookup_replicate in Hl as [-> _]. Qed.

Lemma config_bump_bucket idx hashVal t : config_ (bump_bucket idx hashVal t) = config_ t.
Proof. unfold bump_bucket. by destruct (useCounts _). Qed.

Lemma wf_effect_of call t : wf t -> wf (effect_of call t).
Proof.
  intros Hwf. destruct call as [tick [key|key|key|]]; simpl;
    auto using wf_rotate, wf_bump_bucket.
Qed.

Lemma quiescent_effect_of call t : quiescent t -> quiescent (effect_of call t).
Proof.
  intros Hq. destruct call as [tick [key|key|key|]]; simpl;
    auto using quiescent_rotate, quiescent_bump_bucket.
Qed.

Lemma config_effect_of call t : config_ (effect_of call t) = config_ t.
Proof.
  destruct call as [tick [key|key|key|]]; unfold effect_of;
    by rewrite ?config_bump_bucket, ?config_rotate.
Qed.

Lemma run_op_ok call t :
  wf t -> quiescent t -> run_op call t = Ok (tt, effect_of call t).
Proof.
  intros Hwf Hq. destruct call as [tick [key|key|key|]]; simpl.
  - by apply recordAccess_ok.
  - destruct (getAccesses_ok tick key t Hwf Hq) as (features & Hget & _).
    unfold_monad. by rewrite Hget.
  - destruct (recordAndPopulateAccessFeatures_ok tick tick key t Hwf Hq)
      as (features & Hget & _ & Hrun).
    unfold_monad. by rewrite Hrun.
  - destruct (getRotatedAccessCounts_ok tick t Hwf Hq) as (counts & Hrun & _).
    unfold_monad. by rewrite Hrun.
Qed.

Lemma run_ok calls : forall t,
  wf t -> quiescent t ->
  run calls t = Ok (tt, effects calls t) /\ wf (effects calls t) /\
  quiescent (effects calls t) /\ config_ (effects calls t) = config_ t.
Proof.
  induction calls as [|call calls IH]; intros t Hwf Hq; [done |].
  simpl. unfold bind. rewrite run_op_ok by done.
  destruct (IH (effect_of call t)) as (Hrun & Hwf' & Hq' & Hcfg);
    [by apply wf_effect_of | by apply quiescent_effect_of |].
  unfold effects in *. simpl. by rewrite Hcfg, config_effect_of.
Qed.

(** ** Raw counts are read without writing *)

Lemma getRotatedAccessCounts_loop_pure start : forall todo i counts t r t',
  getRotatedAccessCounts_loop todo i start counts t = Ok (r, t') -> t' = t.
Proof.
  induction todo as [|todo IH]; intros i counts t r t' Hrun; simpl in Hrun; unfold_monad.
  - by inversion Hrun.
  - destruct (rotatedIdx _ t) as [[idx t1]|f] eqn:Er; [| done].
    assert (t1 = t) as ->.
    { unfold rotatedIdx in Er. unfold_monad.
      destruct (numBuckets (config_ t) =? 0); by inversion Er. }
    unfold LockHolder in Hrun. unfold_monad.
    destruct (locks_ t !! Z.to_nat idx) as [[|]|] eqn:El; try done.
    simpl in Hrun.
    destruct (itemCounts_ t !! Z.to_nat idx) as [v|] eqn:Ev; [| done].
    fold (lock_bucket idx t) in Hrun. fold (unlock_bucket idx (lock_bucket idx t)) in Hrun.
    rewrite unlock_lock in Hrun by done. by apply IH in Hrun.
Qed.

Lemma getRotatedAccessCounts_pure currentTick t r t' :
  getRotatedAccessCounts currentTick t = Ok (r, t') -> t' = t.
Proof.
  unfold getRotatedAccessCounts. unfold_monad. intros Hrun.
  destruct (getCurrentBucketIndex currentTick t) as [[b t1]|f] eqn:Eb; [| done].
  assert (t1 = t) as ->.
  { unfold getCurrentBucketIndex, rotatedIdx in Eb. unfold_monad.
    destruct (config_ticker t); [done |].
    destruct (numTicksPerBucket (config_ t) =? 0); [done |].
    destruct (numBuckets (config_ t) =? 0); by inversion Eb. }
  by apply getRotatedAccessCounts_loop_pure in Hrun.
Qed.

(** * The claims *)

(** C2. For every key and every well-formed tracker, [getAccesses] returns a
    vector of exactly [numBuckets] entries, and entry [i] is the estimate for
    the key's hash read from bucket [(mostRecent + numBuckets - i) mod
    numBuckets], where [mostRecent] is the shared index after the rotation
    check the call starts with: most recent bucket first, then backwards. *)
Theorem getAccesses_most_recent_first currentTick key t :
  wf t -> quiescent t -> ring_fits t ->
  exists features t',
    getAccesses currentTick key t = Ok (features, t') /\
    updateMostRecentAccessedBucket currentTick t = Ok (tt, t') /\
    Z.of_nat (length features) = numBuckets (config_ t) /\
    forall i : nat, Z.of_nat i < numBuckets (config_ t) ->
      exists v,
        features !! i = Some v /\
        bucketEstimate t'
          ((mostRecentAccessedBucket_ t' + numBuckets (config_ t) - Z.of_nat i)
             mod numBuckets (config_ t))
          (hashOf key) = Some v.
Proof.
  intros Hwf Hq Hfit.
  destruct (getAccesses_ok currentTick key t Hwf Hq) as (features & Hrun & Hlen & Hpos).
  pose proof (wf_rotate currentTick t Hwf) as [Hn _ Hmr _ _ _ _].
  exists features, (rotate currentTick t).
  split; [done |]. split; [by apply updateMostRecentAccessedBucket_ok |].
  split; [done |]. intros i Hi.
  destruct (lookup_lt_is_Some_2 features i ltac:(lia)) as [v Hv].
  exists v. split; [done |].
  rewrite <- Hv, (Hpos i Hi). f_equal.
  rewrite ringIndex_no_wrap; rewrite ?config_rotate in *; try done; try lia.
  unfold ring_fits. by rewrite config_rotate.
Qed.

(** C5. [getRotatedAccessCounts] returns a vector of exactly [numBuckets]
    entries, and entry [i] is the raw operation counter of bucket
    [(current + numBuckets - i) mod numBuckets], where [current] is the
    bucket of the current tick: the traversal of [getAccesses], reading raw
    counters, with entry [0] for the current bucket. *)
Theorem getRotatedAccessCounts_most_recent_first currentTick t :
  wf t -> quiescent t -> ring_fits t ->
  exists counts,
    getRotatedAccessCounts currentTick t = Ok (counts, t) /\
    Z.of_nat (length counts) = numBuckets (config_ t) /\
    forall i : nat, Z.of_nat i < numBuckets (config_ t) ->
      exists v,
        counts !! i = Some v /\
        itemCounts_ t !! Z.to_nat
          ((targetBucket currentTick t + numBuckets (config_ t) - Z.of_nat i)
             mod numBuckets (config_ t)) = Some v.
Proof.
  intros Hwf Hq Hfit. pose proof Hwf as [Hn _ _ _ _ _ _].
  destruct (getRotatedAccessCounts_ok currentTick t Hwf Hq) as (counts & Hrun & Hlen & Hpos).
  exists counts. split; [done |]. split; [done |]. intros i Hi.
  destruct (lookup_lt_is_Some_2 counts i ltac:(lia)) as [v Hv].
  exists v. split; [done |].
  rewrite <- Hv, (Hpos i Hi). do 2 f_equal. symmetry.
  apply ringIndex_no_wrap; try done; try lia.
  apply targetBucket_range. lia.
Qed.

(** C10. [getRotatedAccessCounts] never writes: it returns on every
    well-formed tracker and, whenever it returns, on any tracker at all, the
    tracker is left exactly as it was (backends, raw counters, shared index
    and locks).  Its result does not depend on the shared index: entry [0] is
    the raw counter of the bucket of the current tick, whatever the shared
    index is. *)
Theorem getRotatedAccessCounts_read_only currentTick t :
  wf t -> quiescent t -> ring_fits t ->
  (forall (any any' : Tracker) counts,
     getRotatedAccessCounts currentTick any = Ok (counts, any') ->
     any' = any) /\
  exists counts,
    getRotatedAccessCounts currentTick t = Ok (counts, t) /\
    counts !! 0%nat = itemCounts_ t !! Z.to_nat (targetBucket currentTick t) /\
    forall mostRecent, 0 <= mostRecent < numBuckets (config_ t) ->
      getRotatedAccessCounts currentTick (with_mostRecent mostRecent t) =
      Ok (counts, with_mostRecent mostRecent t).
Proof.
  intros Hwf Hq Hfit. pose proof Hwf as [Hn _ _ _ Hic _ _].
  split; [intros any any' counts; apply getRotatedAccessCounts_pure |].
  destruct (getRotatedAccessCounts_ok currentTick t Hwf Hq) as (counts & Hrun & Hlen & Hpos).
  exists counts. split; [done |]. split.
  - rewrite (Hpos 0%nat) by lia. do 2 f_equal.
    pose proof (targetBucket_range currentTick t ltac:(lia)) as Ht.
    rewrite ringIndex_no_wrap by (done || lia).
    replace (targetBucket currentTick t + numBuckets (config_ t) - Z.of_nat 0)
      with (targetBucket currentTick t + 1 * numBuckets (config_ t)) by lia.
    rewrite Z.mod_add by lia. apply Z.mod_small. lia.
  - intros mostRecent Hmr.
    destruct (getRotatedAccessCounts_ok currentTick (with_mostRecent mostRecent t))
      as (counts' & Hrun' & Hlen' & Hpos'); [by apply wf_with_mostRecent | done |].
    rewrite Hrun'. do 2 f_equal. apply list_eq. intros k.
    destruct (decide (Z.of_nat k < numBuckets (config_ t))) as [Hk | Hk].
    + by rewrite (Hpos k Hk), (Hpos' k Hk).
    + rewrite !(proj2 (lookup_ge_None _ _)); [done | lia | simpl in *; lia].
Qed.

(** X15. With at least one bucket and one tick per bucket, on every tracker
    built by the constructor and used through the public calls: each vector
    has one entry per bucket; the rotation target, the shared index that
    [recordAccess] loads after its rotation check and every index of the two
    traversals lie in [[0, numBuckets)]; every public call returns, so no
    access is out of range and nothing divides by zero.  With no bucket or no
    tick per bucket the index computation, and with it every public call that
    starts with it, divides by zero on a tracker that holds a ticker. *)
Theorem bucket_indices_in_range :
  (forall config calls tick key,
     wf_config config ->
     exists t : Tracker,
       run calls (AccessTrackerBase_ctor config) = Ok (tt, t) /\
       Z.of_nat (length (locks_ t)) = numBuckets config /\
       Z.of_nat (length (itemCounts_ t)) = numBuckets config /\
       (useCounts config = true -> Z.of_nat (length (counts_ t)) = numBuckets config) /\
       (exists b, getCurrentBucketIndex tick t = Ok (b, t) /\ 0 <= b < numBuckets config) /\
       (exists t1, updateMostRecentAccessedBucket tick t = Ok (tt, t1) /\
                   0 <= mostRecentAccessedBucket_ t1 < numBuckets config) /\
       (forall start i, exists idx,
          rotatedIdx (wrap64 (wrap64 (start + numBuckets config) - i)) t = Ok (idx, t) /\
          0 <= idx < numBuckets config) /\
       (exists t', recordAccess tick key t = Ok (tt, t')) /\
       (exists features t', getAccesses tick key t = Ok (features, t')) /\
       (exists counts, getRotatedAccessCounts tick t = Ok (counts, t))) /\
  (forall (t : Tracker) tick key,
     config_ticker t = SomeTicker ->
     numBuckets (config_ t) = 0 \/ numTicksPerBucket (config_ t) = 0 ->
     getCurrentBucketIndex tick t = Fault DivideByZero /\
     recordAccess tick key t = Fault DivideByZero /\
     getAccesses tick key t = Fault DivideByZero /\
     getRotatedAccessCounts tick t = Fault DivideByZero).
Proof.
  split.
  - intros config calls tick key Hcfg.
    destruct (run_ok calls (AccessTrackerBase_ctor config))
      as (Hrun & Hwf & Hq & Hconfig); [by apply wf_ctor | apply quiescent_ctor |].
    simpl in Hconfig.
    set (t := effects calls (AccessTrackerBase_ctor config)) in *. clearbody t.
    pose proof Hwf as [Hn Hd Hmr Hl Hic Hc Htk]. rewrite Hconfig in *.
    exists t. repeat split; try done; try lia.
    + eexists. rewrite getCurrentBucketIndex_ok by (rewrite ?Hconfig; first [done | lia]).
      split; [done |].
      pose proof (targetBucket_range tick t) as Hr. rewrite Hconfig in Hr. lia.
    + eexists. rewrite updateMostRecentAccessedBucket_ok by done. split; [done |].
      pose proof (wf_rotate tick _ Hwf) as [_ _ Hmr' _ _ _ _].
      by rewrite config_rotate, Hconfig in Hmr'.
    + intros start i. eexists. rewrite rotatedIdx_ok by (rewrite Hconfig; lia).
      split; [done |]. rewrite Hconfig. apply Z.mod_pos_bound. lia.
    + eexists. by apply recordAccess_ok.
    + destruct (getAccesses_ok tick key _ Hwf Hq) as (features & Hget & _). eauto.
    + destruct (getRotatedAccessCounts_ok tick _ Hwf Hq) as (counts & Hget & _). eauto.
  - intros t tick key Htk Hz.
    pose proof (getCurrentBucketIndex_zero tick t Htk Hz) as Hb.
    repeat split; try done.
    + unfold recordAccess, updateMostRecentAccessedBucket. unfold_monad. by rewrite Hb.
    + unfold getAccesses, updateMostRecentAccessedBucket. unfold_monad. by rewrite Hb.
    + unfold getRotatedAccessCounts. unfold_monad. by rewrite Hb.
Qed.

(** ** Byte sizes *)

Lemma fmap_alter_invariant {A B} (g : A -> B) (f : A -> A) (i : nat) (l : list A) :
  (forall x, g (f x) = g x) -> g <$> alter f i l = g <$> l.
Proof.
  intros Hgf. revert i. induction l as [|x l IH]; intros [|i]; simpl; try done.
  - by rewrite Hgf.
  - f_equal. apply IH.
Qed.

Lemma sumZ_replicate (n : nat) (x : Z) : sumZ (replicate n x) = Z.of_nat n * x.
Proof.
  unfold sumZ. induction n as [|n IH]; [done |].
  cbn [replicate foldr]. rewrite IH. lia.
Qed.

Section ByteSizes.

Context `{!ByteSizeLaws (CMS := CMS) (BF := BF)}.

Lemma sizes_reset_bucket idx t : sizes (reset_bucket idx t) = sizes t.
Proof.
  unfold sizes, reset_bucket. destruct (useCounts (config_ t)); simpl.
  - by rewrite (fmap_alter_invariant _ _ _ _ cms_getByteSize_reset).
  - by rewrite bf_getByteSize_clear.
Qed.

Lemma sizes_bump_bucket idx hashVal t : sizes (bump_bucket idx hashVal t) = sizes t.
Proof.
  unfold sizes, bump_bucket. destruct (useCounts (config_ t)); simpl.
  - by rewrite (fmap_alter_invariant _ _ _ _ (cms_getByteSize_increment hashVal)).
  - by rewrite bf_getByteSize_set.
Qed.

Lemma sizes_rotate tick t : sizes (rotate tick t) = sizes t.
Proof.
  unfold rotate. destruct (on_border _ t); [done |]. by rewrite sizes_reset_bucket.
Qed.

Lemma sizes_effect_of call t : sizes (effect_of call t) = sizes t.
Proof.
  destruct call as [tick [key|key|key|]]; unfold effect_of;
    by rewrite ?sizes_bump_bucket, ?sizes_rotate.
Qed.

Lemma sizes_effects calls : forall t, sizes (effects calls t) = sizes t.
Proof.
  induction calls as [|call calls IH]; intros t; [done |].
  unfold effects in *. simpl. by rewrite IH, sizes_effect_of.
Qed.

Lemma getByteSize_sizes t t' : sizes t' = sizes t -> getByteSize t' = getByteSize t.
Proof.
  unfold sizes, getByteSize. intros Hs. inversion Hs as [[Hf Hc]].
  rewrite Hf. pose proof (f_equal length Hc) as Hlen. rewrite !length_fmap in Hlen.
  destruct (counts_ t') as [|c' l'], (counts_ t) as [|c l]; simpl in *; try done.
  inversion Hc as [[Hh Ht]]. by rewrite Hh, Hlen.
Qed.

Lemma backendBytes_sizes t t' : sizes t' = sizes t -> backendBytes t' = backendBytes t.
Proof. unfold sizes, backendBytes. intros Hs. inversion Hs as [[Hf Hc]]. by rewrite Hf. Qed.

Lemma getByteSize_ctor config :
  backendBytes (AccessTrackerBase_ctor config) < 2 ^ 64 ->
  getByteSize (AccessTrackerBase_ctor config) = backendBytes (AccessTrackerBase_ctor config).
Proof.
  unfold backendBytes, getByteSize. simpl.
  set (f := if useCounts config then _ else _).
  pose proof (bf_getByteSize_nonneg f) as Hf.
  destruct (useCounts config).
  - set (c := cms_construct _ _ _ _). pose proof (cms_getByteSize_nonneg c) as Hc.
    rewrite fmap_replicate, sumZ_replicate, length_replicate.
    intros Hlt. destruct (Z.to_nat (numBuckets config)) as [|n] eqn:En; simpl replicate; cbv iota.
    + rewrite Z.mul_0_l. rewrite Z.add_0_r in *. by apply wrap64_small.
    + rewrite (wrap64_small (_ * _)) by nia. apply wrap64_small. nia.
  - simpl. rewrite Z.add_0_r. intros Hlt. by apply wrap64_small.
Qed.

(** C8. [getByteSize] is the sum of the byte sizes of the backends (the
    filter bank and every sketch), it is zero for a tracker without buckets,
    and it is fixed by construction: after any sequence of public calls, and
    after [recordAccess], [getAccesses] and the rotation check on the state
    reached, it is what it was for the new tracker. *)
Theorem getByteSize_fixed :
  (forall config : Config,
     numBuckets config = 0 ->
     getByteSize (AccessTrackerBase_ctor (CMS := CMS) (BF := BF) config) = 0) /\
  (forall config calls tick key,
     wf_config config ->
     backendBytes (AccessTrackerBase_ctor (CMS := CMS) (BF := BF) config) < 2 ^ 64 ->
     exists t : Tracker,
       run calls (AccessTrackerBase_ctor config) = Ok (tt, t) /\
       getByteSize t = backendBytes t /\
       getByteSize t = getByteSize (AccessTrackerBase_ctor (CMS := CMS) (BF := BF) config) /\
       (exists t1, recordAccess tick key t = Ok (tt, t1) /\ getByteSize t1 = getByteSize t) /\
       (exists features t2, getAccesses tick key t = Ok (features, t2) /\
                            getByteSize t2 = getByteSize t) /\
       (exists t3, updateMostRecentAccessedBucket tick t = Ok (tt, t3) /\
                   getByteSize t3 = getByteSize t)).
Proof.
  split.
  - intros config Hz. unfold getByteSize. simpl. rewrite Hz. simpl.
    destruct (useCounts config); simpl.
    + by rewrite bf_getByteSize_default.
    + by rewrite bf_getByteSize_no_filters.
  - intros config calls tick key Hcfg Hfits.
    destruct (run_ok calls (AccessTrackerBase_ctor config))
      as (Hrun & Hwf & Hq & _); [by apply wf_ctor | apply quiescent_ctor |].
    pose proof (sizes_effects calls (AccessTrackerBase_ctor config)) as Hs.
    set (t := effects calls (AccessTrackerBase_ctor config)) in *. clearbody t.
    exists t. split; [done |]. split; [| split; [| repeat split]].
    + rewrite (getByteSize_sizes _ _ Hs), (backendBytes_sizes _ _ Hs).
      by apply getByteSize_ctor.
    + by apply getByteSize_sizes.
    + eexists. rewrite recordAccess_ok by done. split; [done |].
      apply getByteSize_sizes. by rewrite sizes_bump_bucket, sizes_rotate.
    + destruct (getAccesses_ok tick key t Hwf Hq) as (features & Hget & _).
      exists features, (rotate tick t). split; [done |].
      apply getByteSize_sizes, sizes_rotate.
    + eexists. rewrite updateMostRecentAccessedBucket_ok by done. split; [done |].
      apply getByteSize_sizes, sizes_rotate.
Qed.

End ByteSizes.

(** ** Rotation into the next bucket *)

Lemma targetBucket_next_span tick t :
  1 <= numTicksPerBucket (config_ t) ->
  1 <= numBuckets (config_ t) ->
  targetBucket (tick + numTicksPerBucket (config_ t)) t =
  (targetBucket tick t + 1) mod numBuckets (config_ t).
Proof.
  intros Hd Hn. unfold targetBucket.
  replace (tick + numTicksPerBucket (config_ t))
    with (tick + 1 * numTicksPerBucket (config_ t)) by lia.
  rewrite Z.div_add by lia.
  by rewrite Zplus_mod_idemp_l.
Qed.

Lemma succ_mod_ne n b : 2 <= n -> 0 <= b < n -> (b + 1) mod n <> b.
Proof.
  intros Hn Hb. destruct (decide (b + 1 < n)) as [Hlt | Hge].
  - rewrite Z.mod_small by lia. lia.
  - replace (b + 1) with n by lia. rewrite Z.mod_same by lia. lia.
Qed.

Lemma succ_succ_mod_ne n b :
  3 <= n -> 0 <= b < n -> ((b + 1) mod n + 1) mod n <> b.
Proof.
  intros Hn Hb. rewrite Zplus_mod_idemp_l.
  destruct (decide (b + 1 + 1 < n)) as [Hlt | Hge].
  - rewrite Z.mod_small by lia. lia.
  - replace (b + 1 + 1) with (b + 2 - n + 1 * n) by lia.
    rewrite Z.mod_add by lia. rewrite Z.mod_small by lia. lia.
Qed.

Lemma rotate_frame tick t (j : nat) :
  j <> Z.to_nat (targetBucket tick t) ->
  itemCounts_ (rotate tick t) !! j = itemCounts_ t !! j /\
  counts_ (rotate tick t) !! j = counts_ t !! j.
Proof.
  intros Hj. unfold rotate. destruct (on_border _ t); [done |].
  unfold reset_bucket. destruct (useCounts _); simpl;
    rewrite ?list_lookup_insert_ne, ?list_lookup_alter_ne by done; done.
Qed.


(** ** Features exclude the access that asks for them *)

Lemma on_border_rotate tick t :
  on_border (targetBucket tick t) (rotate tick t) = true.
Proof.
  unfold rotate. destruct (on_border _ t) eqn:E; [done |].
  unfold on_border, reset_bucket.
  destruct (useCounts _); simpl; by rewrite Z.eqb_refl.
Qed.

Lemma rotate_again tick idx hashVal t :
  rotate tick (bump_bucket idx hashVal (rotate tick t)) =
  bump_bucket idx hashVal (rotate tick t).
Proof.
  pose proof (on_border_rotate tick t) as Hb.
  unfold rotate at 1.
  assert (Hcfg : config_ (bump_bucket idx hashVal (rotate tick t)) = config_ t)
    by (by rewrite config_bump_bucket, config_rotate).
  assert (Hcfg' : config_ (rotate tick t) = config_ t) by apply config_rotate.
  assert (Hmr : mostRecentAccessedBucket_ (bump_bucket idx hashVal (rotate tick t)) =
                mostRecentAccessedBucket_ (rotate tick t))
    by (unfold bump_bucket; by destruct (useCounts _)).
  unfold on_border, targetBucket in *. rewrite Hcfg, Hmr. rewrite Hcfg' in Hb.
  by rewrite Hb.
Qed.

Lemma rotate_idem tick t : rotate tick (rotate tick t) = rotate tick t.
Proof.
  pose proof (on_border_rotate tick t) as Hb.
  unfold rotate at 1. unfold targetBucket, on_border in *.
  rewrite config_rotate in *. by rewrite Hb.
Qed.

Section Estimates.

Context `{!EstimateLaws (CMS := CMS) (BF := BF)}.

Lemma zero_for_ctor config hashVal : zero_for hashVal (AccessTrackerBase_ctor config).
Proof.
  intros idx v. unfold bucketEstimate. simpl.
  destruct (useCounts config).
  - destruct (replicate _ _ !! _) as [c|] eqn:Ec; simpl; [| done].
    apply lookup_replicate in Ec as [-> _]. rewrite cms_getCount_construct. congruence.
  - rewrite bf_couldExist_make. congruence.
Qed.

Lemma zero_for_reset_bucket idx hashVal t :
  zero_for hashVal t -> zero_for hashVal (reset_bucket idx t).
Proof.
  intros Hz j v. specialize (Hz j).
  unfold bucketEstimate, reset_bucket in *.
  destruct (useCounts (config_ t)) eqn:Euc; simpl; rewrite Euc.
  - destruct (decide (Z.to_nat idx = Z.to_nat j)) as [Heq | Hne].
    + rewrite Heq, list_lookup_alter_eq.
      destruct (counts_ t !! Z.to_nat j); simpl; [| done].
      rewrite cms_getCount_reset. congruence.
    + rewrite list_lookup_alter_ne by done. apply Hz.
  - destruct (decide (j = idx)) as [-> | Hne].
    + rewrite bf_couldExist_clear. congruence.
    + rewrite bf_couldExist_clear_other by done. apply Hz.
Qed.

Lemma zero_for_rotate tick hashVal t : zero_for hashVal t -> zero_for hashVal (rotate tick t).
Proof.
  intros Hz. unfold rotate. destruct (on_border _ t); [done |].
  by apply zero_for_reset_bucket.
Qed.

Lemma backends_of_ctor config : backends_of config (AccessTrackerBase_ctor config).
Proof.
  split; simpl.
  - destruct (useCounts config); [| done].
    apply Forall_replicate. constructor.
  - intros ->. constructor.
Qed.

Lemma backends_of_reset_bucket cfg idx t :
  config_ t = cfg -> backends_of cfg t -> backends_of cfg (reset_bucket idx t).
Proof.
  intros <- [Hc Hf]. unfold backends_of, reset_bucket.
  destruct (useCounts (config_ t)) eqn:Euc; simpl.
  - split; [| done].
    apply Forall_alter; [done |]. intros c _ Hc'. by constructor.
  - split; [done |]. intros _. constructor. by apply Hf.
Qed.

Lemma backends_of_bump_bucket cfg idx hashVal t :
  config_ t = cfg -> backends_of cfg t -> backends_of cfg (bump_bucket idx hashVal t).
Proof.
  intros <- [Hc Hf]. unfold backends_of, bump_bucket.
  destruct (useCounts (config_ t)) eqn:Euc; simpl.
  - split; [| done].
    apply Forall_alter; [done |]. intros c _ Hc'. by constructor.
  - split; [done |]. intros _. constructor. by apply Hf.
Qed.

Lemma backends_of_rotate cfg tick t :
  config_ t = cfg -> backends_of cfg t -> backends_of cfg (rotate tick t).
Proof.
  intros Hcfg Hb. unfold rotate. destruct (on_border _ t); [done |].
  by apply backends_of_reset_bucket.
Qed.

(** A record of a hash that shares nothing with [hashVal] leaves every
    estimate of [hashVal] at zero. *)
Lemma zero_for_bump_bucket cfg idx other hashVal t :
  config_ t = cfg -> backends_of cfg t -> apart cfg other hashVal ->
  zero_for hashVal t -> zero_for hashVal (bump_bucket idx other t).
Proof.
  intros <- [Hc Hf] [Hsk Hfl] Hz j v. specialize (Hz j).
  unfold bucketEstimate, bump_bucket in *.
  destruct (useCounts (config_ t)) eqn:Euc; simpl; rewrite Euc.
  - destruct (decide (Z.to_nat idx = Z.to_nat j)) as [Heq | Hne].
    + rewrite Heq, list_lookup_alter_eq.
      destruct (counts_ t !! Z.to_nat j) as [c|] eqn:Ec; simpl; [| done].
      rewrite Hsk by (by eapply Forall_lookup_1). by apply Hz.
    + rewrite list_lookup_alter_ne by done. apply Hz.
  - rewrite Hfl by (by apply Hf). apply Hz.
Qed.

Lemma zero_for_effects cfg hashVal calls : forall t,
  config_ t = cfg -> backends_of cfg t ->
  (forall other, other ∈ recordedKeys calls -> apart cfg (hashOf other) hashVal) ->
  zero_for hashVal t -> zero_for hashVal (effects calls t).
Proof.
  induction calls as [|[tick o] calls IH]; intros t Hcfg Hb Hap Hz; [done |].
  unfold effects in *. cbn [foldl].
  destruct o as [key|key|key|]; cbn [effect_of]; apply IH;
    rewrite ?config_bump_bucket, ?config_rotate;
    try done;
    try (intros other Hother; apply Hap; first [done | by right]).
  - by apply backends_of_bump_bucket, backends_of_rotate; rewrite ?config_rotate.
  - apply (zero_for_bump_bucket cfg); rewrite ?config_rotate; try done.
    + by apply backends_of_rotate.
    + apply Hap. by left.
    + by apply zero_for_rotate.
  - by apply backends_of_rotate.
  - by apply zero_for_rotate.
  - apply backends_of_bump_bucket; rewrite ?config_rotate; try done.
    apply backends_of_rotate; rewrite ?config_rotate; try done.
    by apply backends_of_rotate.
  - apply (zero_for_bump_bucket cfg); rewrite ?config_rotate; try done.
    + apply backends_of_rotate; rewrite ?config_rotate; try done.
      by apply backends_of_rotate.
    + apply Hap. by left.
    + by do 2 apply zero_for_rotate.
Qed.

Lemma getAccesses_zero_for tick key t :
  wf t -> quiescent t -> zero_for (hashOf key) t ->
  getAccesses tick key t =
  Ok (replicate (Z.to_nat (numBuckets (config_ t))) 0, rotate tick t).
Proof.
  intros Hwf Hq Hz.
  destruct (getAccesses_ok tick key t Hwf Hq) as (features & Hget & Hlen & Hpos).
  rewrite Hget. do 2 f_equal. apply list_eq. intros k.
  destruct (decide (Z.of_nat k < numBuckets (config_ t))) as [Hk | Hk].
  - rewrite lookup_replicate_2 by lia.
    destruct (lookup_lt_is_Some_2 features k ltac:(lia)) as [v Hv].
    rewrite Hv. f_equal. rewrite (Hpos k Hk) in Hv.
    by apply (zero_for_rotate tick _ t Hz) in Hv.
  - rewrite !(proj2 (lookup_ge_None _ _)); [done | rewrite length_replicate; lia | lia].
Qed.

(** The estimate of a hash in the bucket it has just been recorded in. *)
Lemma bucketEstimate_bump_counts idx hashVal t c :
  useCounts (config_ t) = true -> counts_ t !! Z.to_nat idx = Some c ->
  bucketEstimate t idx hashVal = Some (cms_getCount c hashVal) /\
  bucketEstimate (bump_bucket idx hashVal t) idx hashVal =
    Some (cms_getCount (cms_increment hashVal c) hashVal).
Proof.
  intros Euc Ec. unfold bucketEstimate, bump_bucket. rewrite Euc. simpl. rewrite Euc.
  by rewrite list_lookup_alter_eq, Ec.
Qed.

Lemma bucketEstimate_bump_filters idx hashVal t :
  useCounts (config_ t) = false ->
  bucketEstimate (bump_bucket idx hashVal t) idx hashVal = Some 1.
Proof.
  intros Euc. unfold bucketEstimate, bump_bucket. rewrite Euc. simpl. rewrite Euc.
  by rewrite bf_couldExist_set.
Qed.

Lemma ringIndex_first start t :
  1 <= numBuckets (config_ t) -> ring_fits t -> 0 <= start < numBuckets (config_ t) ->
  ringIndex start (Z.of_nat 0) t = start.
Proof.
  intros Hn Hfit Hs. rewrite ringIndex_no_wrap by (done || lia).
  replace (start + numBuckets (config_ t) - Z.of_nat 0)
    with (start + 1 * numBuckets (config_ t)) by lia.
  rewrite Z.mod_add by lia. apply Z.mod_small. lia.
Qed.


End Estimates.

(** ** Moving a tracker *)

Lemma resetBucketLocked_no_counters idx t :
  itemCounts_ t = [] -> resetBucketLocked idx t = Fault IndexOutOfBounds.
Proof.
  intros Hic. unfold resetBucketLocked. unfold_monad.
  destruct (useCounts (config_ t)).
  - destruct (counts_ t !! Z.to_nat idx); [| done]. simpl. by rewrite Hic.
  - simpl. by rewrite Hic.
Qed.

Lemma updateBucketLocked_no_counters idx hashVal t :
  itemCounts_ t = [] -> updateBucketLocked idx hashVal t = Fault IndexOutOfBounds.
Proof.
  intros Hic. unfold updateBucketLocked. unfold_monad.
  destruct (useCounts (config_ t)).
  - destruct (counts_ t !! Z.to_nat idx); [| done]. simpl. by rewrite Hic.
  - simpl. by rewrite Hic.
Qed.

Lemma LockHolder_fault {A} idx (body : M CMS BF A) f t :
  locks_ t !! Z.to_nat idx = Some Unlocked ->
  body (lock_bucket idx t) = Fault f ->
  LockHolder idx body t = Fault f.
Proof. intros Hl Hb. by rewrite (LockHolder_run _ _ _ Hl), Hb. Qed.

Lemma updateMostRecentAccessedBucket_loop_unfold b t :
  1 <= numBuckets (config_ t) < 2 ^ 64 -> 0 <= b < numBuckets (config_ t) ->
  updateMostRecentAccessedBucket_loop 1 b t =
  if on_border b t then Ok (tt, t)
  else LockHolder b (resetBucketLocked b) (with_mostRecent b t).
Proof.
  intros Hn Hb. unfold on_border. simpl. unfold_monad.
  destruct (b =? mostRecentAccessedBucket_ t) eqn:E1; [done |].
  rewrite rotatedIdx_ok by lia.
  rewrite (succ_no_wrap _ _ Hn Hb). simpl.
  destruct ((b + 1) mod numBuckets (config_ t) =? mostRecentAccessedBucket_ t)
    eqn:E2; [done |].
  unfold compare_exchange_strong. by rewrite Z.eqb_refl.
Qed.

(** C6. The move constructor (and move assignment, which goes through it)
    hands over the sketches, the filter bank, the locks and the shared index
    but not the raw operation counters: the new object has an empty
    [itemCounts_] while its configuration still says [numBuckets], and the
    source keeps its counters and its [numBuckets].  On the new object
    [getRotatedAccessCounts] and [recordAccess] index the empty vector, where
    the source returned the counters before the move. *)
Theorem move_drops_raw_counters tick key t :
  wf t -> quiescent t ->
  (exists counts, getRotatedAccessCounts tick t = Ok (counts, t)) /\
  counts_ (AccessTrackerBase_move t).1 = counts_ t /\
  filters_ (AccessTrackerBase_move t).1 = filters_ t /\
  mostRecentAccessedBucket_ (AccessTrackerBase_move t).1 = mostRecentAccessedBucket_ t /\
  itemCounts_ (AccessTrackerBase_move t).1 = [] /\
  getNumBuckets (AccessTrackerBase_move t).1 = getNumBuckets t /\
  getRotatedAccessCounts tick (AccessTrackerBase_move t).1 = Fault IndexOutOfBounds /\
  recordAccess tick key (AccessTrackerBase_move t).1 = Fault IndexOutOfBounds /\
  (forall this, AccessTrackerBase_move_assign false this t = AccessTrackerBase_move t) /\
  itemCounts_ (AccessTrackerBase_move t).2 = itemCounts_ t /\
  getNumBuckets (AccessTrackerBase_move t).2 = getNumBuckets t /\
  1 <= getNumBuckets (AccessTrackerBase_move t).2.
Proof.
  intros Hwf Hq. pose proof Hwf as [Hn Hd Hmr Hl Hic Hc Htk].
  destruct (getRotatedAccessCounts_ok tick t Hwf Hq) as (counts & Hget & _).
  set (dest := (AccessTrackerBase_move t).1).
  assert (Hlock : forall idx, 0 <= idx < numBuckets (config_ t) ->
            locks_ dest !! Z.to_nat idx = Some Unlocked).
  { intros idx Hi. by apply (quiescent_lookup idx (numBuckets (config_ t)) t). }
  repeat split; try done; try (exists counts; done); try (simpl; unfold getNumBuckets; lia).
  - unfold getRotatedAccessCounts. unfold_monad.
    rewrite getCurrentBucketIndex_ok by (simpl; first [done | lia]). simpl config_.
    destruct (Z.to_nat (numBuckets (config_ t))) as [|n] eqn:En; [lia |].
    simpl. unfold_monad. rewrite rotatedIdx_ok by (simpl; lia). simpl config_.
    rewrite LockHolder_fault with (f := IndexOutOfBounds);
      [done | apply Hlock, Z.mod_pos_bound; lia | done].
  - assert (Ht : 0 <= targetBucket tick t < numBuckets (config_ t))
      by (apply targetBucket_range; lia).
    unfold recordAccess, updateMostRecentAccessedBucket. unfold_monad.
    rewrite getCurrentBucketIndex_ok by (simpl; first [done | lia]).
    change (targetBucket tick dest) with (targetBucket tick t).
    rewrite updateMostRecentAccessedBucket_loop_unfold by done.
    destruct (on_border (targetBucket tick t) dest).
    + apply LockHolder_fault; [by apply Hlock |].
      by apply updateBucketLocked_no_counters.
    + rewrite LockHolder_fault with (f := IndexOutOfBounds);
        [done | by apply Hlock | by apply resetBucketLocked_no_counters].
  - unfold getNumBuckets. simpl. lia.
Qed.

(** ** The rotation check, step by step *)

Lemma step_entry tick t :
  config_ticker t = SomeTicker ->
  numBuckets (config_ t) <> 0 -> numTicksPerBucket (config_ t) <> 0 ->
  thread_step (AtEntry tick) t = Ok (AtLoad (targetBucket tick t), EvSilent, t).
Proof. intros Htk Hn Hd. simpl. by rewrite getCurrentBucketIndex_ok. Qed.

Lemma step_load b t :
  1 <= numBuckets (config_ t) < 2 ^ 64 -> 0 <= b < numBuckets (config_ t) ->
  thread_step (AtLoad b) t =
  Ok (if on_border b t then Returned else AtCas b (mostRecentAccessedBucket_ t),
      EvSilent, t).
Proof.
  intros Hn Hb. unfold on_border. simpl.
  destruct (b =? mostRecentAccessedBucket_ t); [done |].
  rewrite rotatedIdx_ok by lia. rewrite (succ_no_wrap _ _ Hn Hb). simpl.
  by destruct (_ =? _).
Qed.

Lemma step_cas_success b m t :
  mostRecentAccessedBucket_ t = m ->
  thread_step (AtCas b m) t = Ok (AtLock b, EvCasSuccess b, with_mostRecent b t).
Proof. intros <-. simpl. unfold compare_exchange_strong. by rewrite Z.eqb_refl. Qed.

Lemma step_cas_failure b m t :
  mostRecentAccessedBucket_ t <> m ->
  thread_step (AtCas b m) t = Ok (AtLoad b, EvCasFailure, t).
Proof.
  intros Hne. simpl. unfold compare_exchange_strong.
  by rewrite (proj2 (Z.eqb_neq _ _) Hne).
Qed.

Lemma step_lock_free b t :
  locks_ t !! Z.to_nat b = Some Unlocked ->
  thread_step (AtLock b) t = Ok (AtReset b, EvSilent, lock_bucket b t).
Proof. intros Hl. simpl. unfold index. by rewrite Hl. Qed.

Lemma step_lock_spin b t :
  locks_ t !! Z.to_nat b = Some Locked ->
  thread_step (AtLock b) t = Ok (AtLock b, EvSilent, t).
Proof. intros Hl. simpl. unfold index. by rewrite Hl. Qed.

Lemma step_reset b t :
  wf t -> 0 <= b < numBuckets (config_ t) ->
  thread_step (AtReset b) t = Ok (AtUnlock b, EvReset b, reset_bucket b t).
Proof. intros [] Hb. simpl. by rewrite resetBucketLocked_ok. Qed.

Lemma step_unlock b t :
  thread_step (AtUnlock b) t = Ok (Returned, EvSilent, unlock_bucket b t).
Proof. done. Qed.

Lemma wf_lock_bucket b t : wf t -> wf (lock_bucket b t).
Proof. intros []. constructor; simpl; rewrite ?length_insert; done. Qed.

Lemma wf_unlock_bucket b t : wf t -> wf (unlock_bucket b t).
Proof. intros []. constructor; simpl; rewrite ?length_insert; done. Qed.

Lemma config_reset_bucket b t : config_ (reset_bucket b t) = config_ t.
Proof. unfold reset_bucket. by destruct (useCounts _). Qed.

(** One step of a thread from a well-formed shared state: it does not fault,
    and it is one of the moves of the protocol. *)
Lemma thread_step_protocol p t history :
  wf t -> pc_in_range (numBuckets (config_ t)) p -> thread_history_ok p history ->
  exists p' e t',
    thread_step p t = Ok (p', e, t') /\
    wf t' /\ config_ t' = config_ t /\
    pc_in_range (numBuckets (config_ t)) p' /\
    thread_history_ok p' (history ++ (if significant e then [e] else [])).
Proof.
  intros Hwf Hp Hh. pose proof Hwf as [Hn Hd Hmr Hl Hic Hc Htk].
  destruct p as [tick | b | b m | b | b | b |]; simpl in Hp, Hh.
  - eexists _, _, _. rewrite step_entry by first [done | lia]. subst history.
    split; [done |]. split; [done |]. split; [done |]. split; [| done].
    simpl. apply targetBucket_range. lia.
  - eexists _, _, _. rewrite step_load by done. subst history.
    split; [done |]. split; [done |]. split; [done |].
    destruct (on_border b t); simpl; auto.
  - destruct (decide (mostRecentAccessedBucket_ t = m)) as [Heq | Hne].
    + eexists _, _, _. rewrite step_cas_success by done. subst history.
      split; [done |]. split; [by apply wf_with_mostRecent |]. done.
    + eexists _, _, _. rewrite step_cas_failure by done. subst history. done.
  - destruct (lookup_in_range _ _ b Hl Hp) as [[|] El].
    + eexists _, _, _. rewrite step_lock_free by done. subst history.
      split; [done |]. split; [by apply wf_lock_bucket |]. done.
    + eexists _, _, _. rewrite step_lock_spin by done. subst history. done.
  - eexists _, _, _. rewrite step_reset by done. subst history.
    split; [done |]. split; [by apply wf_reset_bucket |].
    split; [apply config_reset_bucket |]. done.
  - eexists _, _, _. rewrite step_unlock. subst history.
    split; [done |]. split; [by apply wf_unlock_bucket |].
    split; [done |]. split; [done |]. simpl. eauto.
  - eexists _, _, _. simpl. split; [done |]. split; [done |]. split; [done |].
    split; [done |]. by rewrite app_nil_r.
Qed.

Lemma thread_events_snoc tid tid' e trace :
  thread_events tid (trace ++ [(tid', e)]) =
  thread_events tid trace ++
  (if decide (tid' = tid) then (if significant e then [e] else []) else []).
Proof.
  unfold thread_events, significant_events.
  rewrite !filter_app, fmap_app. f_equal.
  rewrite filter_cons, filter_nil. simpl.
  destruct (significant e) eqn:Es; simpl.
  - destruct (decide (true = true)); [| done].
    rewrite filter_cons, filter_nil. simpl. by destruct (decide (tid' = tid)).
  - destruct (decide (false = true)); [done |]. simpl.
    by destruct (decide (tid' = tid)).
Qed.

(** Every interleaving runs without fault, and every thread follows the
    protocol. *)
Lemma sys_run_protocol cfg schedule : forall (s : system CMS BF) pre,
  wf (shared s) -> config_ (shared s) = cfg ->
  (forall tid p, threads s !! tid = Some p ->
     pc_in_range (numBuckets cfg) p /\ thread_history_ok p (thread_events tid pre)) ->
  exists s' trace,
    sys_run schedule s = Ok (s', trace) /\
    wf (shared s') /\ config_ (shared s') = cfg /\
    (forall tid p, threads s' !! tid = Some p ->
       pc_in_range (numBuckets cfg) p /\
       thread_history_ok p (thread_events tid (pre ++ trace))).
Proof.
  induction schedule as [|tid schedule IH]; intros s pre Hwf Hcfg Hth.
  - exists s, []. rewrite app_nil_r. done.
  - simpl. unfold sys_step.
    destruct (threads s !! tid) as [p|] eqn:Ep.
    + destruct (Hth tid p Ep) as [Hrange Hhist]. rewrite <- Hcfg in Hrange.
      destruct (thread_step_protocol p (shared s) _ Hwf Hrange Hhist)
        as (p' & e & t' & Hstep & Hwf' & Hcfg' & Hrange' & Hhist').
      rewrite Hstep.
      destruct (IH {| shared := t'; threads := <[tid := p']> (threads s) |}
                  (pre ++ [(tid, e)])) as (s' & trace & Hrun & Hwf'' & Hcfg'' & Hth');
        [done | simpl; congruence | |].
      { intros tid' q Hq. simpl in Hq. rewrite thread_events_snoc.
        apply list_lookup_insert_Some in Hq as [(<- & <- & Hlt) | (Hne & Hq)].
        - rewrite decide_True by done. split; [congruence | done].
        - rewrite decide_False by done. rewrite app_nil_r. by apply Hth. }
      rewrite Hrun. exists s', ([(tid, e)] ++ trace).
      split; [done |]. split; [done |]. split; [done |].
      intros tid' q Hq. rewrite app_assoc. by apply Hth'.
    + destruct (IH s pre Hwf Hcfg Hth) as (s' & trace & Hrun & Hrest).
      rewrite Hrun. by exists s', trace.
Qed.

(** ** Threads racing for one rotation *)

Lemma config_stage_shared b t st : config_ (stage_shared b t st) = config_ t.
Proof.
  destruct st as [|w [ | | | | | |]]; simpl; try done;
    unfold reset_bucket; simpl; by destruct (useCounts _).
Qed.

Lemma wf_stage_shared b t st :
  wf t -> 0 <= b < numBuckets (config_ t) -> wf (stage_shared b t st).
Proof.
  intros Hwf Hb.
  destruct st as [|w [ | | | | | |]]; simpl; try done;
    auto using wf_reset_bucket, wf_lock_bucket, wf_with_mostRecent.
Qed.

Lemma mostRecent_stage_shared b t w pw :
  mostRecentAccessedBucket_ (stage_shared b t (Winner w pw)) = b.
Proof.
  destruct pw; simpl; try done; unfold reset_bucket; simpl; by destruct (useCounts _).
Qed.

Lemma on_border_stage_shared b t w pw :
  on_border b (stage_shared b t (Winner w pw)) = true.
Proof. unfold on_border. by rewrite mostRecent_stage_shared, Z.eqb_refl. Qed.

Lemma on_border_false_ne b t :
  on_border b t = false -> mostRecentAccessedBucket_ t <> b.
Proof.
  unfold on_border. intros Hb Heq. rewrite Heq, Z.eqb_refl in Hb. done.
Qed.

Lemma bystander_ok_mono b t st st' q :
  bystander_ok b t st q -> st' <> NobodyYet -> bystander_ok b t st' q.
Proof. destruct q; simpl; auto. Qed.

Lemma thread_ok_other b t st w pw tid q :
  tid <> w -> thread_ok b t st tid q ->
  (match st with Winner w0 _ => w0 = w | NobodyYet => True end) ->
  thread_ok b t (Winner w pw) tid q.
Proof.
  intros Hne Hok Hst. unfold thread_ok in *. rewrite decide_False by done.
  destruct st as [|w0 pw0].
  - by apply (bystander_ok_mono b t NobodyYet).
  - subst w0. rewrite decide_False in Hok by done.
    by apply (bystander_ok_mono b t (Winner w pw0)).
Qed.

Lemma race_step b t st tid p :
  wf t -> quiescent t -> 0 <= b < numBuckets (config_ t) ->
  (st <> NobodyYet -> on_border b t = false) ->
  stage_pc_ok b st ->
  thread_ok b t st tid p ->
  exists p' e st',
    thread_step p (stage_shared b t st) = Ok (p', e, stage_shared b t st') /\
    stage_events b st' = stage_events b st ++ (if significant e then [(tid, e)] else []) /\
    (st' <> NobodyYet -> on_border b t = false) /\
    stage_pc_ok b st' /\
    thread_ok b t st' tid p' /\
    (forall tid' q, tid' <> tid -> thread_ok b t st tid' q -> thread_ok b t st' tid' q) /\
    match st' with
    | NobodyYet => True
    | Winner w pw => (w = tid /\ pw = p') \/ (w <> tid /\ st' = st)
    end.
Proof.
  intros Hwf Hq Hb Hneed Hpc Hok. pose proof Hwf as [Hn Hd Hmr Hl Hic Hc Htk].
  assert (Hlock : locks_ (with_mostRecent b t) !! Z.to_nat b = Some Unlocked)
    by (by apply (quiescent_lookup b (numBuckets (config_ t)) t)).
  destruct st as [|w pw].
  - (* nobody has swapped yet *)
    simpl in Hok. destruct p as [tick | b' | b' m | b' | b' | b' |]; simpl in Hok; try done.
    + exists (AtLoad b), EvSilent, NobodyYet. simpl stage_shared.
      rewrite step_entry by first [done | lia]. rewrite Hok. rewrite app_nil_r. done.
    + subst b'. destruct (on_border b t) eqn:Eb.
      * exists Returned, EvSilent, NobodyYet. simpl stage_shared.
        rewrite step_load by done. rewrite Eb, app_nil_r.
        split; [done |]. split; [done |]. split; [done |]. split; [done |].
        split; [simpl; auto |]. done.
      * exists (AtCas b (mostRecentAccessedBucket_ t)), EvSilent, NobodyYet.
        simpl stage_shared. rewrite step_load by done. rewrite Eb, app_nil_r. done.
    + destruct Hok as (-> & -> & Hborder).
      exists (AtLock b), (EvCasSuccess b), (Winner tid (AtLock b)). simpl stage_shared.
      rewrite step_cas_success by done.
      split; [done |]. split; [done |]. split; [done |]. split; [simpl; auto |].
      split; [simpl; by rewrite decide_True |].
      split; [| by left].
      intros tid' q Hne Hq'. by apply (thread_ok_other b t NobodyYet).
    + exists Returned, EvSilent, NobodyYet. simpl. repeat (split; [done |]). done.
  - (* thread [w] has swapped *)
    specialize (Hneed ltac:(done)).
    unfold thread_ok in Hok. destruct (decide (tid = w)) as [-> | Hne].
    + subst p. simpl in Hpc. destruct Hpc as [-> | [-> | [-> | ->]]].
      * exists (AtReset b), EvSilent, (Winner w (AtReset b)). simpl stage_shared.
        rewrite step_lock_free by done.
        split; [done |]. split; [by rewrite app_nil_r |]. split; [done |].
        split; [simpl; auto |]. split; [simpl; by rewrite decide_True |].
        split; [| by left].
        intros tid' q Hne' Hq'. by apply (thread_ok_other b t (Winner w (AtLock b))).
      * exists (AtUnlock b), (EvReset b), (Winner w (AtUnlock b)). simpl stage_shared.
        rewrite step_reset by (by auto using wf_lock_bucket, wf_with_mostRecent).
        split; [done |]. split; [done |]. split; [done |].
        split; [simpl; auto |]. split; [simpl; by rewrite decide_True |].
        split; [| by left].
        intros tid' q Hne' Hq'. by apply (thread_ok_other b t (Winner w (AtReset b))).
      * exists Returned, EvSilent, (Winner w Returned). simpl stage_shared.
        rewrite step_unlock, unlock_reset_lock by done.
        split; [done |]. split; [by rewrite app_nil_r |]. split; [done |].
        split; [simpl; auto |]. split; [simpl; by rewrite decide_True |].
        split; [| by left].
        intros tid' q Hne' Hq'. by apply (thread_ok_other b t (Winner w (AtUnlock b))).
      * exists Returned, EvSilent, (Winner w Returned). simpl.
        split; [done |]. split; [done |]. split; [done |].
        split; [auto |]. split; [by rewrite decide_True |].
        split; [done | by left].
    + pose proof (config_stage_shared b t (Winner w pw)) as Hcfg.
      pose proof (wf_stage_shared b t (Winner w pw) Hwf Hb) as Hwf'.
      assert (Hkeep : forall p',
                bystander_ok b t (Winner w pw) p' ->
                (Winner w pw <> NobodyYet -> on_border b t = false) /\
                stage_pc_ok b (Winner w pw) /\
                thread_ok b t (Winner w pw) tid p' /\
                (forall tid' q, tid' <> tid ->
                   thread_ok b t (Winner w pw) tid' q -> thread_ok b t (Winner w pw) tid' q) /\
                ((w = tid /\ pw = p') \/ (w <> tid /\ Winner w pw = Winner w pw))).
      { intros p' Hp'. split; [done |]. split; [done |].
        split; [unfold thread_ok; by rewrite decide_False |].
        split; [done |]. right. split; [congruence | done]. }
      destruct p as [tick | b' | b' m | b' | b' | b' |]; simpl in Hok; try done.
      * exists (AtLoad b), EvSilent, (Winner w pw).
        rewrite step_entry by first [apply Hwf' | rewrite Hcfg; lia].
        unfold targetBucket. rewrite Hcfg. fold (targetBucket tick t). rewrite Hok.
        split; [done |]. split; [by rewrite app_nil_r |]. by apply Hkeep.
      * subst b'. exists Returned, EvSilent, (Winner w pw).
        rewrite step_load by (rewrite Hcfg; done).
        rewrite on_border_stage_shared.
        split; [done |]. split; [by rewrite app_nil_r |]. apply Hkeep. simpl. by right.
      * destruct Hok as (-> & -> & Hborder).
        exists (AtLoad b), EvCasFailure, (Winner w pw).
        rewrite step_cas_failure
          by (rewrite mostRecent_stage_shared; intros Heq;
              by apply (on_border_false_ne b t)).
        split; [done |]. split; [by rewrite app_nil_r |]. by apply Hkeep.
      * exists Returned, EvSilent, (Winner w pw). simpl thread_step.
        split; [done |]. split; [by rewrite app_nil_r |]. apply Hkeep. simpl. by right.
Qed.

Lemma significant_events_snoc tid e trace :
  significant_events (trace ++ [(tid, e)]) =
  significant_events trace ++ (if significant e then [(tid, e)] else []).
Proof.
  unfold significant_events. rewrite filter_app. f_equal.
  rewrite filter_cons, filter_nil. simpl.
  destruct (significant e); by destruct (decide _).
Qed.

Lemma race_run b t schedule :
  wf t -> quiescent t -> 0 <= b < numBuckets (config_ t) ->
  forall (s : system CMS BF) pre st,
    shared s = stage_shared b t st ->
    significant_events pre = stage_events b st ->
    (st <> NobodyYet -> on_border b t = false) ->
    stage_pc_ok b st ->
    (forall tid p, threads s !! tid = Some p -> thread_ok b t st tid p) ->
    (forall w pw, st = Winner w pw -> threads s !! w = Some pw) ->
    exists s' trace st',
      sys_run schedule s = Ok (s', trace) /\
      shared s' = stage_shared b t st' /\
      significant_events (pre ++ trace) = stage_events b st' /\
      (st' <> NobodyYet -> on_border b t = false) /\
      stage_pc_ok b st' /\
      (forall tid p, threads s' !! tid = Some p -> thread_ok b t st' tid p) /\
      (forall w pw, st' = Winner w pw -> threads s' !! w = Some pw) /\
      length (threads s') = length (threads s).
Proof.
  intros Hwf Hq Hb.
  induction schedule as [|tid schedule IH]; intros s pre st Hsh Hev Hneed Hpc Hth Hwin.
  - exists s, [], st. rewrite app_nil_r. done.
  - simpl. unfold sys_step.
    destruct (threads s !! tid) as [p|] eqn:Ep.
    + destruct (race_step b t st tid p Hwf Hq Hb Hneed Hpc (Hth tid p Ep))
        as (p' & e & st' & Hstep & Hev' & Hneed' & Hpc' & Hok' & Hothers & Htrack).
      rewrite Hsh, Hstep.
      destruct (IH {| shared := stage_shared b t st';
                      threads := <[tid := p']> (threads s) |}
                  (pre ++ [(tid, e)]) st')
        as (s' & trace & st'' & Hrun & Hrest); try done.
      { by rewrite significant_events_snoc, Hev, Hev'. }
      { intros tid' q Hq'. simpl in Hq'.
        apply list_lookup_insert_Some in Hq' as [(<- & <- & Hlt) | (Hne & Hq')];
          [done |]. apply Hothers; [done |]. by apply Hth. }
      { intros w pw ->. simpl.
        destruct Htrack as [[-> ->] | [Hne Hst]].
        - apply list_lookup_insert_eq. by apply lookup_lt_Some in Ep.
        - rewrite list_lookup_insert_ne by done. by apply Hwin. }
      rewrite Hrun. exists s', ([(tid, e)] ++ trace), st''.
      destruct Hrest as (? & ? & ? & ? & ? & ? & Hlen).
      rewrite app_assoc. simpl in Hlen. rewrite length_insert in Hlen. done.
    + destruct (IH s pre st) as (s' & trace & st' & Hrun & Hrest); try done.
      rewrite Hrun. by exists s', trace, st'.
Qed.

(** A thread on its own goes through the rotation check in at most six
    steps and leaves the state the sequential call leaves. *)
Lemma solo_run tick t :
  wf t -> quiescent t ->
  exists trace,
    sys_run (replicate 6 0%nat) {| shared := t; threads := [AtEntry tick] |} =
    Ok ({| shared := rotate tick t; threads := [Returned] |}, trace).
Proof.
  intros Hwf Hq. pose proof Hwf as [Hn Hd Hmr Hl Hic Hc Htk].
  assert (Ht : 0 <= targetBucket tick t < numBuckets (config_ t))
    by (apply targetBucket_range; lia).
  assert (Hlock : locks_ (with_mostRecent (targetBucket tick t) t)
                    !! Z.to_nat (targetBucket tick t) = Some Unlocked)
    by (by apply (quiescent_lookup _ (numBuckets (config_ t)) t)).
  unfold rotate. cbn [replicate sys_run]. unfold sys_step. cbn [threads shared lookup list_lookup].
  rewrite step_entry by first [done | lia]. cbn [threads shared lookup list_lookup insert list_insert].
  rewrite step_load by done.
  destruct (on_border (targetBucket tick t) t) eqn:Eb.
  - cbn. eauto.
  - cbn [threads shared lookup list_lookup insert list_insert].
    rewrite step_cas_success by done.
    cbn [threads shared lookup list_lookup insert list_insert].
    rewrite step_lock_free by done.
    cbn [threads shared lookup list_lookup insert list_insert].
    rewrite step_reset by (by auto using wf_lock_bucket, wf_with_mostRecent).
    cbn [threads shared lookup list_lookup insert list_insert].
    rewrite step_unlock, unlock_reset_lock by done.
    cbn. eauto.
Qed.

(** C1. The rotation check computes the target bucket as
    [(currentTick / numTicksPerBucket) mod numBuckets]; when the target is
    the shared most-recent index, or the bucket before it, the check returns
    and changes nothing; otherwise the shared index becomes the target and
    the target bucket's backend and raw counter are reset.  Among threads,
    the compare-and-swap from the value a thread read succeeds exactly when
    the shared index still is that value, and sends the thread back to the
    top of the loop otherwise; in every interleaving, every thread resets a
    bucket only after its own successful swap, that bucket, and once; and of
    threads that see the same target exactly one swaps and resets when a
    rotation is due (none otherwise), leaving the state one call alone
    leaves. *)
Theorem rotation_check_protocol :
  (forall (t : Tracker) tick,
     wf t -> quiescent t ->
     let target := (tick / numTicksPerBucket (config_ t)) mod numBuckets (config_ t) in
     getCurrentBucketIndex tick t = Ok (target, t) /\
     (target = mostRecentAccessedBucket_ t \/
      (target + 1) mod numBuckets (config_ t) = mostRecentAccessedBucket_ t ->
      updateMostRecentAccessedBucket tick t = Ok (tt, t)) /\
     (target <> mostRecentAccessedBucket_ t ->
      (target + 1) mod numBuckets (config_ t) <> mostRecentAccessedBucket_ t ->
      updateMostRecentAccessedBucket tick t =
      Ok (tt, reset_bucket target (with_mostRecent target t))) /\
     exists t' trace,
       updateMostRecentAccessedBucket tick t = Ok (tt, t') /\
       sys_run (replicate 6 0%nat) {| shared := t; threads := [AtEntry tick] |} =
       Ok ({| shared := t'; threads := [Returned] |}, trace)) /\
  (forall (t : Tracker) b m,
     (mostRecentAccessedBucket_ t = m ->
      thread_step (AtCas b m) t = Ok (AtLock b, EvCasSuccess b, with_mostRecent b t)) /\
     (mostRecentAccessedBucket_ t <> m ->
      thread_step (AtCas b m) t = Ok (AtLoad b, EvCasFailure, t))) /\
  (forall (t : Tracker) ticks schedule,
     wf t ->
     exists s' trace,
       sys_run schedule {| shared := t; threads := AtEntry <$> ticks |} = Ok (s', trace) /\
       forall tid p, threads s' !! tid = Some p ->
         thread_history_ok p (thread_events tid trace)) /\
  (forall (t : Tracker) tick ticks schedule,
     wf t -> quiescent t ->
     (forall tick', tick' ∈ ticks -> targetBucket tick' t = targetBucket tick t) ->
     exists s' trace,
       sys_run schedule {| shared := t; threads := AtEntry <$> ticks |} = Ok (s', trace) /\
       (significant_events trace = [] \/
        exists w,
          significant_events trace = [(w, EvCasSuccess (targetBucket tick t))] \/
          significant_events trace =
            [(w, EvCasSuccess (targetBucket tick t)); (w, EvReset (targetBucket tick t))]) /\
       (ticks <> [] -> (forall p, p ∈ threads s' -> p = Returned) ->
        updateMostRecentAccessedBucket tick t = Ok (tt, shared s') /\
        if on_border (targetBucket tick t) t
        then significant_events trace = []
        else exists w,
          significant_events trace =
            [(w, EvCasSuccess (targetBucket tick t)); (w, EvReset (targetBucket tick t))])).
Proof.
  split; [| split; [| split]].
  - intros t tick Hwf Hq target. pose proof Hwf as [Hn Hd Hmr Hl Hic Hc Htk].
    fold (targetBucket tick t) in target.
    split; [apply getCurrentBucketIndex_ok; first [done | lia] |].
    rewrite updateMostRecentAccessedBucket_ok by done. unfold rotate, on_border.
    fold target. split; [| split].
    + intros [Heq | Heq].
      * by rewrite (proj2 (Z.eqb_eq _ _) Heq).
      * rewrite (proj2 (Z.eqb_eq _ _) Heq). by rewrite orb_true_r.
    + intros Hne1 Hne2.
      by rewrite (proj2 (Z.eqb_neq _ _) Hne1), (proj2 (Z.eqb_neq _ _) Hne2).
    + destruct (solo_run tick t Hwf Hq) as [trace Hsolo]. by exists (rotate tick t), trace.
  - intros t b m. split; [apply step_cas_success | apply step_cas_failure].
  - intros t ticks schedule Hwf.
    destruct (sys_run_protocol (config_ t) schedule
                {| shared := t; threads := AtEntry <$> ticks |} [])
      as (s' & trace & Hrun & _ & _ & Hth); [done | done | |].
    { intros tid p Hp. simpl in Hp. rewrite list_lookup_fmap in Hp.
      destruct (ticks !! tid); inversion Hp. done. }
    exists s', trace. split; [done |]. intros tid p Hp. by apply Hth.
  - intros t tick ticks schedule Hwf Hq Hsame. pose proof Hwf as [Hn Hd Hmr Hl Hic Hc Htk].
    assert (Hb : 0 <= targetBucket tick t < numBuckets (config_ t))
      by (apply targetBucket_range; lia).
    destruct (race_run (targetBucket tick t) t schedule Hwf Hq Hb
                {| shared := t; threads := AtEntry <$> ticks |} [] NobodyYet)
      as (s' & trace & st & Hrun & Hsh & Hev & Hneed & Hpc & Hth & Hwin & Hlen);
      try done.
    { intros tid p Hp. simpl in Hp. rewrite list_lookup_fmap in Hp.
      destruct (ticks !! tid) as [tick'|] eqn:Et; inversion Hp. simpl.
      apply Hsame. by eapply list_elem_of_lookup_2. }
    exists s', trace. split; [done |]. simpl in Hev. split.
    + rewrite Hev. destruct st as [|w pw]; [by left |]. right. exists w.
      simpl in Hpc. destruct Hpc as [-> | [-> | [-> | ->]]]; simpl; auto.
    + intros Hne Hall. rewrite updateMostRecentAccessedBucket_ok by done.
      rewrite Hsh, Hev. unfold rotate.
      destruct st as [|w pw].
      * simpl in Hlen. rewrite length_fmap in Hlen.
        destruct (threads s') as [|p ps] eqn:Eth.
        { destruct ticks; [done | simpl in Hlen; lia]. }
        assert (Hp : p = Returned) by (apply Hall; by left).
        specialize (Hth 0%nat p eq_refl).
        subst p. simpl in Hth. destruct Hth as [Hborder | ?]; [| done].
        by rewrite Hborder.
      * rewrite (Hneed ltac:(done)).
        pose proof (Hwin w pw eq_refl) as Hw.
        assert (pw = Returned) as ->.
        { apply Hall. by eapply list_elem_of_lookup_2. }
        simpl. split; [done |]. by exists w.
Qed.

(** ** Sums of raw counters *)

Lemma sumZ_app (l1 l2 : list Z) : sumZ (l1 ++ l2) = sumZ l1 + sumZ l2.
Proof.
  unfold sumZ. induction l1 as [|x l1 IH]; [done |].
  cbn [app foldr]. rewrite IH. lia.
Qed.

Lemma sumZ_reverse (l : list Z) : sumZ (reverse l) = sumZ l.
Proof.
  induction l as [|x l IH]; [done |].
  rewrite reverse_cons, sumZ_app, IH. unfold sumZ. simpl. lia.
Qed.

(** The traversal from [start] reads the vector backwards from [start] to
    its first entry and then from its last entry down to the one after
    [start]. *)
Lemma traversal_shape (ic counts : list Z) (n start : Z) :
  1 <= n -> 0 <= start < n ->
  Z.of_nat (length ic) = n -> Z.of_nat (length counts) = n ->
  (forall k : nat, Z.of_nat k < n ->
     counts !! k = ic !! Z.to_nat ((start + n - Z.of_nat k) mod n)) ->
  counts = reverse (take (S (Z.to_nat start)) ic) ++ reverse (drop (S (Z.to_nat start)) ic).
Proof.
  intros Hn Hs Hic Hc Hpos. apply list_eq. intros k.
  destruct (decide (Z.of_nat k < n)) as [Hk | Hk].
  - rewrite (Hpos k Hk).
    destruct (decide (k < S (Z.to_nat start))%nat) as [Hlow | Hhigh].
    + rewrite lookup_app_l by (rewrite length_reverse, length_take; lia).
      rewrite reverse_lookup by (rewrite length_take; lia).
      rewrite length_take, lookup_take_lt by lia. f_equal.
      replace (start + n - Z.of_nat k) with (start - Z.of_nat k + 1 * n) by lia.
      rewrite Z.mod_add by lia. rewrite Z.mod_small by lia. lia.
    + rewrite lookup_app_r by (rewrite length_reverse, length_take; lia).
      rewrite length_reverse, length_take.
      rewrite reverse_lookup by (rewrite length_drop; lia).
      rewrite length_drop, lookup_drop. f_equal.
      rewrite Z.mod_small by lia. lia.
  - rewrite (proj2 (lookup_ge_None _ _)) by lia. symmetry.
    apply lookup_ge_None. rewrite length_app, !length_reverse, length_take, length_drop. lia.
Qed.

Lemma traversal_sum (ic counts : list Z) (n start : Z) :
  1 <= n -> 0 <= start < n ->
  Z.of_nat (length ic) = n -> Z.of_nat (length counts) = n ->
  (forall k : nat, Z.of_nat k < n ->
     counts !! k = ic !! Z.to_nat ((start + n - Z.of_nat k) mod n)) ->
  sumZ counts = sumZ ic.
Proof.
  intros Hn Hs Hic Hc Hpos.
  rewrite (traversal_shape ic counts n start) by done.
  rewrite sumZ_app, !sumZ_reverse, <- sumZ_app. by rewrite take_drop.
Qed.

Lemma sumZ_indicator (k : Z) (m : nat) :
  sumZ ((fun j : nat => if decide (Z.of_nat j = k) then 1 else 0) <$> seq 0 m) =
  if decide (0 <= k < Z.of_nat m) then 1 else 0.
Proof.
  induction m as [|m IH]; [by destruct (decide _); [lia |] |].
  rewrite seq_S, fmap_app, sumZ_app, IH. unfold sumZ. simpl.
  destruct (decide (Z.of_nat m = k)), (decide (0 <= k < Z.of_nat m)),
    (decide (0 <= k < Z.of_nat (S m))); lia.
Qed.

Lemma sumZ_fmap_add (f g : nat -> Z) (l : list nat) :
  sumZ ((fun j => f j + g j) <$> l) = sumZ (f <$> l) + sumZ (g <$> l).
Proof.
  induction l as [|x l IH]; [done |].
  rewrite !fmap_cons. unfold sumZ in *. cbn [foldr]. rewrite IH. lia.
Qed.

(** The buckets split the records of the spans after [from]. *)
Lemma sum_recordsInBucket (d n from : Z) (records : list Z) :
  1 <= n ->
  sumZ ((fun j : nat => Z.of_nat (length (recordsInBucket d n from (Z.of_nat j) records)))
          <$> seq 0 (Z.to_nat n)) =
  Z.of_nat (length (recordsAfter d from records)).
Proof.
  intros Hn. induction records as [|r records IH].
  - induction (seq 0 (Z.to_nat n)) as [|x l IHl]; [done |].
    rewrite fmap_cons. unfold sumZ in *. cbn [foldr]. by rewrite IHl.
  - unfold recordsAfter in *. rewrite filter_cons.
    rewrite (list_fmap_ext _
               (fun j : nat =>
                  Z.of_nat (length (recordsInBucket d n from (Z.of_nat j) records)) +
                  (if decide (Z.of_nat j = (if decide (from < r / d)
                                            then (r / d) mod n else -1))
                   then 1 else 0)) (seq 0 (Z.to_nat n))).
    + rewrite sumZ_fmap_add, IH, sumZ_indicator.
      pose proof (Z.mod_pos_bound (r / d) n ltac:(lia)) as Hm.
      destruct (decide (from < r / d)); destruct (decide (0 <= _ < _)); simpl; lia.
    + intros i j Hj. unfold recordsInBucket. rewrite filter_cons.
      destruct (decide (from < r / d)) as [Hr | Hr].
      * destruct (decide (Z.of_nat j = (r / d) mod n)) as [Heq | Hne].
        -- rewrite decide_True by done. simpl. lia.
        -- rewrite decide_False by (intros [_ ?]; congruence). lia.
      * rewrite decide_False by tauto. rewrite decide_False by lia. lia.
Qed.

(** ** Raw counters along a dense sequence of calls *)

Lemma filter_none {A} (P : A -> Prop) `{!forall x, Decision (P x)} (l : list A) :
  (forall x, x ∈ l -> ~ P x) -> filter P l = [].
Proof.
  induction l as [|x l IH]; intros Hl; [done |].
  rewrite filter_cons_False by (apply Hl; by left).
  apply IH. intros y Hy. apply Hl. by right.
Qed.

Lemma filter_agree {A} (P Q : A -> Prop)
    `{!forall x, Decision (P x), !forall x, Decision (Q x)} (l : list A) :
  (forall x, x ∈ l -> P x <-> Q x) -> filter P l = filter Q l.
Proof.
  induction l as [|x l IH]; intros Hl; [done |].
  rewrite !filter_cons. rewrite IH by (intros y Hy; apply Hl; by right).
  pose proof (Hl x ltac:(by left)) as Hx.
  destruct (decide (P x)), (decide (Q x)); tauto.
Qed.

Lemma span_not_entered n cur s :
  1 <= n -> s <= cur -> cur + 1 - n < s -> s mod n <> (cur + 1) mod n.
Proof.
  intros Hn Hle Hlt Heq.
  assert (Hz : (cur + 1 - s) mod n = 0).
  { rewrite Zminus_mod, Heq, Z.sub_diag. apply Z.mod_0_l. lia. }
  rewrite Z.mod_small in Hz by lia. lia.
Qed.

Lemma span_leaving n cur : 1 <= n -> (cur + 1 - n) mod n = (cur + 1) mod n.
Proof.
  intros Hn. replace (cur + 1 - n) with (cur + 1 + (-1) * n) by lia.
  apply Z.mod_add. lia.
Qed.

Lemma mostRecent_reset_bucket idx t :
  mostRecentAccessedBucket_ (reset_bucket idx t) = mostRecentAccessedBucket_ t.
Proof. unfold reset_bucket. by destruct (useCounts _). Qed.

Lemma itemCounts_reset_bucket idx t :
  itemCounts_ (reset_bucket idx t) = <[Z.to_nat idx := 0]> (itemCounts_ t).
Proof. unfold reset_bucket. by destruct (useCounts _). Qed.

Lemma mostRecent_bump_bucket idx hashVal t :
  mostRecentAccessedBucket_ (bump_bucket idx hashVal t) = mostRecentAccessedBucket_ t.
Proof. unfold bump_bucket. by destruct (useCounts _). Qed.

Lemma itemCounts_bump_bucket idx hashVal t :
  itemCounts_ (bump_bucket idx hashVal t) =
  alter (fun v => wrap64 (v + 1)) (Z.to_nat idx) (itemCounts_ t).
Proof. unfold bump_bucket. by destruct (useCounts _). Qed.

Lemma untouched_ctor cfg : wf_config cfg -> untouched cfg (AccessTrackerBase_ctor cfg).
Proof.
  intros Hcfg. pose proof Hcfg as [Hn Hd].
  split; [by apply wf_ctor |]. split; [apply quiescent_ctor |].
  split; [done |]. split; [done |].
  intros j Hj. simpl. apply lookup_replicate_2. lia.
Qed.

(** The first rotation check, on a tracker nobody has recorded on. *)
Lemma span_invariant_first cfg t tick :
  untouched cfg t ->
  (tick / numTicksPerBucket cfg + 1) mod numBuckets cfg <> 0 ->
  span_invariant cfg (rotate tick t) (tick / numTicksPerBucket cfg) [].
Proof.
  intros (Hwf & Hq & Hcfg & Hmr & Hcnt) Hfirst.
  pose proof Hwf as [Hn Hd Hmr' Hl Hic Hc Htk]. rewrite Hcfg in *.
  assert (Htarget : targetBucket tick t =
                    (tick / numTicksPerBucket cfg) mod numBuckets cfg)
    by (unfold targetBucket; by rewrite Hcfg).
  assert (Hrange : 0 <= targetBucket tick t < numBuckets cfg)
    by (rewrite Htarget; apply Z.mod_pos_bound; lia).
  split; [by apply wf_rotate |]. split; [by apply quiescent_rotate |].
  split; [by rewrite config_rotate |].
  destruct (decide (targetBucket tick t = 0)) as [E0 | E0].
  - assert (Hrot : rotate tick t = t).
    { unfold rotate, on_border. by rewrite Hmr, (proj2 (Z.eqb_eq _ _) E0). }
    rewrite Hrot, <- Htarget, E0.
    split; [done |]. split; [intros r Hr; by apply elem_of_nil in Hr |].
    intros j Hj. by rewrite (Hcnt j Hj).
  - assert (Hrot : rotate tick t =
                   reset_bucket (targetBucket tick t)
                     (with_mostRecent (targetBucket tick t) t)).
    { unfold rotate, on_border. rewrite Hcfg, Hmr.
      rewrite (proj2 (Z.eqb_neq _ _) E0).
      assert (Hnb : (targetBucket tick t + 1) mod numBuckets cfg <> 0)
        by (by rewrite Htarget, Zplus_mod_idemp_l).
      by rewrite (proj2 (Z.eqb_neq _ _) Hnb). }
    rewrite Hrot, mostRecent_reset_bucket, itemCounts_reset_bucket.
    split; [done |]. split; [intros r Hr; by apply elem_of_nil in Hr |].
    intros j Hj. simpl. destruct (decide (j = targetBucket tick t)) as [-> | Hne].
    + rewrite list_lookup_insert_eq by lia. done.
    + rewrite list_lookup_insert_ne by lia. by rewrite (Hcnt j Hj).
Qed.

Lemma span_invariant_same cfg t cur records tick :
  span_invariant cfg t cur records ->
  tick / numTicksPerBucket cfg = cur ->
  rotate tick t = t.
Proof.
  intros (Hwf & Hq & Hcfg & Hmr & Hrec & Hcnt) Hspan.
  unfold rotate, on_border, targetBucket. rewrite Hcfg, Hspan, Hmr.
  by rewrite Z.eqb_refl.
Qed.

Lemma span_invariant_next cfg t cur records tick :
  span_invariant cfg t cur records ->
  3 <= numBuckets cfg ->
  tick / numTicksPerBucket cfg = cur + 1 ->
  span_invariant cfg (rotate tick t) (cur + 1) records.
Proof.
  intros (Hwf & Hq & Hcfg & Hmr & Hrec & Hcnt) Hn3 Hspan.
  pose proof Hwf as [Hn Hd Hmr' Hl Hic Hc Htk]. rewrite Hcfg in *.
  set (n := numBuckets cfg) in *.
  assert (Htarget : targetBucket tick t = (cur + 1) mod n)
    by (unfold targetBucket; by rewrite Hcfg, Hspan).
  assert (Hnext : (cur + 1) mod n = (mostRecentAccessedBucket_ t + 1) mod n)
    by (by rewrite Hmr, Zplus_mod_idemp_l).
  assert (Hrot : rotate tick t =
                 reset_bucket ((cur + 1) mod n) (with_mostRecent ((cur + 1) mod n) t)).
  { unfold rotate, on_border. rewrite Htarget, Hcfg. fold n. rewrite Hnext.
    assert (H2 : 2 <= n) by lia.
    pose proof (succ_mod_ne _ _ H2 Hmr') as Hne1.
    pose proof (succ_succ_mod_ne _ _ Hn3 Hmr') as Hne2.
    by rewrite (proj2 (Z.eqb_neq _ _) Hne1), (proj2 (Z.eqb_neq _ _) Hne2). }
  assert (Hrange : 0 <= (cur + 1) mod n < n) by (apply Z.mod_pos_bound; lia).
  split; [by apply wf_rotate |]. split; [by apply quiescent_rotate |].
  split; [by rewrite config_rotate |]. split.
  { by rewrite Hrot, mostRecent_reset_bucket. }
  split.
  { intros r Hr. specialize (Hrec r Hr). lia. }
  intros j Hj.
  assert (Hic' : itemCounts_ (rotate tick t) =
                 <[Z.to_nat ((cur + 1) mod n) := 0]> (itemCounts_ t)).
  { by rewrite Hrot, itemCounts_reset_bucket. }
  rewrite Hic'. destruct (decide (j = (cur + 1) mod n)) as [-> | Hne].
  - rewrite list_lookup_insert_eq by lia. do 2 f_equal.
    unfold recordsInBucket. rewrite filter_none; [done |].
    intros r Hr [Hlt Heq]. specialize (Hrec r Hr).
    by apply (span_not_entered n cur (r / numTicksPerBucket cfg)); try lia.
  - rewrite list_lookup_insert_ne by lia. rewrite (Hcnt j Hj). do 3 f_equal.
    unfold recordsInBucket. apply filter_agree. intros r Hr.
    split; intros [Hlt Heq]; split; try done; try lia.
    destruct (decide (r / numTicksPerBucket cfg = cur + 1 - n)) as [Hedge | ?]; [| lia].
    rewrite Hedge, span_leaving in Heq by lia. congruence.
Qed.

Lemma span_invariant_record cfg t cur records tick hashVal :
  span_invariant cfg t cur records ->
  tick / numTicksPerBucket cfg = cur ->
  Z.of_nat (length records) + 1 < 2 ^ 64 ->
  span_invariant cfg (bump_bucket (mostRecentAccessedBucket_ t) hashVal t) cur
    (records ++ [tick]).
Proof.
  intros (Hwf & Hq & Hcfg & Hmr & Hrec & Hcnt) Hspan Hroom.
  pose proof Hwf as [Hn Hd Hmr' Hl Hic Hc Htk]. rewrite Hcfg in *.
  set (n := numBuckets cfg) in *.
  split; [by apply wf_bump_bucket |]. split; [by apply quiescent_bump_bucket |].
  split; [by rewrite config_bump_bucket |]. split.
  { by rewrite mostRecent_bump_bucket. }
  split.
  { intros r Hr. apply elem_of_app in Hr as [Hr | Hr]; [by apply Hrec |].
    apply list_elem_of_singleton in Hr as ->. lia. }
  intros j Hj.
  assert (Hic' : itemCounts_ (bump_bucket (mostRecentAccessedBucket_ t) hashVal t) =
                 alter (fun v => wrap64 (v + 1)) (Z.to_nat (mostRecentAccessedBucket_ t))
                   (itemCounts_ t)).
  { apply itemCounts_bump_bucket. }
  rewrite Hic'. unfold recordsInBucket. rewrite filter_app, length_app.
  fold (recordsInBucket (numTicksPerBucket cfg) n (cur - n) j records).
  destruct (decide (j = mostRecentAccessedBucket_ t)) as [-> | Hne].
  - rewrite list_lookup_alter_eq, (Hcnt _ Hmr'). simpl. f_equal.
    rewrite filter_cons_True by (rewrite Hspan; split; [lia | done]).
    rewrite filter_nil. simpl. subst n. unfold recordsInBucket.
    pose proof (length_filter
                  (fun r => cur - numBuckets cfg < r / numTicksPerBucket cfg /\
                            (r / numTicksPerBucket cfg) mod numBuckets cfg =
                            mostRecentAccessedBucket_ t)
                  records) as Hlen.
    rewrite wrap64_small by lia. lia.
  - rewrite list_lookup_alter_ne by lia. rewrite (Hcnt j Hj). subst n.
    rewrite filter_cons_False by (rewrite Hspan; intros [_ ?]; congruence).
    rewrite filter_nil. simpl. unfold recordsInBucket. do 2 f_equal. lia.
Qed.

Lemma span_invariant_rotate cfg t cur records tick :
  span_invariant cfg t cur records ->
  3 <= numBuckets cfg ->
  tick / numTicksPerBucket cfg = cur \/ tick / numTicksPerBucket cfg = cur + 1 ->
  span_invariant cfg (rotate tick t) (tick / numTicksPerBucket cfg) records.
Proof.
  intros Hinv Hn3 [Hsame | Hnext].
  - rewrite (span_invariant_same _ _ _ _ _ Hinv Hsame). by rewrite Hsame.
  - rewrite Hnext. by apply span_invariant_next.
Qed.

Lemma span_state_rotate cfg t cur records tick :
  span_state cfg t cur records ->
  3 <= numBuckets cfg ->
  match cur with
  | None => (tick / numTicksPerBucket cfg + 1) mod numBuckets cfg <> 0
  | Some c => tick / numTicksPerBucket cfg = c \/ tick / numTicksPerBucket cfg = c + 1
  end ->
  span_invariant cfg (rotate tick t) (tick / numTicksPerBucket cfg) records.
Proof.
  intros Hstate Hn3 Hstep. destruct cur as [c|]; simpl in Hstate.
  - by apply (span_invariant_rotate cfg t c).
  - destruct Hstate as [Hun ->]. by apply span_invariant_first.
Qed.

Lemma span_state_effects cfg :
  3 <= numBuckets cfg ->
  forall calls t cur records,
    span_state cfg t cur records ->
    dense (numTicksPerBucket cfg) (numBuckets cfg) cur calls ->
    Z.of_nat (length records + length calls) < 2 ^ 64 ->
    span_state cfg (effects calls t) (lastSpan (numTicksPerBucket cfg) cur calls)
      (records ++ recordTicks calls).
Proof.
  intros Hn3. induction calls as [|[tick o] calls IH]; intros t cur records Hinv Hdense Hroom.
  - simpl. by rewrite app_nil_r.
  - unfold effects in *. cbn [foldl]. simpl in Hroom.
    destruct o as [key | key | key |]; cbn [dense lastSpan checksRotation] in *.
    + destruct Hdense as [Hstep Hdense].
      pose proof (span_state_rotate _ _ _ _ _ Hinv Hn3 Hstep) as Hrot.
      replace (records ++ recordTicks ((tick, OpRecordAccess key) :: calls))
        with ((records ++ [tick]) ++ recordTicks calls) by (by rewrite <- app_assoc).
      apply IH; [| done | rewrite length_app; simpl; lia].
      apply span_invariant_record; [done | done | lia].
    + destruct Hdense as [Hstep Hdense].
      pose proof (span_state_rotate _ _ _ _ _ Hinv Hn3 Hstep) as Hrot.
      apply IH; [done | done | lia].
    + destruct Hdense as [Hstep Hdense].
      pose proof (span_state_rotate _ _ _ _ _ Hinv Hn3 Hstep) as Hrot.
      replace (records ++ recordTicks ((tick, OpRecordAndPopulateAccessFeatures key) :: calls))
        with ((records ++ [tick]) ++ recordTicks calls) by (by rewrite <- app_assoc).
      apply IH; [| done | rewrite length_app; simpl; lia].
      cbn [effect_of].
      rewrite (span_invariant_same _ _ _ _ _ Hrot eq_refl).
      apply span_invariant_record; [done | done | lia].
    + apply IH; [done | done | lia].
Qed.

Lemma itemCounts_of_span_invariant cfg t cur records :
  span_invariant cfg t cur records ->
  itemCounts_ t =
  (fun j : nat =>
     Z.of_nat (length (recordsInBucket (numTicksPerBucket cfg) (numBuckets cfg)
                         (cur - numBuckets cfg) (Z.of_nat j) records)))
    <$> seq 0 (Z.to_nat (numBuckets cfg)).
Proof.
  intros (Hwf & Hq & Hcfg & Hmr & Hrec & Hcnt).
  pose proof Hwf as [Hn Hd Hmr' Hl Hic Hc Htk]. rewrite Hcfg in *.
  apply list_eq. intros k. rewrite list_lookup_fmap.
  destruct (decide (Z.of_nat k < numBuckets cfg)) as [Hk | Hk].
  - rewrite lookup_seq_lt by lia. simpl.
    specialize (Hcnt (Z.of_nat k) ltac:(lia)). by rewrite Nat2Z.id in Hcnt.
  - rewrite lookup_seq_ge by lia. simpl. apply lookup_ge_None. lia.
Qed.

(** C4, as amended. On a ring of at least three buckets, when the first call
    that runs the rotation check is not made in a span of the last bucket
    and no later such call skips a span, the sum of
    [getRotatedAccessCounts] is the number of [recordAccess] calls made in
    the span of the last such call and the [numBuckets - 1] spans before it;
    all of these were made less than [numBuckets * numTicksPerBucket] ticks
    before any tick of that last span.  Before any such call the sum is
    zero. *)
Theorem raw_counts_of_recent_spans config calls now :
  wf_config config ->
  3 <= numBuckets config <= 2 ^ 63 ->
  dense (numTicksPerBucket config) (numBuckets config) None calls ->
  Z.of_nat (length calls) < 2 ^ 64 ->
  exists (t : Tracker) counts,
    run calls (AccessTrackerBase_ctor config) = Ok (tt, t) /\
    getRotatedAccessCounts now t = Ok (counts, t) /\
    match lastSpan (numTicksPerBucket config) None calls with
    | None => recordTicks calls = [] /\ sumZ counts = 0
    | Some last =>
        sumZ counts =
          Z.of_nat (length (recordsAfter (numTicksPerBucket config)
                              (last - numBuckets config) (recordTicks calls))) /\
        forall r lastTick,
          r ∈ recordsAfter (numTicksPerBucket config) (last - numBuckets config)
                (recordTicks calls) ->
          lastTick / numTicksPerBucket config = last ->
          lastTick - r < numBuckets config * numTicksPerBucket config
    end.
Proof.
  intros Hcfg Hn3 Hdense Hroom. pose proof Hcfg as [Hn Hd].
  destruct (run_ok calls (AccessTrackerBase_ctor config))
    as (Hrun & Hwf & Hq & Hconfig); [by apply wf_ctor | apply quiescent_ctor |].
  pose proof (span_state_effects config ltac:(lia) calls _ None []
                (conj (untouched_ctor config Hcfg) eq_refl) Hdense Hroom) as Hstate.
  rewrite app_nil_l in Hstate. simpl in Hconfig.
  set (t := effects calls (AccessTrackerBase_ctor config)) in *. clearbody t.
  destruct (getRotatedAccessCounts_ok now t Hwf Hq) as (counts & Hget & Hlen & Hpos).
  exists t, counts. split; [done |]. split; [done |].
  pose proof Hwf as [_ _ _ _ Hiclen _ _].
  assert (Ht : 0 <= targetBucket now t < numBuckets (config_ t))
    by (apply targetBucket_range; rewrite Hconfig; lia).
  assert (Hidx : forall k : nat, Z.of_nat k < numBuckets (config_ t) ->
            ringIndex (targetBucket now t) (Z.of_nat k) t =
            (targetBucket now t + numBuckets (config_ t) - Z.of_nat k)
              mod numBuckets (config_ t)).
  { intros k Hk. apply ringIndex_no_wrap;
      [rewrite Hconfig; lia | unfold ring_fits; rewrite Hconfig; lia | done | lia]. }
  assert (Hsum : sumZ counts = sumZ (itemCounts_ t)).
  { apply (traversal_sum (itemCounts_ t) counts (numBuckets (config_ t))
             (targetBucket now t));
      [rewrite Hconfig; lia | done | done | done
       | intros k Hk; by rewrite (Hpos k Hk), (Hidx k Hk) ]. }
  destruct (lastSpan (numTicksPerBucket config) None calls) as [last|]; simpl in Hstate.
  - split.
    + rewrite Hsum, (itemCounts_of_span_invariant _ _ _ _ Hstate).
      apply sum_recordsInBucket. lia.
    + intros r lastTick Hr Hlast. unfold recordsAfter in Hr.
      apply list_elem_of_filter in Hr as [Hr _].
      set (d := numTicksPerBucket config) in *.
      set (n := numBuckets config) in *.
      pose proof (Z.div_mod r d ltac:(lia)) as Hr1.
      pose proof (Z.mod_pos_bound r d ltac:(lia)) as Hr2.
      pose proof (Z.div_mod lastTick d ltac:(lia)) as Hl1.
      pose proof (Z.mod_pos_bound lastTick d ltac:(lia)) as Hl2.
      rewrite Hlast in Hl1. nia.
  - destruct Hstate as [(_ & _ & _ & _ & Hcnt) Hrec]. split; [done |].
    rewrite Hsum.
    assert (Hall : itemCounts_ t = replicate (Z.to_nat (numBuckets config)) 0).
    { apply list_eq. intros k.
      destruct (decide (Z.of_nat k < numBuckets config)) as [Hk | Hk].
      - rewrite lookup_replicate_2 by lia.
        specialize (Hcnt (Z.of_nat k) ltac:(lia)). by rewrite Nat2Z.id in Hcnt.
      - rewrite !(proj2 (lookup_ge_None _ _)); [done | rewrite length_replicate; lia |].
        rewrite Hconfig in Hiclen. lia. }
    rewrite Hall, sumZ_replicate. lia.
Qed.

End Properties.

(** * Further properties of the member functions *)

Section Compositions.

Context {CMS BF : Type}.
Context `{!CountMinSketchOps CMS, !BloomFilterOps BF, !SpookyHashV2}.

Local Abbreviation Tracker := (AccessTrackerBase CMS BF).
Implicit Types t : Tracker.

Local Ltac unfold_monad :=
  unfold bind, ret, gets, modify, raise, index, at_ in *.

Lemma counts_bump_bucket idx hashVal t :
  counts_ (bump_bucket idx hashVal t) =
  if useCounts (config_ t)
  then alter (cms_increment hashVal) (Z.to_nat idx) (counts_ t)
  else counts_ t.
Proof. unfold bump_bucket. by destruct (useCounts _). Qed.

Lemma filters_bump_bucket idx hashVal t :
  filters_ (bump_bucket idx hashVal t) =
  if useCounts (config_ t) then filters_ t else bf_set idx hashVal (filters_ t).
Proof. unfold bump_bucket. by destruct (useCounts _). Qed.

Lemma locks_bump_bucket idx hashVal t :
  locks_ (bump_bucket idx hashVal t) = locks_ t.
Proof. unfold bump_bucket. by destruct (useCounts _). Qed.

Lemma locks_rotate tick t : locks_ (rotate tick t) = locks_ t.
Proof.
  unfold rotate. destruct (on_border _ t); [done |].
  unfold reset_bucket. by destruct (useCounts _).
Qed.

(** X1. [recordAccess] returns on every well-formed tracker.  After the
    rotation check it starts with, it adds one (modulo [2^64]) to the raw
    counter of the bucket the shared index names, records the key's hash in
    that bucket's backend, and leaves the shared index, the locks, the
    configuration and every other bucket's raw counter and sketch as the
    rotation check left them. *)
Theorem recordAccess_effect tick key t :
  wf t -> quiescent t ->
  exists (t0 t' : Tracker) idx old,
    updateMostRecentAccessedBucket tick t = Ok (tt, t0) /\
    recordAccess tick key t = Ok (tt, t') /\
    idx = mostRecentAccessedBucket_ t0 /\
    mostRecentAccessedBucket_ t' = idx /\
    itemCounts_ t0 !! Z.to_nat idx = Some old /\
    itemCounts_ t' !! Z.to_nat idx = Some (wrap64 (old + 1)) /\
    (forall j : nat, j <> Z.to_nat idx ->
       itemCounts_ t' !! j = itemCounts_ t0 !! j /\ counts_ t' !! j = counts_ t0 !! j) /\
    (if useCounts (config_ t)
     then counts_ t' !! Z.to_nat idx =
            cms_increment (hashOf key) <$> counts_ t0 !! Z.to_nat idx /\
          filters_ t' = filters_ t0
     else filters_ t' = bf_set idx (hashOf key) (filters_ t0) /\
          counts_ t' = counts_ t0) /\
    locks_ t' = locks_ t /\ config_ t' = config_ t.
Proof.
  intros Hwf Hq.
  pose proof (wf_rotate tick t Hwf) as Hwf0. pose proof Hwf0 as [Hn _ Hmr _ Hic _ _].
  destruct (lookup_in_range _ _ _ Hic Hmr) as [old Hold].
  exists (rotate tick t),
    (bump_bucket (mostRecentAccessedBucket_ (rotate tick t)) (hashOf key) (rotate tick t)),
    (mostRecentAccessedBucket_ (rotate tick t)), old.
  split; [by apply updateMostRecentAccessedBucket_ok |].
  split; [by apply recordAccess_ok |]. split; [done |].
  split; [apply mostRecent_bump_bucket |]. split; [done |].
  split; [by rewrite itemCounts_bump_bucket, list_lookup_alter_eq, Hold |].
  split.
  { intros j Hj. rewrite itemCounts_bump_bucket, counts_bump_bucket.
    rewrite list_lookup_alter_ne by done. split; [done |].
    destruct (useCounts _); [by rewrite list_lookup_alter_ne | done]. }
  split.
  { rewrite counts_bump_bucket, filters_bump_bucket, config_rotate.
    destruct (useCounts (config_ t)); [| done].
    split; [apply list_lookup_alter_eq | done]. }
  split; [by rewrite locks_bump_bucket, locks_rotate |].
  by rewrite config_bump_bucket, config_rotate.
Qed.

(** X2. [getAccesses] writes nothing but what its rotation check writes:
    when the tick's bucket is on the border of the shared index it leaves the
    tracker exactly as it was, and a second call at the same tick always
    does; for the same key the second call returns the same vector. *)
Theorem getAccesses_again tick key key' t :
  wf t -> quiescent t ->
  exists features (t' : Tracker),
    getAccesses tick key t = Ok (features, t') /\
    getAccesses tick key t' = Ok (features, t') /\
    (exists features', getAccesses tick key' t' = Ok (features', t')) /\
    (on_border (targetBucket tick t) t = true -> t' = t).
Proof.
  intros Hwf Hq.
  pose proof (wf_rotate tick t Hwf) as Hwf'.
  pose proof (quiescent_rotate tick t Hq) as Hq'.
  destruct (getAccesses_ok tick key t Hwf Hq) as (features & Hget & Hlen & Hpos).
  destruct (getAccesses_ok tick key (rotate tick t) Hwf' Hq')
    as (features2 & Hget2 & Hlen2 & Hpos2).
  destruct (getAccesses_ok tick key' (rotate tick t) Hwf' Hq')
    as (features3 & Hget3 & _).
  rewrite rotate_idem in *. rewrite config_rotate in *.
  exists features, (rotate tick t). split; [done |]. split; [| split].
  - rewrite Hget2. do 2 f_equal. apply list_eq. intros k.
    destruct (decide (Z.of_nat k < numBuckets (config_ t))) as [Hk | Hk].
    + by rewrite (Hpos k Hk), (Hpos2 k Hk).
    + rewrite !(proj2 (lookup_ge_None _ _)); [done | lia | lia].
  - by exists features3.
  - intros Hb. unfold rotate. by rewrite Hb.
Qed.

(** X3. When the tracker uses membership filters ([useCounts] false), every
    entry of the vector [getAccesses] returns is [0] or [1]. *)
Theorem filter_features_are_bits tick key t :
  wf t -> quiescent t -> useCounts (config_ t) = false ->
  exists features (t' : Tracker),
    getAccesses tick key t = Ok (features, t') /\
    forall v, v ∈ features -> v = 0 \/ v = 1.
Proof.
  intros Hwf Hq Huc.
  destruct (getAccesses_ok tick key t Hwf Hq) as (features & Hget & Hlen & Hpos).
  exists features, (rotate tick t). split; [done |].
  intros v Hv. apply list_elem_of_lookup in Hv as [k Hk].
  assert (Hlt : Z.of_nat k < numBuckets (config_ t)).
  { apply lookup_lt_Some in Hk. lia. }
  rewrite (Hpos k Hlt) in Hk. unfold bucketEstimate in Hk.
  rewrite config_rotate, Huc in Hk.
  destruct (bf_couldExist _ _ _); inversion Hk; auto.
Qed.

(** X4. A tracker built from a configuration with at least one bucket and one
    tick per bucket starts with the shared index at bucket [0] and with every
    raw counter at zero: [getRotatedAccessCounts] returns [numBuckets] zeros
    at any tick.  [getNumBuckets] is the configured number, and stays so
    after any sequence of public calls, as does the whole configuration. *)
Theorem new_tracker_is_empty config tick calls :
  wf_config config ->
  mostRecentAccessedBucket_ (AccessTrackerBase_ctor (CMS := CMS) (BF := BF) config) = 0 /\
  getRotatedAccessCounts tick (AccessTrackerBase_ctor config) =
    Ok (replicate (Z.to_nat (numBuckets config)) 0,
        AccessTrackerBase_ctor (CMS := CMS) (BF := BF) config) /\
  exists t : Tracker,
    run calls (AccessTrackerBase_ctor config) = Ok (tt, t) /\
    config_ t = config /\ getNumBuckets t = numBuckets config.
Proof.
  intros Hcfg. pose proof Hcfg as [Hn Hd].
  pose proof (wf_ctor (CMS := CMS) (BF := BF) config Hcfg) as Hwf.
  pose proof (quiescent_ctor (CMS := CMS) (BF := BF) config) as Hq.
  split; [done |]. split.
  - destruct (getRotatedAccessCounts_ok tick _ Hwf Hq) as (counts & Hget & Hlen & Hpos).
    rewrite Hget. do 2 f_equal. apply list_eq. intros k. simpl in *.
    destruct (decide (Z.of_nat k < numBuckets config)) as [Hk | Hk].
    + rewrite (Hpos k Hk), !lookup_replicate_2; [done | lia |].
      pose proof (ringIndex_range (targetBucket tick (AccessTrackerBase_ctor config))
                    (Z.of_nat k) (AccessTrackerBase_ctor (CMS := CMS) (BF := BF) config)
                    ltac:(simpl; lia)) as Hr.
      simpl in Hr. lia.
    + rewrite !(proj2 (lookup_ge_None _ _)); [done | rewrite length_replicate; lia | lia].
  - destruct (run_ok calls _ Hwf Hq) as (Hrun & _ & _ & Hconfig).
    eexists. split; [exact Hrun |]. split; [done |].
    unfold getNumBuckets. by rewrite Hconfig.
Qed.

(** ** Rings of one or two buckets *)

Lemma on_border_small_ring target t :
  wf t -> numBuckets (config_ t) <= 2 -> 0 <= target < numBuckets (config_ t) ->
  on_border target t = true.
Proof.
  intros [Hn _ Hmr _ _ _ _] Hsmall Ht. unfold on_border.
  destruct (decide (target = mostRecentAccessedBucket_ t)) as [-> | Hne].
  - by rewrite Z.eqb_refl.
  - assert (Hn2 : numBuckets (config_ t) = 2) by lia.
    apply orb_true_iff. right. apply Z.eqb_eq. rewrite Hn2 in *.
    assert (Hcases : (target = 0 /\ mostRecentAccessedBucket_ t = 1) \/
                     (target = 1 /\ mostRecentAccessedBucket_ t = 0)) by lia.
    destruct Hcases as [[-> ->] | [-> ->]]; reflexivity.
Qed.

Lemma rotate_small_ring tick t :
  wf t -> numBuckets (config_ t) <= 2 -> rotate tick t = t.
Proof.
  intros Hwf Hsmall. unfold rotate.
  rewrite on_border_small_ring; try done.
  apply targetBucket_range. by destruct Hwf as [[? ?]].
Qed.

Lemma small_ring_effects cfg calls : forall t (N : Z),
  wf t -> quiescent t -> config_ t = cfg -> numBuckets cfg <= 2 ->
  mostRecentAccessedBucket_ t = 0 ->
  itemCounts_ t = <[0%nat := N]> (replicate (Z.to_nat (numBuckets cfg)) 0) ->
  0 <= N -> N + Z.of_nat (length calls) < 2 ^ 64 ->
  mostRecentAccessedBucket_ (effects calls t) = 0 /\
  itemCounts_ (effects calls t) =
    <[0%nat := N + Z.of_nat (length (recordTicks calls))]>
      (replicate (Z.to_nat (numBuckets cfg)) 0).
Proof.
  induction calls as [|[tick o] calls IH]; intros t N Hwf Hq Hcfg Hsmall Hmr Hic HN Hroom.
  - simpl. by rewrite Z.add_0_r.
  - unfold effects in *. cbn [foldl]. simpl in Hroom.
    assert (Hrot : forall tick', rotate tick' t = t)
      by (intros tick'; apply rotate_small_ring; [done | by rewrite Hcfg]).
    assert (Hbump : forall hashVal,
              itemCounts_ (bump_bucket (mostRecentAccessedBucket_ t) hashVal t) =
              <[0%nat := N + 1]> (replicate (Z.to_nat (numBuckets cfg)) 0)).
    { intros hashVal. rewrite itemCounts_bump_bucket, Hmr, Hic. simpl.
      pose proof Hwf as [Hn _ _ _ _ _ _]. rewrite Hcfg in Hn.
      destruct (Z.to_nat (numBuckets cfg)) as [|n'] eqn:En; [lia |].
      simpl. f_equal. apply wrap64_small. lia. }
    destruct o as [key | key | key |]; cbn [effect_of]; rewrite ?Hrot.
    + destruct (IH (bump_bucket (mostRecentAccessedBucket_ t) (hashOf key) t) (N + 1))
        as [Hmr' Hic']; try done; try lia.
      * by apply wf_bump_bucket.
      * by apply quiescent_bump_bucket.
      * by rewrite config_bump_bucket.
      * by rewrite mostRecent_bump_bucket.
      * split; [done |]. rewrite Hic'. simpl. f_equal. lia.
    + destruct (IH t N) as [Hmr' Hic']; try done; try lia.
    + destruct (IH (bump_bucket (mostRecentAccessedBucket_ t) (hashOf key) t) (N + 1))
        as [Hmr' Hic']; try done; try lia.
      * by apply wf_bump_bucket.
      * by apply quiescent_bump_bucket.
      * by rewrite config_bump_bucket.
      * by rewrite mostRecent_bump_bucket.
      * split; [done |]. rewrite Hic'. simpl. f_equal. lia.
    + destruct (IH t N) as [Hmr' Hic']; try done; try lia.
Qed.

(** X5. On a ring of one or two buckets every tick is on the border of the
    shared index: the rotation check never changes the tracker, no bucket is
    ever reset, every access is recorded in bucket [0], and the sum of
    [getRotatedAccessCounts] is the number of all [recordAccess] calls ever
    made, whatever the ticks. *)
Theorem small_ring_never_rotates config calls now :
  wf_config config -> numBuckets config <= 2 ->
  Z.of_nat (length calls) < 2 ^ 64 ->
  exists (t : Tracker) counts,
    run calls (AccessTrackerBase_ctor config) = Ok (tt, t) /\
    (forall tick, updateMostRecentAccessedBucket tick t = Ok (tt, t)) /\
    mostRecentAccessedBucket_ t = 0 /\
    itemCounts_ t !! 0%nat = Some (Z.of_nat (length (recordTicks calls))) /\
    getRotatedAccessCounts now t = Ok (counts, t) /\
    sumZ counts = Z.of_nat (length (recordTicks calls)).
Proof.
  intros Hcfg Hsmall Hroom. pose proof Hcfg as [Hn Hd].
  destruct (run_ok calls (AccessTrackerBase_ctor config))
    as (Hrun & Hwf & Hq & Hconfig); [by apply wf_ctor | apply quiescent_ctor |].
  destruct (small_ring_effects config calls (AccessTrackerBase_ctor config) 0)
    as [Hmr Hic]; try done; try lia.
  { by apply wf_ctor. } { apply quiescent_ctor. }
  { simpl. by rewrite insert_replicate. }
  simpl in Hconfig. rewrite Z.add_0_l in Hic.
  set (t := effects calls (AccessTrackerBase_ctor config)) in *. clearbody t.
  destruct (getRotatedAccessCounts_ok now t Hwf Hq) as (counts & Hget & Hlen & Hpos).
  exists t, counts. split; [done |]. split.
  { intros tick. rewrite updateMostRecentAccessedBucket_ok by done.
    rewrite rotate_small_ring; [done | done | by rewrite Hconfig]. }
  split; [done |]. split.
  { rewrite Hic. apply list_lookup_insert_eq. rewrite length_replicate. lia. }
  split; [done |].
  pose proof Hwf as [_ _ _ _ Hiclen _ _].
  assert (Ht : 0 <= targetBucket now t < numBuckets (config_ t))
    by (apply targetBucket_range; rewrite Hconfig; lia).
  rewrite (traversal_sum (itemCounts_ t) counts (numBuckets (config_ t))
             (targetBucket now t));
    [ | rewrite Hconfig; lia | done | done | done | ].
  - rewrite Hic. destruct (Z.to_nat (numBuckets config)) as [|n'] eqn:En; [lia |].
    simpl. unfold sumZ. simpl. fold (sumZ (replicate n' 0)).
    rewrite sumZ_replicate. lia.
  - intros k Hk. rewrite (Hpos k Hk). do 2 f_equal.
    apply ringIndex_no_wrap;
      [rewrite Hconfig; lia | unfold ring_fits; rewrite Hconfig; lia | done | lia].
Qed.

(** ** The two objects after a move *)

(** X6. The object a tracker was moved from keeps the scalar fields of its
    configuration, so [getNumBuckets] still returns the number of buckets,
    but its ticker pointer is null and it has no lock and no sketch left:
    [recordAccess], [getAccesses], [recordAndPopulateAccessFeatures] and
    [getRotatedAccessCounts] each poll the ticker through the null pointer,
    before they reach any bucket. *)
Theorem moved_from_is_unusable tick tick' key t :
  getNumBuckets (AccessTrackerBase_move t).2 = getNumBuckets t /\
  config_ticker (AccessTrackerBase_move t).2 = NullTicker /\
  locks_ (AccessTrackerBase_move t).2 = [] /\
  counts_ (AccessTrackerBase_move t).2 = [] /\
  recordAccess tick key (AccessTrackerBase_move t).2 = Fault NullPointerDereference /\
  getAccesses tick key (AccessTrackerBase_move t).2 = Fault NullPointerDereference /\
  recordAndPopulateAccessFeatures tick tick' key (AccessTrackerBase_move t).2 =
    Fault NullPointerDereference /\
  getRotatedAccessCounts tick (AccessTrackerBase_move t).2 = Fault NullPointerDereference.
Proof.
  set (src := (AccessTrackerBase_move t).2).
  assert (Hidx : getCurrentBucketIndex tick src = Fault NullPointerDereference) by done.
  assert (Hcheck : updateMostRecentAccessedBucket tick src = Fault NullPointerDereference)
    by (unfold updateMostRecentAccessedBucket; unfold_monad; by rewrite Hidx).
  assert (Hget : getAccesses tick key src = Fault NullPointerDereference)
    by (unfold getAccesses; unfold_monad; by rewrite Hcheck).
  split; [done |]. split; [done |]. split; [done |]. split; [done |].
  split; [| split; [done | split]].
  - unfold recordAccess. unfold_monad. by rewrite Hcheck.
  - unfold recordAndPopulateAccessFeatures. unfold_monad. by rewrite Hget.
  - unfold getRotatedAccessCounts. unfold_monad. by rewrite Hidx.
Qed.

Lemma getAccesses_loop_without_counters (ic : list Z) start hashVal :
  forall todo i features t,
    getAccesses_loop todo i start hashVal features (with_itemCounts ic t) =
    match getAccesses_loop todo i start hashVal features t with
    | Ok (r, t') => Ok (r, with_itemCounts ic t')
    | Fault f => Fault f
    end.
Proof.
  induction todo as [|todo IH]; intros i features t; [done |].
  simpl. unfold rotatedIdx, LockHolder, getBucketAccessCountLocked. unfold_monad. simpl.
  destruct (numBuckets (config_ t) =? 0); [done |].
  change (locks_ (with_itemCounts ic t)) with (locks_ t).
  destruct (locks_ t !! _) as [[|]|]; try done.
  change (config_ (with_itemCounts ic t)) with (config_ t).
  destruct (useCounts (config_ t)).
  - change (counts_ (with_locks ?l (with_itemCounts ic t))) with (counts_ t).
    cbn [counts_ with_locks]. destruct (counts_ t !! _); [| done].
    match goal with
    | |- _ = match getAccesses_loop _ _ _ _ _ ?u with _ => _ end => exact (IH _ _ u)
    end.
  - match goal with
    | |- _ = match getAccesses_loop _ _ _ _ _ ?u with _ => _ end => exact (IH _ _ u)
    end.
Qed.

(** X7. The object a tracker was moved to has the sketches, the filter bank
    and the shared index of the source: as long as no rotation is due,
    [getAccesses] returns on it what it returned on the source.  When a
    rotation is due, the reset of the raw counter indexes the empty
    [itemCounts_] and the call does not return. *)
Theorem moved_to_reads tick key t :
  wf t -> quiescent t ->
  (on_border (targetBucket tick t) t = true ->
   exists features,
     getAccesses tick key t = Ok (features, t) /\
     getAccesses tick key (AccessTrackerBase_move t).1 =
       Ok (features, (AccessTrackerBase_move t).1)) /\
  (on_border (targetBucket tick t) t = false ->
   getAccesses tick key (AccessTrackerBase_move t).1 = Fault IndexOutOfBounds).
Proof.
  intros Hwf Hq. pose proof Hwf as [Hn Hd Hmr Hl Hic Hc Htk].
  set (dest := (AccessTrackerBase_move t).1).
  assert (Ht : 0 <= targetBucket tick t < numBuckets (config_ t))
    by (apply targetBucket_range; lia).
  assert (Hcheck : updateMostRecentAccessedBucket tick dest =
                   if on_border (targetBucket tick t) t then Ok (tt, dest)
                   else Fault IndexOutOfBounds).
  { unfold updateMostRecentAccessedBucket. unfold_monad.
    rewrite getCurrentBucketIndex_ok by (simpl; first [done | lia]).
    change (targetBucket tick dest) with (targetBucket tick t).
    rewrite updateMostRecentAccessedBucket_loop_unfold by done.
    change (on_border (targetBucket tick t) dest) with (on_border (targetBucket tick t) t).
    destruct (on_border (targetBucket tick t) t); [done |].
    rewrite LockHolder_fault with (f := IndexOutOfBounds); [done | |].
    - by apply (quiescent_lookup _ (numBuckets (config_ t)) t).
    - by apply resetBucketLocked_no_counters. }
  split.
  - intros Hb.
    destruct (getAccesses_ok tick key t Hwf Hq) as (features & Hget & _).
    assert (Hrot : rotate tick t = t) by (unfold rotate; by rewrite Hb).
    rewrite Hrot in Hget. exists features. split; [done |].
    unfold getAccesses in *. unfold_monad. rewrite Hcheck, Hb.
    rewrite updateMostRecentAccessedBucket_ok, Hrot in Hget by done.
    change dest with (with_itemCounts [] t).
    rewrite getAccesses_loop_without_counters. simpl in *. by rewrite Hget.
  - intros Hb. unfold getAccesses. unfold_monad. by rewrite Hcheck, Hb.
Qed.

(** ** Raw counts around a record *)

Lemma sumZ_insert (l : list Z) (i : nat) (x old : Z) :
  l !! i = Some old -> sumZ (<[i := x]> l) = sumZ l - old + x.
Proof.
  revert i. induction l as [|y l IH]; intros [|i] Hl; simpl in *; try done.
  - inversion Hl. unfold sumZ. simpl. lia.
  - specialize (IH i Hl). unfold sumZ in *. simpl. lia.
Qed.

(** X8. An access made on the border is attributed to the bucket after the
    tick's own: when the shared index is one bucket ahead of the bucket of
    the tick, [recordAccess] at that tick counts in the bucket of the shared
    index, so [getRotatedAccessCounts] at the same tick shows the access at
    its last position, [numBuckets - 1], and not at position [0]. *)
Theorem border_record_position tick key t :
  wf t -> quiescent t -> ring_fits t ->
  2 <= numBuckets (config_ t) ->
  (targetBucket tick t + 1) mod numBuckets (config_ t) = mostRecentAccessedBucket_ t ->
  exists (t' : Tracker) counts old,
    recordAccess tick key t = Ok (tt, t') /\
    getRotatedAccessCounts tick t' = Ok (counts, t') /\
    itemCounts_ t !! Z.to_nat (mostRecentAccessedBucket_ t) = Some old /\
    counts !! Z.to_nat (numBuckets (config_ t) - 1) = Some (wrap64 (old + 1)) /\
    counts !! 0%nat = itemCounts_ t !! Z.to_nat (targetBucket tick t).
Proof.
  intros Hwf Hq Hfit Hn2 Hborder. pose proof Hwf as [Hn Hd Hmr Hl Hic Hc Htk].
  assert (Ht : 0 <= targetBucket tick t < numBuckets (config_ t))
    by (apply targetBucket_range; lia).
  assert (Hrot : rotate tick t = t).
  { unfold rotate, on_border.
    rewrite (proj2 (Z.eqb_eq _ _) Hborder). by rewrite orb_true_r. }
  set (t' := bump_bucket (mostRecentAccessedBucket_ t) (hashOf key) t).
  assert (Hrec : recordAccess tick key t = Ok (tt, t'))
    by (rewrite recordAccess_ok by done; by rewrite Hrot).
  assert (Hwf' : wf t') by (by apply wf_bump_bucket).
  assert (Hq' : quiescent t') by (by apply quiescent_bump_bucket).
  assert (Hcfg' : config_ t' = config_ t) by apply config_bump_bucket.
  destruct (getRotatedAccessCounts_ok tick t' Hwf' Hq') as (counts & Hget & Hlen & Hpos).
  destruct (lookup_in_range _ _ _ Hic Hmr) as [old Hold].
  assert (Hne : targetBucket tick t <> mostRecentAccessedBucket_ t).
  { rewrite <- Hborder. intros Heq. by apply (succ_mod_ne _ _ Hn2 Ht). }
  assert (Hidx : forall k : nat, Z.of_nat k < numBuckets (config_ t) ->
            ringIndex (targetBucket tick t') (Z.of_nat k) t' =
            (targetBucket tick t + numBuckets (config_ t) - Z.of_nat k)
              mod numBuckets (config_ t)).
  { intros k Hk. unfold targetBucket in *. rewrite ringIndex_no_wrap;
      rewrite ?Hcfg'; try done; try lia. unfold ring_fits. by rewrite Hcfg'. }
  rewrite Hcfg' in Hpos.
  exists t', counts, old. split; [done |]. split; [done |]. split; [done |]. split.
  - rewrite (Hpos (Z.to_nat (numBuckets (config_ t) - 1))) by lia.
    rewrite Hidx by lia. rewrite Z2Nat.id by lia.
    replace (targetBucket tick t + numBuckets (config_ t) - (numBuckets (config_ t) - 1))
      with (targetBucket tick t + 1) by lia.
    rewrite Hborder. unfold t'.
    by rewrite itemCounts_bump_bucket, list_lookup_alter_eq, Hold.
  - rewrite (Hpos 0%nat) by lia. rewrite Hidx by lia.
    replace (targetBucket tick t + numBuckets (config_ t) - Z.of_nat 0)
      with (targetBucket tick t + 1 * numBuckets (config_ t)) by lia.
    rewrite Z.mod_add, Z.mod_small by lia. unfold t'.
    rewrite itemCounts_bump_bucket. apply list_lookup_alter_ne. lia.
Qed.

(** X9. What one [recordAccess] does to the sum of
    [getRotatedAccessCounts], when no raw counter is at its maximum: on the
    border it adds one; when a rotation is due it first drops the count of
    the bucket it enters and then adds one. *)
Theorem recordAccess_sum tick key t :
  wf t -> quiescent t -> ring_fits t ->
  (forall v, v ∈ itemCounts_ t -> 0 <= v < 2 ^ 64 - 1) ->
  exists (t' : Tracker) before after entered,
    getRotatedAccessCounts tick t = Ok (before, t) /\
    recordAccess tick key t = Ok (tt, t') /\
    getRotatedAccessCounts tick t' = Ok (after, t') /\
    itemCounts_ t !! Z.to_nat (targetBucket tick t) = Some entered /\
    sumZ after =
      if on_border (targetBucket tick t) t then sumZ before + 1
      else sumZ before - entered + 1.
Proof.
  intros Hwf Hq Hfit Hroom. pose proof Hwf as [Hn Hd Hmr Hl Hic Hc Htk].
  assert (Ht : 0 <= targetBucket tick t < numBuckets (config_ t))
    by (apply targetBucket_range; lia).
  assert (Hsum : forall (u : Tracker) counts,
            wf u -> config_ u = config_ t ->
            Z.of_nat (length counts) = numBuckets (config_ u) ->
            (forall k : nat, Z.of_nat k < numBuckets (config_ u) ->
               counts !! k =
               itemCounts_ u !! Z.to_nat (ringIndex (targetBucket tick u) (Z.of_nat k) u)) ->
            sumZ counts = sumZ (itemCounts_ u)).
  { intros u counts Hwfu Hcfgu Hlen Hpos. pose proof Hwfu as [_ _ _ _ Hicu _ _].
    apply (traversal_sum (itemCounts_ u) counts (numBuckets (config_ u))
             (targetBucket tick u)); try done.
    - rewrite Hcfgu. lia.
    - apply targetBucket_range. rewrite Hcfgu. lia.
    - intros k Hk. rewrite (Hpos k Hk). do 2 f_equal.
      apply ringIndex_no_wrap; try lia.
      + unfold ring_fits. by rewrite Hcfgu.
      + apply targetBucket_range. rewrite Hcfgu. lia. }
  set (t0 := rotate tick t).
  set (t' := bump_bucket (mostRecentAccessedBucket_ t0) (hashOf key) t0).
  pose proof (wf_rotate tick t Hwf) as Hwf0.
  assert (Hwf' : wf t') by (by apply wf_bump_bucket).
  assert (Hq' : quiescent t') by (by apply quiescent_bump_bucket, quiescent_rotate).
  assert (Hcfg' : config_ t' = config_ t)
    by (unfold t', t0; by rewrite config_bump_bucket, config_rotate).
  destruct (getRotatedAccessCounts_ok tick t Hwf Hq) as (before & Hget & Hlen & Hpos).
  destruct (getRotatedAccessCounts_ok tick t' Hwf' Hq') as (after & Hget' & Hlen' & Hpos').
  destruct (lookup_in_range _ _ _ Hic Ht) as [entered Hentered].
  exists t', before, after, entered.
  split; [done |]. split; [by apply recordAccess_ok |]. split; [done |].
  split; [done |].
  rewrite (Hsum t before Hwf eq_refl Hlen Hpos), (Hsum t' after Hwf' Hcfg' Hlen' Hpos').
  unfold t'. rewrite itemCounts_bump_bucket. unfold t0, rotate.
  destruct (on_border (targetBucket tick t) t) eqn:Eb.
  - destruct (lookup_in_range _ _ _ Hic Hmr) as [old Hold].
    rewrite <- (insert_as_alter _ _ _ _ Hold), (sumZ_insert _ _ _ _ Hold).
    assert (Hb : 0 <= old < 2 ^ 64 - 1)
      by (apply Hroom; by eapply list_elem_of_lookup_2).
    rewrite wrap64_small by lia. lia.
  - rewrite mostRecent_reset_bucket, itemCounts_reset_bucket. simpl.
    assert (Hzero : <[Z.to_nat (targetBucket tick t) := 0]> (itemCounts_ t)
                      !! Z.to_nat (targetBucket tick t) = Some 0)
      by (apply list_lookup_insert_eq; lia).
    rewrite <- (insert_as_alter _ _ _ _ Hzero), (sumZ_insert _ _ _ _ Hzero).
    rewrite (sumZ_insert _ _ _ _ Hentered). rewrite wrap64_small by lia. lia.
Qed.

(** ** A configuration without buckets or without ticks *)

Lemma getCurrentBucketIndex_zero_config tick t :
  config_ticker t = SomeTicker ->
  numBuckets (config_ t) = 0 \/ numTicksPerBucket (config_ t) = 0 ->
  getCurrentBucketIndex tick t = Fault DivideByZero.
Proof.
  intros Htk Hz. unfold getCurrentBucketIndex, rotatedIdx. unfold_monad. rewrite Htk.
  destruct (numTicksPerBucket (config_ t) =? 0) eqn:Ed; [done |].
  destruct Hz as [Hn | Hd0]; [by rewrite Hn | ].
  rewrite Hd0 in Ed. done.
Qed.

(** X14. With [numBuckets = 0], the default of [Config], or with
    [numTicksPerBucket = 0], every member function that looks at the tick
    divides by zero before it touches a bucket: [recordAccess],
    [getAccesses], [recordAndPopulateAccessFeatures] and
    [getRotatedAccessCounts], on any state whatever that holds a ticker, as
    every constructed tracker does; without a ticker the poll of the ticker
    comes first. *)
Theorem zero_config_divides_by_zero tick tick' key t :
  numBuckets (config_ t) = 0 \/ numTicksPerBucket (config_ t) = 0 ->
  recordAccess tick key t =
    Fault (match config_ticker t with
           | SomeTicker => DivideByZero | NullTicker => NullPointerDereference
           end) /\
  getAccesses tick key t =
    Fault (match config_ticker t with
           | SomeTicker => DivideByZero | NullTicker => NullPointerDereference
           end) /\
  recordAndPopulateAccessFeatures tick tick' key t =
    Fault (match config_ticker t with
           | SomeTicker => DivideByZero | NullTicker => NullPointerDereference
           end) /\
  getRotatedAccessCounts tick t =
    Fault (match config_ticker t with
           | SomeTicker => DivideByZero | NullTicker => NullPointerDereference
           end).
Proof.
  intros Hz.
  set (f := match config_ticker t with
            | SomeTicker => DivideByZero | NullTicker => NullPointerDereference
            end).
  assert (Hidx : getCurrentBucketIndex tick t = Fault f).
  { unfold f. destruct (config_ticker t) eqn:Etk.
    - unfold getCurrentBucketIndex. unfold_monad. by rewrite Etk.
    - by apply getCurrentBucketIndex_zero_config. }
  assert (Hcheck : updateMostRecentAccessedBucket tick t = Fault f)
    by (unfold updateMostRecentAccessedBucket; unfold_monad; by rewrite Hidx).
  assert (Hget : getAccesses tick key t = Fault f)
    by (unfold getAccesses; unfold_monad; by rewrite Hcheck).
  split; [| split; [done | split]].
  - unfold recordAccess. unfold_monad. by rewrite Hcheck.
  - unfold recordAndPopulateAccessFeatures. unfold_monad. by rewrite Hget.
  - unfold getRotatedAccessCounts. unfold_monad. by rewrite Hidx.
Qed.

End Compositions.

(** * Threads inside [recordAccess] *)

Section Interleavings.

Context {CMS BF : Type}.
Context `{!CountMinSketchOps CMS, !BloomFilterOps BF, !SpookyHashV2}.

Local Abbreviation Tracker := (AccessTrackerBase CMS BF).

(** ** The steps *)

Lemma rstep_check p key (t : Tracker) p' e t' :
  thread_step p t = Ok (p', e, t') ->
  record_step (InCheck p key) t = Ok (after_check p' key, t').
Proof. intros Hs. unfold record_step. by rewrite Hs. Qed.

Lemma rstep_lock_free idx h (t : Tracker) :
  locks_ t !! Z.to_nat idx = Some Unlocked ->
  record_step (AtLockIdx idx h) t = Ok (AtUpdate idx h, lock_bucket idx t).
Proof. intros Hl. unfold record_step, index. by rewrite Hl. Qed.

Lemma rstep_lock_spin idx h (t : Tracker) :
  locks_ t !! Z.to_nat idx = Some Locked ->
  record_step (AtLockIdx idx h) t = Ok (AtLockIdx idx h, t).
Proof. intros Hl. unfold record_step, index. by rewrite Hl. Qed.

Lemma rstep_update idx h (t : Tracker) :
  wf t -> 0 <= idx < numBuckets (config_ t) ->
  record_step (AtUpdate idx h) t = Ok (AtUnlockIdx idx, bump_bucket idx h t).
Proof. intros [] Hi. unfold record_step. by rewrite updateBucketLocked_ok. Qed.

Lemma rstep_unlock idx (t : Tracker) :
  record_step (AtUnlockIdx idx) t = Ok (Finished, unlock_bucket idx t).
Proof. done. Qed.

Lemma locks_reset_bucket idx (t : Tracker) : locks_ (reset_bucket idx t) = locks_ t.
Proof. unfold reset_bucket. by destruct (useCounts _). Qed.

(** ** Sums over the threads *)

Lemma sumZ_cons x l : sumZ (x :: l) = x + sumZ l.
Proof. done. Qed.

Lemma sumZ_nonneg l : Forall (fun z => 0 <= z) l -> 0 <= sumZ l.
Proof.
  induction 1 as [|x l Hx _ IH]; [done |]. rewrite sumZ_cons. lia.
Qed.

Lemma sumZ_lookup_le l i x :
  Forall (fun z => 0 <= z) l -> l !! i = Some x -> x <= sumZ l.
Proof.
  intros Hl. revert i. induction Hl as [|y l Hy Hl IH]; intros [|i] Hi; simpl in Hi;
    try done; rewrite sumZ_cons.
  - inversion Hi. subst. pose proof (sumZ_nonneg l Hl). lia.
  - specialize (IH i Hi). lia.
Qed.

Lemma sumZ_lookup2_le l i j x y :
  Forall (fun z => 0 <= z) l -> i <> j ->
  l !! i = Some x -> l !! j = Some y -> x + y <= sumZ l.
Proof.
  intros Hl. revert i j.
  induction Hl as [|z l Hz Hl IH]; intros [|i] [|j] Hne Hi Hj; simpl in Hi, Hj;
    try done; rewrite sumZ_cons.
  - inversion Hi. subst. pose proof (sumZ_lookup_le l j y Hl Hj). lia.
  - inversion Hj. subst. pose proof (sumZ_lookup_le l i x Hl Hi). lia.
  - assert (Hne' : i <> j) by congruence. specialize (IH i j Hne' Hi Hj). lia.
Qed.

Lemma sumZ_fmap_insert {A} (f : A -> Z) (l : list A) i x y :
  l !! i = Some x -> sumZ (f <$> <[i := y]> l) = sumZ (f <$> l) - f x + f y.
Proof.
  intros Hl. rewrite list_fmap_insert. apply sumZ_insert.
  by rewrite list_lookup_fmap, Hl.
Qed.

Lemma holding_range j p : 0 <= holding j p <= 1.
Proof. unfold holding. destruct (decide _); lia. Qed.

Lemma holding_nonneg j (l : list record_pc) : Forall (fun z => 0 <= z) (holding j <$> l).
Proof.
  apply Forall_fmap, Forall_forall. intros p _. simpl. apply holding_range.
Qed.

Lemma holding_held j p : held p = Some j -> holding j p = 1.
Proof. intros Hh. unfold holding. by rewrite decide_True. Qed.

Lemma holding_other j p : held p <> Some j -> holding j p = 0.
Proof. intros Hh. unfold holding. by rewrite decide_False. Qed.

Lemma held_in_range n p b : record_pc_in_range n p -> held p = Some b -> 0 <= b < n.
Proof.
  destruct p as [[tick | b' | b' m | b' | b' | b' |] key | key | idx h | idx h | idx |];
    simpl; intros Hr Hh; try done; by inversion Hh; subst.
Qed.

(** ** Every lock has one holder *)

Lemma accounted_step_silent cfg (s : record_system CMS BF) tid p p' (t' : Tracker) :
  locks_accounted cfg s -> rthreads s !! tid = Some p ->
  wf t' -> config_ t' = cfg -> locks_ t' = locks_ (rshared s) ->
  record_pc_in_range (numBuckets cfg) p' -> held p' = held p ->
  locks_accounted cfg {| rshared := t'; rthreads := <[tid := p']> (rthreads s) |}.
Proof.
  intros (Hwf & Hcfg & Hrange & Hlocks) Hp Hwf' Hcfg' Hl Hr Hheld.
  split; [done |]. split; [done |]. split.
  - intros tid' q Hq. simpl in Hq.
    apply list_lookup_insert_Some in Hq as [(_ & <- & _) | (_ & Hq)];
      [done | by apply (Hrange tid')].
  - intros j Hj. destruct (Hlocks j Hj) as (l & El & Esum). exists l. simpl.
    rewrite Hl. split; [done |].
    rewrite (sumZ_fmap_insert _ _ _ p) by done.
    assert (Hsame : holding j p' = holding j p) by (unfold holding; by rewrite Hheld).
    lia.
Qed.

Lemma accounted_step_acquire cfg (s : record_system CMS BF) tid p p' b :
  locks_accounted cfg s -> rthreads s !! tid = Some p ->
  0 <= b < numBuckets cfg ->
  locks_ (rshared s) !! Z.to_nat b = Some Unlocked ->
  held p = None -> held p' = Some b ->
  record_pc_in_range (numBuckets cfg) p' ->
  locks_accounted cfg {| rshared := lock_bucket b (rshared s);
                         rthreads := <[tid := p']> (rthreads s) |}.
Proof.
  intros (Hwf & Hcfg & Hrange & Hlocks) Hp Hb Hfree Hnone Hsome Hr.
  split; [by apply wf_lock_bucket |]. split; [done |]. split.
  - intros tid' q Hq. simpl in Hq.
    apply list_lookup_insert_Some in Hq as [(_ & <- & _) | (_ & Hq)];
      [done | by apply (Hrange tid')].
  - intros j Hj. destruct (Hlocks j Hj) as (l & El & Esum). simpl.
    rewrite (sumZ_fmap_insert _ _ _ p) by done.
    rewrite (holding_other j p) by (rewrite Hnone; done).
    destruct (decide (j = b)) as [-> | Hne].
    + exists Locked. split.
      * apply list_lookup_insert_eq. by apply lookup_lt_Some in Hfree.
      * rewrite (holding_held b p') by done.
        rewrite Hfree in El. inversion El. subst l. simpl in *. lia.
    + exists l. split.
      * rewrite list_lookup_insert_ne by lia. done.
      * rewrite (holding_other j p') by (rewrite Hsome; congruence). lia.
Qed.

Lemma accounted_step_release cfg (s : record_system CMS BF) tid p p' b :
  locks_accounted cfg s -> rthreads s !! tid = Some p ->
  held p = Some b -> held p' = None ->
  record_pc_in_range (numBuckets cfg) p' ->
  locks_accounted cfg {| rshared := unlock_bucket b (rshared s);
                         rthreads := <[tid := p']> (rthreads s) |}.
Proof.
  intros (Hwf & Hcfg & Hrange & Hlocks) Hp Hsome Hnone Hr.
  pose proof (held_in_range _ _ _ (Hrange tid p Hp) Hsome) as Hb.
  split; [by apply wf_unlock_bucket |]. split; [done |]. split.
  - intros tid' q Hq. simpl in Hq.
    apply list_lookup_insert_Some in Hq as [(_ & <- & _) | (_ & Hq)];
      [done | by apply (Hrange tid')].
  - intros j Hj. destruct (Hlocks j Hj) as (l & El & Esum). simpl.
    rewrite (sumZ_fmap_insert _ _ _ p) by done.
    rewrite (holding_other j p') by (rewrite Hnone; done).
    destruct (decide (j = b)) as [-> | Hne].
    + exists Unlocked. split.
      * apply list_lookup_insert_eq. by apply lookup_lt_Some in El.
      * rewrite (holding_held b p) by done.
        assert (Hle : holding b p <= sumZ (holding b <$> rthreads s)).
        { apply (sumZ_lookup_le _ tid); [apply holding_nonneg |].
          by rewrite list_lookup_fmap, Hp. }
        rewrite (holding_held b p) in Hle by done.
        destruct l; simpl in *; lia.
    + exists l. split.
      * rewrite list_lookup_insert_ne by lia. done.
      * rewrite (holding_other j p) by (rewrite Hsome; congruence). lia.
Qed.

(** One step of any thread: it does not fault, and the locks stay
    accounted for. *)
Lemma locks_accounted_step cfg tid (s : record_system CMS BF) :
  locks_accounted cfg s ->
  exists s', record_sys_step tid s = Ok s' /\ locks_accounted cfg s'.
Proof.
  intros Hacc. pose proof Hacc as (Hwf & Hcfg & Hrange & Hlocks).
  pose proof Hwf as [Hn Hd Hmr Hl Hic Hc Htk].
  unfold record_sys_step. destruct (rthreads s !! tid) as [p|] eqn:Ep; [| by exists s].
  pose proof (Hrange tid p Ep) as Hp. rewrite <- Hcfg in Hp.
  assert (Ht : forall tick, 0 <= targetBucket tick (rshared s) < numBuckets cfg)
    by (intros tick; rewrite <- Hcfg; apply targetBucket_range; lia).
  destruct p as [[tick | b | b m | b | b | b |] key | key | idx h | idx h | idx |];
    simpl in Hp.
  - erewrite rstep_check; [| apply step_entry; first [done | lia]].
    eexists. split; [done |]. simpl after_check.
    apply (accounted_step_silent cfg s tid (InCheck (AtEntry tick) key));
      first [done | apply Ht].
  - erewrite rstep_check; [| by apply step_load].
    eexists. split; [done |].
    apply (accounted_step_silent cfg s tid (InCheck (AtLoad b) key));
      first [done | by destruct (on_border b (rshared s))
            | destruct (on_border b (rshared s)); simpl; [done | by rewrite <- Hcfg]].
  - destruct (decide (mostRecentAccessedBucket_ (rshared s) = m)) as [Heq | Hne].
    + erewrite rstep_check; [| by apply step_cas_success].
      eexists. split; [done |]. simpl after_check.
      apply (accounted_step_silent cfg s tid (InCheck (AtCas b m) key));
        first [done | by apply wf_with_mostRecent | simpl; by rewrite <- Hcfg].
    + erewrite rstep_check; [| by apply step_cas_failure].
      eexists. split; [done |]. simpl after_check.
      apply (accounted_step_silent cfg s tid (InCheck (AtCas b m) key));
        first [done | simpl; by rewrite <- Hcfg].
  - destruct (lookup_in_range _ _ b Hl Hp) as [[|] El].
    + erewrite rstep_check; [| by apply step_lock_free].
      eexists. split; [done |]. simpl after_check.
      apply (accounted_step_acquire cfg s tid (InCheck (AtLock b) key));
        first [done | simpl; by rewrite <- Hcfg].
    + erewrite rstep_check; [| by apply step_lock_spin].
      eexists. split; [done |]. simpl after_check.
      apply (accounted_step_silent cfg s tid (InCheck (AtLock b) key));
        first [done | simpl; by rewrite <- Hcfg].
  - erewrite rstep_check; [| by apply step_reset].
    eexists. split; [done |]. simpl after_check.
    apply (accounted_step_silent cfg s tid (InCheck (AtReset b) key));
      first [done | by apply wf_reset_bucket | by rewrite config_reset_bucket
            | apply locks_reset_bucket | simpl; by rewrite <- Hcfg].
  - erewrite rstep_check; [| apply step_unlock].
    eexists. split; [done |]. simpl after_check.
    by apply (accounted_step_release cfg s tid (InCheck (AtUnlock b) key)).
  - erewrite rstep_check; [| done].
    eexists. split; [done |]. simpl after_check.
    by apply (accounted_step_silent cfg s tid (InCheck Returned key)).
  - eexists. split; [done |].
    apply (accounted_step_silent cfg s tid (AtLoadIdx key));
      first [done | simpl; by rewrite <- Hcfg].
  - destruct (lookup_in_range _ _ idx Hl Hp) as [[|] El].
    + rewrite rstep_lock_free by done. eexists. split; [done |].
      apply (accounted_step_acquire cfg s tid (AtLockIdx idx h));
        first [done | simpl; by rewrite <- Hcfg].
    + rewrite rstep_lock_spin by done. eexists. split; [done |].
      apply (accounted_step_silent cfg s tid (AtLockIdx idx h));
        first [done | simpl; by rewrite <- Hcfg].
  - rewrite rstep_update by done. eexists. split; [done |].
    apply (accounted_step_silent cfg s tid (AtUpdate idx h));
      first [done | by apply wf_bump_bucket | by rewrite config_bump_bucket
            | apply locks_bump_bucket | simpl; by rewrite <- Hcfg].
  - rewrite rstep_unlock. eexists. split; [done |].
    by apply (accounted_step_release cfg s tid (AtUnlockIdx idx)).
  - eexists. split; [done |].
    by apply (accounted_step_silent cfg s tid Finished).
Qed.

Lemma locks_accounted_run cfg schedule : forall s : record_system CMS BF,
  locks_accounted cfg s ->
  exists s', record_sys_run schedule s = Ok s' /\ locks_accounted cfg s' /\
             length (rthreads s') = length (rthreads s).
Proof.
  induction schedule as [|tid schedule IH]; intros s Hacc; [by exists s |].
  destruct (locks_accounted_step cfg tid s Hacc) as (s1 & Hstep & Hacc1).
  destruct (IH s1 Hacc1) as (s' & Hrun & Hacc' & Hlen).
  exists s'. simpl. rewrite Hstep. split; [done |]. split; [done |].
  rewrite Hlen. unfold record_sys_step in Hstep.
  destruct (rthreads s !! tid); [| by inversion Hstep].
  destruct (record_step _ _) as [[p' t']|]; [| done].
  inversion Hstep. simpl. by rewrite length_insert.
Qed.

Lemma holding_record_threads j calls : sumZ (holding j <$> record_threads calls) = 0.
Proof.
  unfold record_threads. induction calls as [|c calls IH]; [done |].
  rewrite !fmap_cons, sumZ_cons, IH. done.
Qed.

Lemma locks_accounted_start calls (t : Tracker) :
  wf t -> quiescent t ->
  locks_accounted (config_ t) {| rshared := t; rthreads := record_threads calls |}.
Proof.
  intros Hwf Hq. pose proof Hwf as [Hn Hd Hmr Hl Hic Hc Htk].
  split; [done |]. split; [done |]. split.
  - intros tid p Hp. simpl in Hp. unfold record_threads in Hp.
    apply list_lookup_fmap_Some in Hp as (c & -> & _). done.
  - intros j Hj. exists Unlocked. simpl.
    split; [by apply (quiescent_lookup j (numBuckets (config_ t)) t) |].
    apply holding_record_threads.
Qed.

Lemma locks_accounted_exclusive cfg (s : record_system CMS BF) i j p q b :
  locks_accounted cfg s ->
  rthreads s !! i = Some p -> rthreads s !! j = Some q ->
  held p = Some b -> held q = Some b -> i = j.
Proof.
  intros (Hwf & Hcfg & Hrange & Hlocks) Hp Hq Hhp Hhq.
  destruct (decide (i = j)) as [| Hne]; [done | exfalso].
  pose proof (held_in_range _ _ _ (Hrange i p Hp) Hhp) as Hb.
  destruct (Hlocks b Hb) as (l & _ & Esum).
  assert (Hle : holding b p + holding b q <= sumZ (holding b <$> rthreads s)).
  { apply (sumZ_lookup2_le _ i j); [apply holding_nonneg | done | |];
      by rewrite list_lookup_fmap, ?Hp, ?Hq. }
  rewrite !holding_held in Hle by done. destruct l; simpl in *; lia.
Qed.

Lemma locks_accounted_held cfg (s : record_system CMS BF) i p b :
  locks_accounted cfg s -> rthreads s !! i = Some p -> held p = Some b ->
  locks_ (rshared s) !! Z.to_nat b = Some Locked.
Proof.
  intros (Hwf & Hcfg & Hrange & Hlocks) Hp Hh.
  pose proof (held_in_range _ _ _ (Hrange i p Hp) Hh) as Hb.
  destruct (Hlocks b Hb) as (l & El & Esum).
  assert (Hle : holding b p <= sumZ (holding b <$> rthreads s)).
  { apply (sumZ_lookup_le _ i); [apply holding_nonneg |].
    by rewrite list_lookup_fmap, Hp. }
  rewrite holding_held in Hle by done. destruct l; simpl in *; [lia | done].
Qed.

Lemma locks_accounted_free cfg (s : record_system CMS BF) :
  locks_accounted cfg s ->
  (forall p, p ∈ rthreads s -> held p = None) -> quiescent (rshared s).
Proof.
  intros (Hwf & Hcfg & Hrange & Hlocks) Hnone i l Hl.
  pose proof Hwf as [_ _ _ Hlen _ _ _]. rewrite Hcfg in Hlen.
  assert (Hi : 0 <= Z.of_nat i < numBuckets cfg)
    by (apply lookup_lt_Some in Hl; lia).
  destruct (Hlocks _ Hi) as (l' & El & Esum).
  rewrite Nat2Z.id, Hl in El. inversion El. subst l'.
  assert (Hzero : sumZ (holding (Z.of_nat i) <$> rthreads s) = 0).
  { clear -Hnone. induction (rthreads s) as [|p ps IH]; [done |].
    rewrite fmap_cons, sumZ_cons, IH.
    - rewrite holding_other; [done |]. rewrite Hnone; [done | left].
    - intros q Hq. apply Hnone. by right. }
  rewrite Hzero in Esum. by destruct l.
Qed.

(** X10. Any number of threads in [recordAccess], at any ticks, interleaved
    in any way: no step indexes outside a vector or divides by zero, at no
    time do two threads hold the lock of the same bucket, a lock that is
    held is taken, and once no thread holds a lock every lock is free. *)
Theorem concurrent_records_exclude calls schedule (t : Tracker) :
  wf t -> quiescent t ->
  exists s' : record_system CMS BF,
    record_sys_run schedule {| rshared := t; rthreads := record_threads calls |} = Ok s' /\
    wf (rshared s') /\ config_ (rshared s') = config_ t /\
    length (rthreads s') = length calls /\
    (forall i j p q b,
       rthreads s' !! i = Some p -> rthreads s' !! j = Some q ->
       held p = Some b -> held q = Some b -> i = j) /\
    (forall i p b,
       rthreads s' !! i = Some p -> held p = Some b ->
       locks_ (rshared s') !! Z.to_nat b = Some Locked) /\
    ((forall p, p ∈ rthreads s' -> held p = None) -> quiescent (rshared s')).
Proof.
  intros Hwf Hq.
  destruct (locks_accounted_run (config_ t) schedule _
              (locks_accounted_start calls t Hwf Hq)) as (s' & Hrun & Hacc & Hlen).
  exists s'. split; [done |]. pose proof Hacc as (Hwf' & Hcfg' & _).
  split; [done |]. split; [done |]. split.
  { rewrite Hlen. simpl. unfold record_threads. by rewrite length_fmap. }
  split; [| split].
  - intros i j p q b. by apply (locks_accounted_exclusive (config_ t)).
  - intros i p b. by apply (locks_accounted_held (config_ t)).
  - by apply (locks_accounted_free (config_ t)).
Qed.

(** ** Records made while no rotation is due *)

Lemma wrap64_succ z : wrap64 (wrap64 z + 1) = wrap64 (z + 1).
Proof. unfold wrap64. by rewrite Z.add_mod_idemp_l by lia. Qed.

Lemma alter_insert_eq {A} (f : A -> A) (l : list A) i x :
  alter f i (<[i := x]> l) = <[i := f x]> l.
Proof.
  revert i. induction l as [|y l IH]; intros [|i]; simpl; try done.
  f_equal. apply IH.
Qed.

Lemma recorded_record_threads calls : sumZ (recorded <$> record_threads calls) = 0.
Proof.
  unfold record_threads. induction calls as [|c calls IH]; [done |].
  rewrite !fmap_cons, sumZ_cons, IH. done.
Qed.

Lemma all_counted_keep (t : Tracker) old (s : record_system CMS BF) tid p p' (t' : Tracker) :
  mostRecentAccessedBucket_ (rshared s) = mostRecentAccessedBucket_ t ->
  (forall tid p, rthreads s !! tid = Some p -> calm t p) ->
  itemCounts_ (rshared s) =
    <[Z.to_nat (mostRecentAccessedBucket_ t) :=
        wrap64 (old + sumZ (recorded <$> rthreads s))]> (itemCounts_ t) ->
  rthreads s !! tid = Some p ->
  mostRecentAccessedBucket_ t' = mostRecentAccessedBucket_ (rshared s) ->
  itemCounts_ t' = itemCounts_ (rshared s) ->
  calm t p' -> recorded p' = recorded p ->
  mostRecentAccessedBucket_ t' = mostRecentAccessedBucket_ t /\
  (forall tid' q, <[tid := p']> (rthreads s) !! tid' = Some q -> calm t q) /\
  itemCounts_ t' =
    <[Z.to_nat (mostRecentAccessedBucket_ t) :=
        wrap64 (old + sumZ (recorded <$> <[tid := p']> (rthreads s)))]> (itemCounts_ t).
Proof.
  intros Hmr Hcalm Hic Hp Hmr' Hic' Hc Hrec.
  split; [congruence |]. split.
  - intros tid' q Hq.
    apply list_lookup_insert_Some in Hq as [(_ & <- & _) | (_ & Hq)];
      [done | by apply (Hcalm tid')].
  - rewrite Hic', Hic. do 3 f_equal.
    rewrite (sumZ_fmap_insert _ _ _ p) by done. lia.
Qed.

Lemma all_counted_bump (t : Tracker) old (s : record_system CMS BF) tid h :
  (forall tid p, rthreads s !! tid = Some p -> calm t p) ->
  mostRecentAccessedBucket_ (rshared s) = mostRecentAccessedBucket_ t ->
  itemCounts_ (rshared s) =
    <[Z.to_nat (mostRecentAccessedBucket_ t) :=
        wrap64 (old + sumZ (recorded <$> rthreads s))]> (itemCounts_ t) ->
  rthreads s !! tid = Some (AtUpdate (mostRecentAccessedBucket_ t) h) ->
  mostRecentAccessedBucket_ (bump_bucket (mostRecentAccessedBucket_ t) h (rshared s)) =
    mostRecentAccessedBucket_ t /\
  (forall tid' q,
     <[tid := AtUnlockIdx (mostRecentAccessedBucket_ t)]> (rthreads s) !! tid' = Some q ->
     calm t q) /\
  itemCounts_ (bump_bucket (mostRecentAccessedBucket_ t) h (rshared s)) =
    <[Z.to_nat (mostRecentAccessedBucket_ t) :=
        wrap64 (old + sumZ (recorded <$>
                  <[tid := AtUnlockIdx (mostRecentAccessedBucket_ t)]> (rthreads s)))]>
      (itemCounts_ t).
Proof.
  intros Hcalm Hmr Hic Hp.
  split; [by rewrite mostRecent_bump_bucket |]. split.
  - intros tid' q Hq.
    apply list_lookup_insert_Some in Hq as [(_ & <- & _) | (_ & Hq)];
      [done | by apply (Hcalm tid')].
  - rewrite itemCounts_bump_bucket, Hic, alter_insert_eq, wrap64_succ. do 2 f_equal.
    rewrite (sumZ_fmap_insert _ _ _ (AtUpdate (mostRecentAccessedBucket_ t) h)) by done.
    simpl. lia.
Qed.

(** One step of any thread while no rotation is due. *)
Lemma all_counted_step (t : Tracker) old tid (s : record_system CMS BF) :
  all_counted t old s ->
  exists s', record_sys_step tid s = Ok s' /\ all_counted t old s'.
Proof.
  intros (Hacc & Hmr & Hcalm & Hic).
  destruct (locks_accounted_step _ tid s Hacc) as (s' & Hstep & Hacc').
  exists s'. split; [done |]. split; [done |].
  pose proof Hacc as (Hwf & Hcfg & Hrange & Hlocks).
  pose proof Hwf as [Hn Hd Hmr' Hl Hiclen Hc Htk].
  assert (Hborder : forall b, on_border b (rshared s) = on_border b t)
    by (intros b; unfold on_border; by rewrite Hmr, Hcfg).
  assert (Htarget : forall tick, targetBucket tick (rshared s) = targetBucket tick t)
    by (intros tick; unfold targetBucket; by rewrite Hcfg).
  unfold record_sys_step in Hstep.
  destruct (rthreads s !! tid) as [p|] eqn:Ep; [| inversion Hstep; by subst].
  pose proof (Hcalm tid p Ep) as Hp. pose proof (Hrange tid p Ep) as Hr.
  rewrite <- Hcfg in Hr.
  destruct p as [[tick | b | b m | b | b | b |] key | key | idx h | idx h | idx |];
    simpl in Hp, Hr; try done.
  - erewrite rstep_check in Hstep; [| apply step_entry; first [done | lia]].
    inversion Hstep. simpl.
    apply (all_counted_keep t old s tid (InCheck (AtEntry tick) key)); try done.
    simpl. by rewrite Htarget.
  - erewrite rstep_check in Hstep; [| by apply step_load].
    rewrite Hborder, Hp in Hstep. inversion Hstep. simpl.
    by apply (all_counted_keep t old s tid (InCheck (AtLoad b) key)).
  - inversion Hstep. simpl.
    by apply (all_counted_keep t old s tid (AtLoadIdx key)).
  - destruct (lookup_in_range _ _ idx Hl Hr) as [[|] El].
    + rewrite rstep_lock_free in Hstep by done. inversion Hstep. simpl.
      by apply (all_counted_keep t old s tid (AtLockIdx idx h)).
    + rewrite rstep_lock_spin in Hstep by done. inversion Hstep. simpl.
      by apply (all_counted_keep t old s tid (AtLockIdx idx h)).
  - rewrite rstep_update in Hstep by done. inversion Hstep. simpl. subst idx.
    by apply all_counted_bump.
  - rewrite rstep_unlock in Hstep. inversion Hstep. simpl.
    by apply (all_counted_keep t old s tid (AtUnlockIdx idx)).
  - inversion Hstep. simpl.
    by apply (all_counted_keep t old s tid Finished).
Qed.

Lemma all_counted_run (t : Tracker) old schedule : forall s : record_system CMS BF,
  all_counted t old s ->
  exists s', record_sys_run schedule s = Ok s' /\ all_counted t old s'.
Proof.
  induction schedule as [|tid schedule IH]; intros s Hall; [by exists s |].
  destruct (all_counted_step t old tid s Hall) as (s1 & Hstep & Hall1).
  destruct (IH s1 Hall1) as (s' & Hrun & Hall').
  exists s'. simpl. by rewrite Hstep.
Qed.

(** X11. Threads in [recordAccess] whose ticks are all on the border of the
    shared index, interleaved in any way: the shared index stays, no counter
    of another bucket changes, and the raw counter of the bucket of the
    shared index has gone up by one for every thread that is past
    [updateBucketLocked] -- no increment is lost.  Once all threads have
    returned it has gone up by the number of calls, and every lock is
    free. *)
Theorem concurrent_records_all_counted calls schedule (t : Tracker) :
  wf t -> quiescent t ->
  (forall v, v ∈ itemCounts_ t -> 0 <= v < 2 ^ 64) ->
  (forall call, call ∈ calls -> on_border (targetBucket call.1 t) t = true) ->
  exists (s' : record_system CMS BF) old,
    record_sys_run schedule {| rshared := t; rthreads := record_threads calls |} = Ok s' /\
    mostRecentAccessedBucket_ (rshared s') = mostRecentAccessedBucket_ t /\
    itemCounts_ t !! Z.to_nat (mostRecentAccessedBucket_ t) = Some old /\
    itemCounts_ (rshared s') !! Z.to_nat (mostRecentAccessedBucket_ t) =
      Some (wrap64 (old + sumZ (recorded <$> rthreads s'))) /\
    (forall j : nat, j <> Z.to_nat (mostRecentAccessedBucket_ t) ->
       itemCounts_ (rshared s') !! j = itemCounts_ t !! j) /\
    ((forall p, p ∈ rthreads s' -> p = Finished) ->
     sumZ (recorded <$> rthreads s') = Z.of_nat (length calls) /\
     quiescent (rshared s')).
Proof.
  intros Hwf Hq Hsize Hcalls. pose proof Hwf as [Hn Hd Hmr Hl Hic Hc Htk].
  destruct (lookup_in_range _ _ _ Hic Hmr) as [old Hold].
  assert (Hstart : all_counted t old {| rshared := t; rthreads := record_threads calls |}).
  { split; [by apply locks_accounted_start |]. split; [done |]. split.
    - intros tid p Hp. simpl in Hp. unfold record_threads in Hp.
      apply list_lookup_fmap_Some in Hp as (c & -> & Hc'). simpl.
      apply Hcalls. by eapply list_elem_of_lookup_2.
    - simpl. rewrite recorded_record_threads, Z.add_0_r.
      rewrite wrap64_small by (apply Hsize; by eapply list_elem_of_lookup_2).
      symmetry. by apply list_insert_id. }
  destruct (all_counted_run t old schedule _ Hstart) as (s' & Hrun & Hacc & Hmr' & Hcalm & Hic').
  destruct (locks_accounted_run (config_ t) schedule _
              (locks_accounted_start calls t Hwf Hq)) as (s'' & Hrun' & _ & Hlen).
  rewrite Hrun in Hrun'. inversion Hrun'. subst s''.
  exists s', old. split; [done |]. split; [done |]. split; [done |]. split; [| split].
  - rewrite Hic'. apply list_lookup_insert_eq. apply lookup_lt_Some in Hold. done.
  - intros j Hj. rewrite Hic'. by apply list_lookup_insert_ne.
  - intros Hfin. split.
    + simpl in Hlen. unfold record_threads in Hlen. rewrite length_fmap in Hlen.
      rewrite <- Hlen. clear -Hfin.
      induction (rthreads s') as [|p ps IH]; [done |].
      rewrite fmap_cons, sumZ_cons, IH by (intros q Hq; apply Hfin; by right).
      rewrite (Hfin p) by left. simpl length. simpl recorded. lia.
    + apply (locks_accounted_free (config_ t)); [done |].
      intros p Hp. by rewrite (Hfin p Hp).
Qed.

(** ** One thread alone, and two threads around a rotation *)

Lemma record_run_step tid schedule (t : Tracker) ths p p' (t' : Tracker) :
  ths !! tid = Some p -> record_step p t = Ok (p', t') ->
  record_sys_run (tid :: schedule) {| rshared := t; rthreads := ths |} =
  record_sys_run schedule {| rshared := t'; rthreads := <[tid := p']> ths |}.
Proof.
  intros Hp Hs. cbn [record_sys_run]. unfold record_sys_step.
  cbn [rshared rthreads]. by rewrite Hp, Hs.
Qed.

Local Ltac run_step lem :=
  erewrite record_run_step; [ | reflexivity | lem ];
  cbn [insert list_insert after_check].

(** X12. A thread alone goes through [recordAccess] in at most ten steps
    and leaves the state the call leaves. *)
Theorem recordAccess_alone tick key (t : Tracker) :
  wf t -> quiescent t ->
  exists t' : Tracker,
    recordAccess tick key t = Ok (tt, t') /\
    record_sys_run (replicate 10 0%nat)
      {| rshared := t; rthreads := [InCheck (AtEntry tick) key] |} =
    Ok {| rshared := t'; rthreads := [Finished] |}.
Proof.
  intros Hwf Hq. pose proof Hwf as [Hn Hd Hmr Hl Hic Hc Htk].
  assert (Ht : 0 <= targetBucket tick t < numBuckets (config_ t))
    by (apply targetBucket_range; lia).
  eexists. split; [by apply recordAccess_ok |].
  cbn [replicate].
  run_step ltac:(eapply rstep_check; apply step_entry; first [done | lia]).
  run_step ltac:(eapply rstep_check; apply step_load; done).
  unfold rotate. destruct (on_border (targetBucket tick t) t) eqn:Eb; cbn [after_check].
  - run_step ltac:(reflexivity).
    run_step ltac:(apply rstep_lock_free; by apply (quiescent_lookup _ _ t Hq Hl)).
    run_step ltac:(apply rstep_update; [by apply wf_lock_bucket | done]).
    run_step ltac:(apply rstep_unlock).
    rewrite unlock_bump_lock by (by apply (quiescent_lookup _ _ t Hq Hl)).
    done.
  - set (b := targetBucket tick t) in *.
    assert (Hlock : locks_ (with_mostRecent b t) !! Z.to_nat b = Some Unlocked)
      by (by apply (quiescent_lookup b (numBuckets (config_ t)) t)).
    run_step ltac:(eapply rstep_check; apply step_cas_success; done).
    run_step ltac:(eapply rstep_check; apply step_lock_free; done).
    run_step ltac:(eapply rstep_check; apply step_reset;
                   [by apply wf_lock_bucket, wf_with_mostRecent | done]).
    run_step ltac:(eapply rstep_check; apply step_unlock).
    rewrite unlock_reset_lock by done.
    set (u := reset_bucket b (with_mostRecent b t)).
    assert (Hwfu : wf u) by (by apply wf_reset_bucket, wf_with_mostRecent).
    assert (Hmru : mostRecentAccessedBucket_ u = b)
      by (unfold u; by rewrite mostRecent_reset_bucket).
    assert (Hlu : locks_ u !! Z.to_nat b = Some Unlocked)
      by (unfold u; by rewrite locks_reset_bucket).
    assert (Hcu : config_ u = config_ t)
      by (unfold u; by rewrite config_reset_bucket).
    run_step ltac:(reflexivity). rewrite Hmru.
    run_step ltac:(by apply rstep_lock_free).
    run_step ltac:(apply rstep_update; [by apply wf_lock_bucket
                   | cbn [config_ lock_bucket with_locks]; by rewrite Hcu]).
    run_step ltac:(apply rstep_unlock).
    rewrite unlock_bump_lock by done. done.
Qed.

(** X13. A record can be lost around a rotation.  Two threads call
    [recordAccess] at the same tick while a rotation is due: when the second
    makes its record between the compare-and-swap of the first and its
    reset, the reset wipes it, and with both calls returned the raw counter
    of the bucket holds one access -- where the two calls one after the
    other leave two. *)
Theorem concurrent_record_can_be_lost tick keyA keyB (t : Tracker) :
  wf t -> quiescent t -> on_border (targetBucket tick t) t = false ->
  exists schedule (t1 t2 : Tracker),
    record_sys_run schedule
      {| rshared := t;
         rthreads := [InCheck (AtEntry tick) keyA; InCheck (AtEntry tick) keyB] |} =
    Ok {| rshared := t1; rthreads := [Finished; Finished] |} /\
    wf t1 /\ quiescent t1 /\
    mostRecentAccessedBucket_ t1 = targetBucket tick t /\
    itemCounts_ t1 !! Z.to_nat (targetBucket tick t) = Some 1 /\
    run [(tick, OpRecordAccess keyA); (tick, OpRecordAccess keyB)] t = Ok (tt, t2) /\
    mostRecentAccessedBucket_ t2 = targetBucket tick t /\
    itemCounts_ t2 !! Z.to_nat (targetBucket tick t) = Some 2.
Proof.
  intros Hwf Hq Hb. pose proof Hwf as [Hn Hd Hmr Hl Hic Hc Htk].
  assert (Hbr : 0 <= targetBucket tick t < numBuckets (config_ t))
    by (apply targetBucket_range; lia).
  set (b := targetBucket tick t) in *.
  set (u0 := with_mostRecent b t).
  set (u1 := bump_bucket b (hashOf keyB) u0).
  set (u2 := reset_bucket b u1).
  set (u3 := bump_bucket b (hashOf keyA) u2).
  assert (Hwf0 : wf u0) by (by apply wf_with_mostRecent).
  assert (Hwf1 : wf u1) by (by apply wf_bump_bucket).
  assert (Hwf2 : wf u2) by (by apply wf_reset_bucket).
  assert (Hwf3 : wf u3) by (by apply wf_bump_bucket).
  assert (Hc1 : config_ u1 = config_ t)
    by (unfold u1; by rewrite config_bump_bucket).
  assert (Hc2 : config_ u2 = config_ t)
    by (unfold u2; by rewrite config_reset_bucket).
  assert (Hl0 : locks_ u0 !! Z.to_nat b = Some Unlocked)
    by (by apply (quiescent_lookup b (numBuckets (config_ t)) t)).
  assert (Hl1 : locks_ u1 !! Z.to_nat b = Some Unlocked)
    by (unfold u1; by rewrite locks_bump_bucket).
  assert (Hl2 : locks_ u2 !! Z.to_nat b = Some Unlocked)
    by (unfold u2; by rewrite locks_reset_bucket).
  assert (Hm1 : mostRecentAccessedBucket_ u1 = b)
    by (unfold u1; by rewrite mostRecent_bump_bucket).
  assert (Hm2 : mostRecentAccessedBucket_ u2 = b)
    by (unfold u2; by rewrite mostRecent_reset_bucket).
  assert (Hborder0 : on_border b u0 = true)
    by (unfold on_border; simpl; by rewrite Z.eqb_refl).
  exists [0; 0; 0; 1; 1; 1; 1; 1; 1; 0; 0; 0; 0; 0; 0; 0]%nat, u3.
  eexists. split; [| split; [| split; [| split; [| split; [| split; [| split]]]]]].
  - (* the first thread up to its compare-and-swap *)
    run_step ltac:(eapply rstep_check; apply step_entry; first [done | lia]).
    run_step ltac:(eapply rstep_check; apply step_load; done).
    fold b. rewrite Hb.
    run_step ltac:(eapply rstep_check; apply step_cas_success; done).
    fold u0.
    (* the second thread from entry to return *)
    run_step ltac:(eapply rstep_check; apply step_entry; simpl; first [done | lia]).
    change (targetBucket tick u0) with b.
    run_step ltac:(eapply rstep_check; apply step_load; done).
    rewrite Hborder0. cbn [after_check].
    run_step ltac:(reflexivity).
    change (mostRecentAccessedBucket_ u0) with b.
    run_step ltac:(by apply rstep_lock_free).
    run_step ltac:(apply rstep_update; [by apply wf_lock_bucket | done]).
    run_step ltac:(apply rstep_unlock).
    rewrite unlock_bump_lock by done. fold u1.
    (* the first thread resets the bucket and makes its own record *)
    run_step ltac:(eapply rstep_check; apply step_lock_free; done).
    run_step ltac:(eapply rstep_check; apply step_reset;
                   [by apply wf_lock_bucket
                   | cbn [config_ lock_bucket with_locks]; by rewrite Hc1]).
    run_step ltac:(eapply rstep_check; apply step_unlock).
    rewrite unlock_reset_lock by done. fold u2.
    run_step ltac:(reflexivity). rewrite Hm2.
    run_step ltac:(by apply rstep_lock_free).
    run_step ltac:(apply rstep_update; [by apply wf_lock_bucket
                   | cbn [config_ lock_bucket with_locks]; by rewrite Hc2]).
    run_step ltac:(apply rstep_unlock).
    rewrite unlock_bump_lock by done. done.
  - done.
  - unfold u3, u2, u1, u0. intros i l.
    rewrite locks_bump_bucket, locks_reset_bucket, locks_bump_bucket. apply Hq.
  - unfold u3. by rewrite mostRecent_bump_bucket.
  - unfold u3, u2. rewrite itemCounts_bump_bucket, itemCounts_reset_bucket.
    rewrite alter_insert_eq. apply list_lookup_insert_eq.
    unfold u1. rewrite itemCounts_bump_bucket, length_alter. simpl. lia.
  - destruct (run_ok [(tick, OpRecordAccess keyA); (tick, OpRecordAccess keyB)] t Hwf Hq)
      as (Hrun & _). exact Hrun.
  - unfold effects. cbn [foldl effect_of].
    rewrite mostRecent_bump_bucket.
    assert (Hrot : rotate tick t = reset_bucket b u0)
      by (unfold rotate; fold b; by rewrite Hb).
    rewrite Hrot.
    set (v1 := bump_bucket (mostRecentAccessedBucket_ (reset_bucket b u0))
                 (hashOf keyA) (reset_bucket b u0)).
    assert (Hmv : mostRecentAccessedBucket_ v1 = b)
      by (unfold v1; by rewrite mostRecent_bump_bucket, mostRecent_reset_bucket).
    assert (Hcv : config_ v1 = config_ t)
      by (unfold v1; by rewrite config_bump_bucket, config_reset_bucket).
    assert (Hrot1 : rotate tick v1 = v1).
    { unfold rotate, on_border, targetBucket. rewrite Hcv, Hmv. fold (targetBucket tick t).
      fold b. by rewrite Z.eqb_refl. }
    by rewrite Hrot1.
  - unfold effects. cbn [foldl effect_of].
    assert (Hrot : rotate tick t = reset_bucket b u0)
      by (unfold rotate; fold b; by rewrite Hb).
    rewrite Hrot.
    set (v1 := bump_bucket (mostRecentAccessedBucket_ (reset_bucket b u0))
                 (hashOf keyA) (reset_bucket b u0)).
    assert (Hmv : mostRecentAccessedBucket_ v1 = b)
      by (unfold v1; by rewrite mostRecent_bump_bucket, mostRecent_reset_bucket).
    assert (Hcv : config_ v1 = config_ t)
      by (unfold v1; by rewrite config_bump_bucket, config_reset_bucket).
    assert (Hrot1 : rotate tick v1 = v1).
    { unfold rotate, on_border, targetBucket. rewrite Hcv, Hmv. fold (targetBucket tick t).
      fold b. by rewrite Z.eqb_refl. }
    rewrite Hrot1, Hmv, itemCounts_bump_bucket. unfold v1.
    rewrite itemCounts_bump_bucket, mostRecent_reset_bucket, itemCounts_reset_bucket.
    simpl mostRecentAccessedBucket_.
    rewrite alter_insert_eq, alter_insert_eq. apply list_lookup_insert_eq.
    simpl. lia.
Qed.

End Interleavings.

(** * The model backends meet the laws, and the claims at concrete inputs *)

Import Model.

Lemma model_byte_size_laws : ByteSizeLaws (CMS := Sketch) (BF := Bloom).
Proof.
  constructor; simpl; intros; try reflexivity; lia.
Qed.

Lemma model_estimate_laws : EstimateLaws (CMS := Sketch) (BF := Bloom).
Proof.
  constructor; simpl; intros; try reflexivity.
  - unfold sk_slot. simpl. rewrite Z.eqb_refl. lia.
  - unfold bl_slot. simpl. by rewrite !Z.eqb_refl.
  - by rewrite Z.eqb_refl.
  - by rewrite (proj2 (Z.eqb_neq _ _) H).
Qed.

Lemma wf_fresh n ticks width counts :
  1 <= n < 2 ^ 64 -> 1 <= ticks -> wf (fresh n ticks width counts).
Proof. intros Hn Hd. by apply wf_ctor. Qed.

Lemma quiescent_fresh n ticks width counts : quiescent (fresh n ticks width counts).
Proof. apply quiescent_ctor. Qed.

(** The scenario of the specification: three buckets of one tick. *)
Lemma scenario_wf : wf (fresh 3 1 8 true).
Proof. apply wf_fresh; lia. Qed.

(** C1 at ticks [1] (a rotation into bucket [1]) and [2] (bucket [2] is the
    bucket before the shared index [0]: no rotation). *)
Lemma rotation_check_protocol_witness :
  updateMostRecentAccessedBucket 1 (fresh 3 1 8 true) =
    Ok (tt, reset_bucket 1 (with_mostRecent 1 (fresh 3 1 8 true))) /\
  updateMostRecentAccessedBucket 2 (fresh 3 1 8 true) = Ok (tt, fresh 3 1 8 true).
Proof.
  pose proof (proj1 (rotation_check_protocol (CMS := Sketch) (BF := Bloom))
                (fresh 3 1 8 true)) as Hseq.
  split.
  - pose proof (Hseq 1 scenario_wf (quiescent_fresh 3 1 8 true)) as H1.
    cbv zeta in H1. destruct H1 as (_ & _ & Hrot & _).
    apply Hrot; vm_compute; discriminate.
  - pose proof (Hseq 2 scenario_wf (quiescent_fresh 3 1 8 true)) as H2.
    cbv zeta in H2. destruct H2 as (_ & Hskip & _).
    apply Hskip. right. reflexivity.
Defined.

(** C2 on the new tracker of the scenario. *)
Lemma getAccesses_most_recent_first_witness :
  exists features t',
    getAccesses 1 "a" (fresh 3 1 8 true) = Ok (features, t') /\
    updateMostRecentAccessedBucket 1 (fresh 3 1 8 true) = Ok (tt, t') /\
    Z.of_nat (length features) = 3 /\
    forall i : nat, Z.of_nat i < 3 ->
      exists v,
        features !! i = Some v /\
        bucketEstimate t' ((mostRecentAccessedBucket_ t' + 3 - Z.of_nat i) mod 3)
          (hashOf "a") = Some v.
Proof.
  apply (getAccesses_most_recent_first 1 "a" (fresh 3 1 8 true)).
  - exact scenario_wf.
  - apply quiescent_fresh.
  - unfold ring_fits. simpl. lia.
Defined.

(** In the model backends two hashes are apart when their remainders
    differ, the sketches and filter banks of a tracker keeping the widths
    they were built with. *)
Lemma model_sketch_width cfg c :
  sketch_of cfg c -> sk_width c = Z.max 1 (cmsMaxWidth cfg).
Proof. induction 1; simpl; done. Qed.

Lemma model_filters_width cfg f :
  filters_of cfg f -> bl_width f = Z.max 1 (maxNumOpsPerBucket cfg).
Proof. induction 1; simpl; done. Qed.

Lemma model_apart cfg other hashVal :
  hashVal mod Z.max 1 (cmsMaxWidth cfg) <> other mod Z.max 1 (cmsMaxWidth cfg) ->
  hashVal mod Z.max 1 (maxNumOpsPerBucket cfg) <>
    other mod Z.max 1 (maxNumOpsPerBucket cfg) ->
  apart cfg other hashVal.
Proof.
  intros Hsk Hbl. split.
  - intros c Hc. simpl. unfold sk_slot. simpl.
    rewrite (model_sketch_width cfg c Hc).
    by rewrite (proj2 (Z.eqb_neq _ _) Hsk).
  - intros f idx j Hf. simpl. unfold bl_slot. simpl.
    rewrite (model_filters_width cfg f Hf).
    rewrite (proj2 (Z.eqb_neq _ _) Hbl). by rewrite andb_false_r.
Qed.


(** C4, as amended, on four calls in the spans [0] to [3] of the scenario. *)
Lemma raw_counts_of_recent_spans_witness :
  exists (t : Tracker) counts,
    run [(0, OpRecordAccess "a"); (1, OpRecordAccess "b");
         (2, OpRecordAccess "a"); (3, OpRecordAccess "a")] (fresh 3 1 8 true) = Ok (tt, t) /\
    getRotatedAccessCounts 3 t = Ok (counts, t) /\
    sumZ counts = 3.
Proof.
  destruct (raw_counts_of_recent_spans (CMS := Sketch) (BF := Bloom) (config 3 1 8 true)
              [(0, OpRecordAccess "a"); (1, OpRecordAccess "b");
               (2, OpRecordAccess "a"); (3, OpRecordAccess "a")] 3)
    as (t & counts & Hrun & Hget & Hsum & _).
  - unfold wf_config. simpl. lia.
  - simpl. lia.
  - vm_compute. repeat split; (discriminate || tauto).
  - simpl. lia.
  - exists t, counts. split; [exact Hrun |]. split; [exact Hget |]. exact Hsum.
Defined.

(** C5 on the new tracker of the scenario. *)
Lemma getRotatedAccessCounts_most_recent_first_witness :
  exists counts,
    getRotatedAccessCounts 1 (fresh 3 1 8 true) = Ok (counts, fresh 3 1 8 true) /\
    Z.of_nat (length counts) = 3 /\
    forall i : nat, Z.of_nat i < 3 ->
      exists v,
        counts !! i = Some v /\
        itemCounts_ (fresh 3 1 8 true) !! Z.to_nat
          ((targetBucket 1 (fresh 3 1 8 true) + 3 - Z.of_nat i) mod 3) = Some v.
Proof.
  apply (getRotatedAccessCounts_most_recent_first 1 (fresh 3 1 8 true)).
  - exact scenario_wf.
  - apply quiescent_fresh.
  - unfold ring_fits. simpl. lia.
Defined.

(** C6 on the new tracker of the scenario. *)
Lemma move_drops_raw_counters_witness :
  getRotatedAccessCounts 0 (AccessTrackerBase_move (fresh 3 1 8 true)).1 =
    Fault IndexOutOfBounds /\
  recordAccess 0 "a" (AccessTrackerBase_move (fresh 3 1 8 true)).1 =
    Fault IndexOutOfBounds /\
  itemCounts_ (AccessTrackerBase_move (fresh 3 1 8 true)).2 = [0; 0; 0].
Proof.
  destruct (move_drops_raw_counters 0 "a" (fresh 3 1 8 true) scenario_wf
              (quiescent_fresh 3 1 8 true))
    as (_ & _ & _ & _ & _ & _ & Hcounts & Hrecord & _ & Hsource & _).
  split; [exact Hcounts |]. split; [exact Hrecord |]. exact Hsource.
Defined.


(** C8 on the scenario, after two records. *)
Lemma getByteSize_fixed_witness :
  getByteSize (fresh 0 1 8 true) = 0 /\
  exists t : Tracker,
    run [(0, OpRecordAccess "a"); (1, OpRecordAccess "b")] (fresh 3 1 8 true) = Ok (tt, t) /\
    getByteSize t = backendBytes t /\
    getByteSize t = getByteSize (fresh 3 1 8 true).
Proof.
  pose proof (getByteSize_fixed (ByteSizeLaws0 := model_byte_size_laws)) as [Hzero Hfixed].
  split.
  - apply Hzero. reflexivity.
  - destruct (Hfixed (config 3 1 8 true)
                [(0, OpRecordAccess "a"); (1, OpRecordAccess "b")] 1 "a")
      as (t & Hrun & Hsum & Hsame & _).
    + unfold wf_config. simpl. lia.
    + vm_compute. reflexivity.
    + exists t. split; [exact Hrun |]. split; [exact Hsum | exact Hsame].
Defined.

(** X15 on the scenario, and on a tracker without buckets. *)
Lemma bucket_indices_in_range_witness :
  (exists t : Tracker,
     run [(0, OpRecordAccess "a"); (1, OpRecordAccess "b")] (fresh 3 1 8 true) = Ok (tt, t) /\
     Z.of_nat (length (itemCounts_ t)) = 3) /\
  getCurrentBucketIndex 5 (fresh 0 1 8 true) = Fault DivideByZero.
Proof.
  pose proof (bucket_indices_in_range (CMS := Sketch) (BF := Bloom)) as [Hin Hzero].
  split.
  - destruct (Hin (config 3 1 8 true)
                [(0, OpRecordAccess "a"); (1, OpRecordAccess "b")] 1 "a")
      as (t & Hrun & _ & Hlen & _).
    + unfold wf_config. simpl. lia.
    + exists t. split; [exact Hrun | exact Hlen].
  - apply (Hzero (fresh 0 1 8 true) 5 "a"); [reflexivity | left; reflexivity].
Defined.

(** C10 on the new tracker of the scenario. *)
Lemma getRotatedAccessCounts_read_only_witness :
  exists counts,
    getRotatedAccessCounts 1 (fresh 3 1 8 true) = Ok (counts, fresh 3 1 8 true) /\
    getRotatedAccessCounts 1 (with_mostRecent 2 (fresh 3 1 8 true)) =
      Ok (counts, with_mostRecent 2 (fresh 3 1 8 true)).
Proof.
  destruct (getRotatedAccessCounts_read_only 1 (fresh 3 1 8 true) scenario_wf
              (quiescent_fresh 3 1 8 true))
    as (_ & counts & Hrun & _ & Hany).
  - unfold ring_fits. simpl. lia.
  - exists counts. split; [exact Hrun |]. apply Hany. simpl. lia.
Defined.

(** * Where the claims fail as they are stated *)


(** C9. The claim fails on a tracker that was moved to.  The tracker moved
    from the new tracker of the scenario has three buckets of one tick and a
    ticker, its bucket index is in range and its locks and sketches are
    indexed in range, but its [itemCounts_] is empty, the move constructor
    not naming it: [getRotatedAccessCounts] and [recordAccess] index it out
    of range. *)
Theorem moved_to_indexes_out_of_range :
  numBuckets (config_ (AccessTrackerBase_move (fresh 3 1 8 true)).1) = 3 /\
  numTicksPerBucket (config_ (AccessTrackerBase_move (fresh 3 1 8 true)).1) = 1 /\
  getCurrentBucketIndex 0 (AccessTrackerBase_move (fresh 3 1 8 true)).1 =
    Ok (0, (AccessTrackerBase_move (fresh 3 1 8 true)).1) /\
  length (locks_ (AccessTrackerBase_move (fresh 3 1 8 true)).1) = 3%nat /\
  length (counts_ (AccessTrackerBase_move (fresh 3 1 8 true)).1) = 3%nat /\
  length (itemCounts_ (AccessTrackerBase_move (fresh 3 1 8 true)).1) = 0%nat /\
  getRotatedAccessCounts 0 (AccessTrackerBase_move (fresh 3 1 8 true)).1 =
    Fault IndexOutOfBounds /\
  recordAccess 0 "a" (AccessTrackerBase_move (fresh 3 1 8 true)).1 =
    Fault IndexOutOfBounds.
Proof. repeat split; reflexivity. Qed.

(** C4 as stated fails.  With three buckets of one tick, two records at
    ticks [0] and [1] are still counted at tick [5], three ticks and more
    later, because only the bucket entered is reset.  With two buckets the
    ring never rotates: four records at ticks [0] to [3] are all counted at
    tick [3].  With three buckets of ten ticks, a record at tick [9] is not
    counted at tick [30] although it is less than thirty ticks old.  With
    three buckets of one tick and a first access at tick [2], which is taken
    on the border of the initial index and recorded in bucket [0], calls at
    every tick up to tick [5] still leave it counted. *)
Lemma raw_count_window_counterexample :
  let sum_and_window now calls (t : Tracker) :=
    t' ← after calls t;
    counts ← value (getRotatedAccessCounts now t');
    Some (sumZ counts,
          length (recordsWithin (numBuckets (config_ t) * numTicksPerBucket (config_ t))
                    now (recordTicks calls))) in
  sum_and_window 5 [(0, OpRecordAccess "a"); (1, OpRecordAccess "b"); (5, OpGetAccesses "a")]
    (fresh 3 1 8 true) = Some (2, 0%nat) /\
  sum_and_window 3 [(0, OpRecordAccess "a"); (1, OpRecordAccess "a");
                    (2, OpRecordAccess "a"); (3, OpRecordAccess "a")]
    (fresh 2 1 8 true) = Some (4, 2%nat) /\
  sum_and_window 30 [(9, OpRecordAccess "a"); (10, OpGetAccesses "a");
                     (20, OpGetAccesses "a"); (30, OpGetAccesses "a")]
    (fresh 3 10 8 true) = Some (0, 1%nat) /\
  sum_and_window 5 [(2, OpRecordAccess "a"); (3, OpGetAccesses "a");
                    (4, OpGetAccesses "a"); (5, OpGetAccesses "a")]
    (fresh 3 1 8 true) = Some (1, 0%nat).
Proof. vm_compute. repeat split; reflexivity. Qed.


(** ** The further properties at concrete inputs *)

Lemma scenario_filters_wf : wf (fresh 3 1 8 false).
Proof. apply wf_fresh; lia. Qed.

Lemma scenario_counters_small :
  forall v, v ∈ itemCounts_ (fresh 3 1 8 true) -> 0 <= v < 2 ^ 64 - 1.
Proof.
  intros v Hv. change (itemCounts_ (fresh 3 1 8 true)) with (replicate 3 0) in Hv.
  apply elem_of_replicate in Hv as [-> _]. lia.
Qed.

(** X1 at tick [1] of the scenario. *)
Lemma recordAccess_effect_witness :
  exists (t' : Tracker) idx old,
    recordAccess 1 "a" (fresh 3 1 8 true) = Ok (tt, t') /\
    mostRecentAccessedBucket_ t' = idx /\
    itemCounts_ t' !! Z.to_nat idx = Some (wrap64 (old + 1)).
Proof.
  destruct (recordAccess_effect 1 "a" (fresh 3 1 8 true) scenario_wf
              (quiescent_fresh 3 1 8 true))
    as (t0 & t' & idx & old & _ & Hrec & _ & Hmr & _ & Hnew & _).
  exists t', idx, old. split; [exact Hrec |]. split; [exact Hmr | exact Hnew].
Defined.

(** X2 at tick [1] of the scenario. *)
Lemma getAccesses_again_witness :
  exists features (t' : Tracker),
    getAccesses 1 "a" (fresh 3 1 8 true) = Ok (features, t') /\
    getAccesses 1 "a" t' = Ok (features, t').
Proof.
  destruct (getAccesses_again 1 "a" "b" (fresh 3 1 8 true) scenario_wf
              (quiescent_fresh 3 1 8 true))
    as (features & t' & Hget & Hagain & _).
  exists features, t'. split; [exact Hget | exact Hagain].
Defined.

(** X3 on the scenario with Bloom filters. *)
Lemma filter_features_are_bits_witness :
  exists features (t' : Tracker),
    getAccesses 1 "a" (fresh 3 1 8 false) = Ok (features, t') /\
    forall v, v ∈ features -> v = 0 \/ v = 1.
Proof.
  apply (filter_features_are_bits 1 "a" (fresh 3 1 8 false)).
  - exact scenario_filters_wf.
  - apply quiescent_fresh.
  - reflexivity.
Defined.

(** X4 on the configuration of the scenario. *)
Lemma new_tracker_is_empty_witness :
  getRotatedAccessCounts 1 (fresh 3 1 8 true) = Ok ([0; 0; 0], fresh 3 1 8 true).
Proof.
  destruct (new_tracker_is_empty (CMS := Sketch) (BF := Bloom) (config 3 1 8 true) 1
              [(1, OpRecordAccess "a")]) as (_ & Hget & _).
  - unfold wf_config. simpl. lia.
  - exact Hget.
Defined.

(** X5 on a ring of two buckets, with records eight spans apart. *)
Lemma small_ring_never_rotates_witness :
  exists (t : Tracker) counts,
    run [(0, OpRecordAccess "a"); (5, OpRecordAccess "b"); (8, OpGetAccesses "a")]
      (fresh 2 1 8 true) = Ok (tt, t) /\
    getRotatedAccessCounts 9 t = Ok (counts, t) /\
    sumZ counts = 2.
Proof.
  destruct (small_ring_never_rotates (CMS := Sketch) (BF := Bloom) (config 2 1 8 true)
              [(0, OpRecordAccess "a"); (5, OpRecordAccess "b"); (8, OpGetAccesses "a")] 9)
    as (t & counts & Hrun & _ & _ & _ & Hget & Hsum).
  - unfold wf_config. simpl. lia.
  - simpl. lia.
  - simpl. lia.
  - exists t, counts. split; [exact Hrun |]. split; [exact Hget | exact Hsum].
Defined.

(** X7 on the scenario: no rotation is due at tick [2], one is at tick [1]. *)
Lemma moved_to_reads_witness :
  (exists features,
     getAccesses 2 "a" (fresh 3 1 8 true) = Ok (features, fresh 3 1 8 true) /\
     getAccesses 2 "a" (AccessTrackerBase_move (fresh 3 1 8 true)).1 =
       Ok (features, (AccessTrackerBase_move (fresh 3 1 8 true)).1)) /\
  getAccesses 1 "a" (AccessTrackerBase_move (fresh 3 1 8 true)).1 =
    Fault IndexOutOfBounds.
Proof.
  split.
  - apply (proj1 (moved_to_reads 2 "a" (fresh 3 1 8 true) scenario_wf
                    (quiescent_fresh 3 1 8 true))). reflexivity.
  - apply (proj2 (moved_to_reads 1 "a" (fresh 3 1 8 true) scenario_wf
                    (quiescent_fresh 3 1 8 true))). reflexivity.
Defined.

(** X8 at tick [2] of the scenario, one bucket behind the shared index. *)
Lemma border_record_position_witness :
  exists (t' : Tracker) counts,
    recordAccess 2 "a" (fresh 3 1 8 true) = Ok (tt, t') /\
    getRotatedAccessCounts 2 t' = Ok (counts, t') /\
    counts !! 2%nat = Some 1 /\ counts !! 0%nat = Some 0.
Proof.
  destruct (border_record_position 2 "a" (fresh 3 1 8 true) scenario_wf
              (quiescent_fresh 3 1 8 true))
    as (t' & counts & old & Hrec & Hget & Hold & Hlast & Hfirst).
  - unfold ring_fits. simpl. lia.
  - simpl. lia.
  - reflexivity.
  - exists t', counts. split; [exact Hrec |]. split; [exact Hget |].
    split; [| exact Hfirst].
    vm_compute in Hold. injection Hold as <-. exact Hlast.
Defined.

(** X9 at tick [1] of the scenario. *)
Lemma recordAccess_sum_witness :
  exists (t' : Tracker) before after,
    getRotatedAccessCounts 1 (fresh 3 1 8 true) = Ok (before, fresh 3 1 8 true) /\
    recordAccess 1 "a" (fresh 3 1 8 true) = Ok (tt, t') /\
    getRotatedAccessCounts 1 t' = Ok (after, t') /\
    sumZ after = sumZ before - 0 + 1.
Proof.
  destruct (recordAccess_sum 1 "a" (fresh 3 1 8 true) scenario_wf
              (quiescent_fresh 3 1 8 true))
    as (t' & before & after & entered & Hget & Hrec & Hget' & Hentered & Hsum).
  - unfold ring_fits. simpl. lia.
  - exact scenario_counters_small.
  - exists t', before, after. split; [exact Hget |]. split; [exact Hrec |].
    split; [exact Hget' |]. vm_compute in Hentered. injection Hentered as <-.
    exact Hsum.
Defined.

(** X10 on two threads of the scenario under an alternating schedule. *)
Lemma concurrent_records_exclude_witness :
  exists s' : record_system Sketch Bloom,
    record_sys_run [0; 1; 0; 1; 0; 1; 0; 0]%nat
      {| rshared := fresh 3 1 8 true; rthreads := record_threads [(1, "a"); (1, "b")] |} =
    Ok s' /\
    forall i j p q b,
      rthreads s' !! i = Some p -> rthreads s' !! j = Some q ->
      held p = Some b -> held q = Some b -> i = j.
Proof.
  destruct (concurrent_records_exclude [(1, "a"); (1, "b")] [0; 1; 0; 1; 0; 1; 0; 0]%nat
              (fresh 3 1 8 true) scenario_wf (quiescent_fresh 3 1 8 true))
    as (s' & Hrun & _ & _ & _ & Hexcl & _).
  exists s'. split; [exact Hrun | exact Hexcl].
Defined.

(** X11 on two threads of the scenario whose ticks need no rotation. *)
Lemma concurrent_records_all_counted_witness :
  exists (s' : record_system Sketch Bloom) old,
    record_sys_run [0; 1; 0; 1; 0; 1; 0; 1; 0; 1; 0; 1]%nat
      {| rshared := fresh 3 1 8 true; rthreads := record_threads [(0, "a"); (2, "b")] |} =
    Ok s' /\
    itemCounts_ (rshared s') !! 0%nat =
      Some (wrap64 (old + sumZ (recorded <$> rthreads s'))).
Proof.
  destruct (concurrent_records_all_counted [(0, "a"); (2, "b")]
              [0; 1; 0; 1; 0; 1; 0; 1; 0; 1; 0; 1]%nat
              (fresh 3 1 8 true) scenario_wf (quiescent_fresh 3 1 8 true))
    as (s' & old & Hrun & _ & _ & Hcount & _).
  - intros v Hv. pose proof (scenario_counters_small v Hv). lia.
  - apply Forall_forall. repeat constructor.
  - exists s', old. split; [exact Hrun | exact Hcount].
Defined.

(** X12 at tick [1] of the scenario. *)
Lemma recordAccess_alone_witness :
  exists t' : Tracker,
    recordAccess 1 "a" (fresh 3 1 8 true) = Ok (tt, t') /\
    record_sys_run (replicate 10 0%nat)
      {| rshared := fresh 3 1 8 true; rthreads := [InCheck (AtEntry 1) "a"] |} =
    Ok {| rshared := t'; rthreads := [Finished] |}.
Proof.
  apply (recordAccess_alone 1 "a" (fresh 3 1 8 true)).
  - exact scenario_wf.
  - apply quiescent_fresh.
Defined.

(** X13 at tick [1] of the scenario, where a rotation into bucket [1] is
    due. *)
Lemma concurrent_record_can_be_lost_witness :
  exists schedule (t1 : Tracker),
    record_sys_run schedule
      {| rshared := fresh 3 1 8 true;
         rthreads := [InCheck (AtEntry 1) "a"; InCheck (AtEntry 1) "b"] |} =
    Ok {| rshared := t1; rthreads := [Finished; Finished] |} /\
    itemCounts_ t1 !! 1%nat = Some 1.
Proof.
  destruct (concurrent_record_can_be_lost 1 "a" "b" (fresh 3 1 8 true) scenario_wf
              (quiescent_fresh 3 1 8 true))
    as (schedule & t1 & t2 & Hrun & _ & _ & _ & Hone & _).
  - reflexivity.
  - exists schedule, t1. split; [exact Hrun | exact Hone].
Defined.

(** X14 on a tracker built from the default configuration. *)
Lemma zero_config_divides_by_zero_witness :
  recordAccess 1 "a" (AccessTrackerBase_ctor (CMS := Sketch) (BF := Bloom) default_Config) =
    Fault DivideByZero /\
  getRotatedAccessCounts 1
    (AccessTrackerBase_ctor (CMS := Sketch) (BF := Bloom) default_Config) =
    Fault DivideByZero.
Proof.
  destruct (zero_config_divides_by_zero 1 1 "a"
              (AccessTrackerBase_ctor (CMS := Sketch) (BF := Bloom) default_Config))
    as (Hrec & _ & _ & Hcounts).
  - left. reflexivity.
  - split; [exact Hrec | exact Hcounts].
Defined.
